(** * Mesh diagnostics of glb-analyzer: a shallow embedding

    The analysis engine of the repository ([computeMeshDiagnostics] and the
    overlay extractor [extractProblemGeometry]) translated function by
    function.

    Conventions of the embedding.
    - A JavaScript number that holds a coordinate, a length or an area is a
      binary64 value ([float], the kernel's primitive floats): [+ - * / sqrt]
      and the comparisons are the IEEE-754 operations the engine runs.
    - A number that holds a vertex index, a triangle index, a count or a
      numeric edge key is an integer ([Z]).  Counts stay far below 2^53,
      where binary64 arithmetic on integers is exact; the numeric edge keys
      are exact for indices below 2^26 ([keysFit]), and the key of the
      T-junction passes, which can exceed 2^53, is computed on doubles.
    - A cell index of a spatial hash is the result of [Math.floor]
      ([Js.int]).  The loops [for (c = lo; c <= hi; c++)] over cell indices
      count on a double: they visit [lo, lo + 1, ..., hi] and end only
      while the counter stays below 2^53 in magnitude.  [cellRange] is that
      list of values, and every statement about a pass that runs such a
      loop carries the hypothesis that its cell indices fit ([boundsFit],
      [cellsFit], [overlayCellsFit]).
    - [Float32Array]/[Uint32Array]/[number[]] are lists.  Reading a
      [Float32Array] outside its bounds yields [undefined]; every use the
      engine makes of such a value coerces it to NaN, so the read is
      modelled as [nan].
    - [Map] and [Set] iterate in insertion order: they are association lists
      and duplicate-free lists that append new keys at the end.
    - The index array is consumed three entries at a time; [triangles] and
      [vertices] are the whole triples of an array.  They are what the
      engine's loops visit when the length is a multiple of three (the data
      model of the engine); statements about those loops carry that
      hypothesis.
    - [Math.acos] has no exact counterpart; the dihedral pass takes it as a
      parameter ([Math_acos]).
    - The recursive [find] of the union-find pass consumes call stack; the
      stack depth available is a parameter ([stack]) and exhausting it is
      the [None] outcome (the engine's RangeError). *)

From Stdlib Require Import ZArith List Bool Lia Permutation Sorted.
From Stdlib Require Import PrimFloat FloatOps SpecFloat FloatAxioms.
From Stdlib Require Uint63.
Import ListNotations.

Set Warnings "-inexact-float".
Local Open Scope Z_scope.

(* ===================================================================== *)
(** ** JavaScript numbers                                                 *)
(* ===================================================================== *)

Module Js.

(** [undefined] or a number, where the distinction is observable (the
    union-find pass). *)
Inductive value : Type :=
| Undef
| Num (z : Z).

Definition value_eqb (a b : value) : bool :=
  match a, b with
  | Undef, Undef => true
  | Num x, Num y => x =? y
  | _, _ => false
  end.

(** The result of [Math.floor]: NaN, an infinity, or an integer. *)
Inductive int : Type :=
| INaN
| IInf (negative : bool)
| IInt (z : Z).

Definition int_eqb (a b : int) : bool :=
  match a, b with
  | INaN, INaN => true
  | IInf s, IInf t => Bool.eqb s t
  | IInt x, IInt y => x =? y
  | _, _ => false
  end.

Definition floor (x : float) : int :=
  match Prim2SF x with
  | S754_zero _ => IInt 0
  | S754_infinity s => IInf s
  | S754_nan => INaN
  | S754_finite s m e =>
      let v := if s then Z.neg m else Z.pos m in
      IInt (if 0 <=? e then v * 2 ^ e else v / 2 ^ (- e))
  end.

(** An integer count used in floating-point arithmetic. *)
Definition ofZ (z : Z) : float :=
  if z <? 0 then PrimFloat.opp (of_uint63 (Uint63.of_Z (- z)))
  else of_uint63 (Uint63.of_Z z).

(** The double nearest to an integer of any size; the integers produced by
    [floor] are doubles themselves. *)
Definition ofInt (z : Z) : float := SF2Prim (binary_normalize prec emax z 0 false).

(** [c + d] for a cell index [c] and a small offset [d], added as doubles:
    exact below 2^53, rounded above. *)
Definition int_add (a : int) (d : Z) : int :=
  match a with
  | IInt z => floor (ofInt z + ofZ d)%float
  | other => other
  end.

(** A cell index from which a double counts on by exact steps of one: an
    integer of magnitude below 2^53. *)
Definition int_fits (a : int) : bool :=
  match a with
  | IInt z => (-9007199254740992 <? z) && (z <? 9007199254740992)
  | _ => false
  end.

(** The value stored into a [Float32Array]: the nearest binary32 number,
    ties to even, overflowing to an infinity. *)
Definition fround (x : float) : float :=
  match Prim2SF x with
  | S754_finite s m e =>
      SF2Prim (binary_normalize 24 128 (if s then Z.neg m else Z.pos m) e s)
  | _ => x
  end.

(** A double that holds an integer, as that integer. *)
Definition toZ (x : float) : Z :=
  match floor x with
  | IInt z => z
  | _ => 0
  end.

Definition gt (a b : float) : bool := PrimFloat.ltb b a.
Definition ge (a b : float) : bool := PrimFloat.leb b a.

Definition isFinite (x : float) : bool :=
  negb (is_nan x) && negb (is_infinity x).

Definition is_neg_zero (x : float) : bool :=
  is_zero x && PrimFloat.ltb (1 / x)%float 0%float.

(** [Math.min] and [Math.max] of two numbers: NaN if either is NaN, and
    -0 counts as smaller than +0. *)
Definition min2 (a b : float) : float :=
  if is_nan a || is_nan b then nan
  else if PrimFloat.ltb a b then a
  else if PrimFloat.ltb b a then b
  else if is_neg_zero a then a else b.

Definition max2 (a b : float) : float :=
  if is_nan a || is_nan b then nan
  else if PrimFloat.ltb b a then a
  else if PrimFloat.ltb a b then b
  else if is_neg_zero a then b else a.

Definition min3 (a b c : float) : float := min2 (min2 a b) c.
Definition max3 (a b c : float) : float := max2 (max2 a b) c.

(** [Math.min(...xs)] and [Math.max(...xs)]. *)
Definition minList (xs : list float) : float := fold_left min2 xs infinity.
Definition maxList (xs : list float) : float := fold_left max2 xs neg_infinity.

(** [x ** 2]; the exponent 2 is computed as the product. *)
Definition sq (x : float) : float := (x * x)%float.

Definition PI : float := 0x1.921fb54442d18p+1%float.

End Js.

(* ===================================================================== *)
(** ** Arrays, Maps and Sets                                              *)
(* ===================================================================== *)

Section Containers.

Context {A : Type}.

(** [a[k]] for an integer [k]; [None] is [undefined]. *)
Fixpoint lookupZ (l : list A) (k : Z) : option A :=
  match l with
  | [] => None
  | x :: r => if k =? 0 then Some x else lookupZ r (k - 1)
  end.

(** [a[k] = v] on a typed array: nothing happens outside the bounds. *)
Fixpoint updateZ (l : list A) (k : Z) (v : A) : list A :=
  match l with
  | [] => []
  | x :: r => if k =? 0 then v :: r else x :: updateZ r (k - 1) v
  end.

Fixpoint indexedFrom (t : Z) (l : list A) : list (Z * A) :=
  match l with
  | [] => []
  | x :: r => (t, x) :: indexedFrom (t + 1) r
  end.

(** The entries of an array with their offsets. *)
Definition indexed (l : list A) : list (Z * A) := indexedFrom 0 l.

End Containers.

Section InsertionOrdered.

Context {K V : Type}.
Variable eqb : K -> K -> bool.

(** [Set.has] *)
Fixpoint shas (k : K) (s : list K) : bool :=
  match s with
  | [] => false
  | x :: r => if eqb x k then true else shas k r
  end.

(** [Set.add] *)
Definition sadd (k : K) (s : list K) : list K :=
  if shas k s then s else s ++ [k].

(** [Map.get] *)
Fixpoint mget (k : K) (m : list (K * V)) : option V :=
  match m with
  | [] => None
  | (x, v) :: r => if eqb x k then Some v else mget k r
  end.

(** [Map.has] *)
Definition mhas (k : K) (m : list (K * V)) : bool :=
  match mget k m with Some _ => true | None => false end.

(** [Map.set]: an existing key keeps its place, a new key goes last. *)
Fixpoint mset (k : K) (v : V) (m : list (K * V)) : list (K * V) :=
  match m with
  | [] => [(k, v)]
  | (x, w) :: r => if eqb x k then (x, v) :: r else (x, w) :: mset k v r
  end.

End InsertionOrdered.

(** [if (!m.has(k)) m.set(k, [])]: make sure [k] has an entry. *)
Definition mensure {K T : Type} (eqb : K -> K -> bool) (k : K)
    (m : list (K * list T)) : list (K * list T) :=
  if mhas eqb k m then m else mset eqb k [] m.

(** [m.get(k).push(t)]: the array stored under [k] is shared with the map,
    so the push shows in the entry. *)
Definition mappend {K T : Type} (eqb : K -> K -> bool) (k : K) (t : T)
    (m : list (K * list T)) : list (K * list T) :=
  match mget eqb k m with
  | Some l => mset eqb k (l ++ [t]) m
  | None => m
  end.

(** [m.get(k).add(t)] for a map of Sets. *)
Definition minsert {K T : Type} (eqb : K -> K -> bool) (teqb : T -> T -> bool)
    (k : K) (t : T) (m : list (K * list T)) : list (K * list T) :=
  match mget eqb k m with
  | Some l => mset eqb k (sadd teqb t l) m
  | None => m
  end.

(* ===================================================================== *)
(** ** Data model                                                         *)
(* ===================================================================== *)

Record Vec3 : Type := mkVec3 { vx : float; vy : float; vz : float }.

Record BoundingBox : Type := mkBoundingBox {
  bmin : Vec3;
  bmax : Vec3;
  bsize : Vec3;
  diagonal : float
}.

Record DistributionStats : Type := mkStats {
  stat_min : float;
  stat_max : float;
  stat_mean : float;
  stat_median : float;
  stat_stdDev : float
}.

Record MeshDiagnostics : Type := mkMeshDiagnostics {
  vertexCount : Z;
  triangleCount : Z;
  edgeCount : Z;
  boundaryEdgeCount : Z;
  nonManifoldEdgeCount : Z;
  nonManifoldVertexCount : Z;
  connectedComponents : Z;
  eulerCharacteristic : Z;
  degenerateTriangleCount : Z;
  windingInconsistentEdgeCount : Z;
  windingConsistencyPercent : float;
  windingCheckSkipped : bool;
  duplicateVertexCount : Z;
  tinyTriangleCount : Z;
  needleTriangleCount : Z;
  edgeLengthStats : option DistributionStats;
  aspectRatioStats : option DistributionStats;
  valenceDistribution : option (list (Z * Z));
  boundingBox : option BoundingBox;
  isolatedVertexCount : Z;
  sharpEdgeCount : Z;
  coplanarEdgeCount : Z;
  dihedralAngleStats : option DistributionStats;
  selfIntersectionCount : Z;
  tJunctionCount : Z;
  thinWallCount : Z;
  thinWallThreshold : float;
  coincidentFaceCount : Z;
  isWatertight : bool;
  isManifold : bool;
  hasNonManifoldVertices : bool;
  hasConsistentWinding : bool
}.

Record ProblemGeometry : Type := mkProblemGeometry {
  boundaryEdges : list float;
  nonManifoldEdges : list float;
  nonManifoldVertices : list float;
  selfIntersectionCentroids : list float;
  tJunctionVertices : list float
}.

(** Triangle [t] occupies offsets [3t .. 3t+2] of the index array. *)
Fixpoint triangles (indices : list Z) : list (Z * Z * Z) :=
  match indices with
  | a :: b :: c :: rest => (a, b, c) :: triangles rest
  | _ => []
  end.

(** Vertex [v] occupies offsets [3v .. 3v+2] of the position array. *)
Fixpoint vertices (positions : list float) : list (float * float * float) :=
  match positions with
  | x :: y :: z :: rest => (x, y, z) :: vertices rest
  | _ => []
  end.

Definition lengthZ {A : Type} (l : list A) : Z := Z.of_nat (length l).

Arguments lengthZ : simpl never.

(** [positions[k]] used as a number. *)
Definition coord (positions : list float) (k : Z) : float :=
  match lookupZ positions k with
  | Some x => x
  | None => nan
  end.

(** The three coordinates of vertex [i]. *)
Definition vertexAt (positions : list float) (i : Z) : float * float * float :=
  (coord positions (i * 3), coord positions (i * 3 + 1), coord positions (i * 3 + 2)).

(** The three indices of triangle [t]. *)
Definition triangleAt (indices : list Z) (t : Z) : Z * Z * Z :=
  match lookupZ (triangles indices) t with
  | Some tri => tri
  | None => (0, 0, 0)
  end.

(* ===================================================================== *)
(** ** Edge keys and the edge-face map                                    *)
(* ===================================================================== *)

Definition MAX_VERTEX_FOR_NUMERIC_KEY : Z := 67108864.

Definition numericEdgeKey (a b : Z) : Z :=
  let min := if a <? b then a else b in
  let max := if a <? b then b else a in
  min * MAX_VERTEX_FOR_NUMERIC_KEY + max.

Definition numericDirectedEdgeKey (from to : Z) : Z :=
  from * MAX_VERTEX_FOR_NUMERIC_KEY + to.

Definition decodeEdgeKey (key : Z) : Z * Z :=
  (key / MAX_VERTEX_FOR_NUMERIC_KEY, key mod MAX_VERTEX_FOR_NUMERIC_KEY).

Definition MAP_SIZE_LIMIT : Z := 16777216.
Definition MAX_SAFE_TRIANGLES : Z := MAP_SIZE_LIMIT / 3.

(** One iteration of the edge-map loop for triangle [t = (i0, i1, i2)]. *)
Definition edgeFaceStep (m : list (Z * list Z)) (entry : Z * (Z * Z * Z))
    : list (Z * list Z) :=
  let '(t, (i0, i1, i2)) := entry in
  let e01 := numericEdgeKey i0 i1 in
  let e12 := numericEdgeKey i1 i2 in
  let e20 := numericEdgeKey i2 i0 in
  let m := mensure Z.eqb e01 m in
  let m := mensure Z.eqb e12 m in
  let m := mensure Z.eqb e20 m in
  let m := mappend Z.eqb e01 t m in
  let m := mappend Z.eqb e12 t m in
  mappend Z.eqb e20 t m.

(** [buildEdgeFaceMap(indices, triangleCount)]; the engine calls it with
    [triangleCount = indices.length / 3], and [computeMeshDiagnostics]
    repeats the same loop inline. *)
Definition buildEdgeFaceMap (indices : list Z) : list (Z * list Z) :=
  fold_left edgeFaceStep (indexed (triangles indices)) [].

Definition countBoundaryEdges (edgeFaceMap : list (Z * list Z)) : Z :=
  fold_left (fun n (e : Z * list Z) =>
               if lengthZ (snd e) =? 1 then n + 1 else n) edgeFaceMap 0.

Definition countNonManifoldEdges (edgeFaceMap : list (Z * list Z)) : Z :=
  fold_left (fun n (e : Z * list Z) =>
               if lengthZ (snd e) =? 1 then n
               else if 2 <? lengthZ (snd e) then n + 1 else n) edgeFaceMap 0.

(* ===================================================================== *)
(** ** Degenerate triangles                                               *)
(* ===================================================================== *)

Section Geometry.

Local Open Scope float_scope.

Definition dist3 (p q : float * float * float) : float :=
  let '(px, py, pz) := p in
  let '(qx, qy, qz) := q in
  sqrt (Js.sq (qx - px) + Js.sq (qy - py) + Js.sq (qz - pz)).

(** The cross product [(v1 - v0) x (v2 - v0)]. *)
Definition crossAt (v0 v1 v2 : float * float * float) : float * float * float :=
  let '(v0x, v0y, v0z) := v0 in
  let '(v1x, v1y, v1z) := v1 in
  let '(v2x, v2y, v2z) := v2 in
  let e1x := v1x - v0x in
  let e1y := v1y - v0y in
  let e1z := v1z - v0z in
  let e2x := v2x - v0x in
  let e2y := v2y - v0y in
  let e2z := v2z - v0z in
  (e1y * e2z - e1z * e2y, e1z * e2x - e1x * e2z, e1x * e2y - e1y * e2x).

Definition normSq (n : float * float * float) : float :=
  let '(nx, ny, nz) := n in nx * nx + ny * ny + nz * nz.

(** The sampling loop over the first [min(triangleCount, 1000)]
    triangles: total edge length and number of sampled edges. *)
Definition sampleEdges (positions : list float) (indices : list Z)
    : float * Z :=
  fold_left
    (fun (acc : float * Z) (tri : Z * Z * Z) =>
       let '(totalEdgeLength, sampledEdges) := acc in
       let '(i0, i1, i2) := tri in
       let v0 := vertexAt positions i0 in
       let v1 := vertexAt positions i1 in
       let v2 := vertexAt positions i2 in
       let e1Len := dist3 v0 v1 in
       let e2Len := dist3 v0 v2 in
       let e3Len := dist3 v1 v2 in
       (totalEdgeLength + (e1Len + e2Len + e3Len), (sampledEdges + 3)%Z))
    (firstn 1000 (triangles indices)) (0, 0%Z).

Definition avgEdgeLength (positions : list float) (indices : list Z) : float :=
  let '(totalEdgeLength, sampledEdges) := sampleEdges positions indices in
  if (0 <? sampledEdges)%Z then totalEdgeLength / Js.ofZ sampledEdges else 1.

Definition areaThresholdSq (positions : list float) (indices : list Z) : float :=
  let avg := avgEdgeLength positions indices in
  let expectedAreaSq := 0.1875 * avg * avg in
  expectedAreaSq * 1e-8.

(** [0.25 * |n|^2], the squared area of a triangle. *)
Definition triangleAreaSq (positions : list float) (tri : Z * Z * Z) : float :=
  let '(i0, i1, i2) := tri in
  0.25 * normSq (crossAt (vertexAt positions i0) (vertexAt positions i1)
                         (vertexAt positions i2)).

Definition isDegenerate (positions : list float) (threshold : float)
    (tri : Z * Z * Z) : bool :=
  triangleAreaSq positions tri <? threshold.

Definition countDegenerateTriangles (positions : list float) (indices : list Z) : Z :=
  let threshold := areaThresholdSq positions indices in
  fold_left (fun n tri => if isDegenerate positions threshold tri
                          then (n + 1)%Z else n)
            (triangles indices) 0%Z.

End Geometry.

(* ===================================================================== *)
(** ** Connected components: union-find over a Uint32Array                *)
(* ===================================================================== *)

(** The [parent] array.  Besides its elements the object can carry the own
    property ["undefined"], written when [find] runs on a value read outside
    the array's bounds. *)
Record Parent : Type := mkParent {
  elems : list Z;
  expando : Js.value
}.

(** [parent[x]] *)
Definition parentGet (p : Parent) (x : Js.value) : Js.value :=
  match x with
  | Js.Undef => expando p
  | Js.Num k => match lookupZ (elems p) k with
                | Some v => Js.Num v
                | None => Js.Undef
                end
  end.

(** ToUint32 of the stored value: [undefined] becomes NaN, hence 0. *)
Definition toUint32 (v : Js.value) : Z :=
  match v with
  | Js.Undef => 0
  | Js.Num z => z mod 4294967296
  end.

(** [parent[x] = v] *)
Definition parentSet (p : Parent) (x v : Js.value) : Parent :=
  match x with
  | Js.Undef => mkParent (elems p) v
  | Js.Num k => mkParent (updateZ (elems p) k (toUint32 v)) (expando p)
  end.

(** [find(x)], with the remaining call-stack depth. *)
Fixpoint find (stack : nat) (p : Parent) (x : Js.value)
    : option (Parent * Js.value) :=
  match stack with
  | O => None
  | S depth =>
      if Js.value_eqb (parentGet p x) x then Some (p, parentGet p x)
      else match find depth p (parentGet p x) with
           | None => None
           | Some (p1, r) =>
               let p2 := parentSet p1 x r in
               Some (p2, parentGet p2 x)
           end
  end.

Definition union (stack : nat) (p : Parent) (a b : Js.value) : option Parent :=
  match find stack p a with
  | None => None
  | Some (p1, rootA) =>
      match find stack p1 b with
      | None => None
      | Some (p2, rootB) =>
          if Js.value_eqb rootA rootB then Some p2
          else Some (parentSet p2 rootA rootB)
      end
  end.

Fixpoint iota (start : Z) (n : nat) : list Z :=
  match n with
  | O => []
  | S n' => start :: iota (start + 1) n'
  end.

(** [new Uint32Array(vertexCount)] filled with [parent[i] = i]. *)
Definition initialParent (vertexCount : Z) : Parent :=
  mkParent (iota 0 (Z.to_nat vertexCount)) Js.Undef.

(** The loop [union(i0, i1); union(i1, i2)] over all triangles. *)
Fixpoint unionTriangles (stack : nat) (p : Parent) (tris : list (Z * Z * Z))
    : option Parent :=
  match tris with
  | [] => Some p
  | (i0, i1, i2) :: rest =>
      match union stack p (Js.Num i0) (Js.Num i1) with
      | None => None
      | Some p1 =>
          match union stack p1 (Js.Num i1) (Js.Num i2) with
          | None => None
          | Some p2 => unionTriangles stack p2 rest
          end
      end
  end.

(** The Set of indices that pass the guard [idx < vertexCount]. *)
Definition usedVertices (indices : list Z) (vertexCount : Z) : list Z :=
  fold_left (fun used idx => if idx <? vertexCount then sadd Z.eqb idx used
                             else used) indices [].

(** [componentRoots.add(find(v))] for every used vertex. *)
Fixpoint collectRoots (stack : nat) (p : Parent) (used : list Z)
    (roots : list Js.value) : option (list Js.value) :=
  match used with
  | [] => Some roots
  | v :: rest =>
      match find stack p (Js.Num v) with
      | None => None
      | Some (p1, r) => collectRoots stack p1 rest (sadd Js.value_eqb r roots)
      end
  end.

Definition countComponents (stack : nat) (indices : list Z) (vertexCount : Z)
    : option Z :=
  match unionTriangles stack (initialParent vertexCount) (triangles indices) with
  | None => None
  | Some p =>
      match collectRoots stack p (usedVertices indices vertexCount) [] with
      | None => None
      | Some roots => Some (lengthZ roots)
      end
  end.

(* ===================================================================== *)
(** ** Non-manifold vertices                                              *)
(* ===================================================================== *)

(** [vertexToTriangles]: for every vertex the triangles that mention it. *)
Definition vertexToTrianglesStep (m : list (Z * list Z)) (entry : Z * (Z * Z * Z))
    : list (Z * list Z) :=
  let '(triIdx, (i0, i1, i2)) := entry in
  let m := mensure Z.eqb i0 m in
  let m := mensure Z.eqb i1 m in
  let m := mensure Z.eqb i2 m in
  let m := mappend Z.eqb i0 triIdx m in
  let m := mappend Z.eqb i1 triIdx m in
  mappend Z.eqb i2 triIdx m.

Definition vertexToTriangles (indices : list Z) : list (Z * list Z) :=
  fold_left vertexToTrianglesStep (indexed (triangles indices)) [].

(** The link graph around [v]: the two other vertices of every incident
    triangle are joined. *)
Definition linkGraphStep (indices : list Z) (v : Z) (g : list (Z * list Z))
    (triIdx : Z) : list (Z * list Z) :=
  let '(i0, i1, i2) := triangleAt indices triIdx in
  match filter (fun vi => negb (vi =? v)) [i0; i1; i2] with
  | [v1; v2] =>
      let g := mensure Z.eqb v1 g in
      let g := mensure Z.eqb v2 g in
      let g := minsert Z.eqb Z.eqb v1 v2 g in
      minsert Z.eqb Z.eqb v2 v1 g
  | _ => g
  end.

Definition linkGraph (indices : list Z) (v : Z) (tris : list Z)
    : list (Z * list Z) :=
  fold_left (linkGraphStep indices v) tris [].

(** The breadth-first loop [while (head < queue.length)]; [pending] is the
    part of the queue from [head] on and [fuel] bounds the number of
    iterations.  The bound [bfsBound] used below is never the reason the
    loop stops ([bfs_bound_suffices]). *)
Fixpoint bfs (fuel : nat) (g : list (Z * list Z)) (visited pending : list Z)
    : list Z :=
  match fuel with
  | O => visited
  | S fuel' =>
      match pending with
      | [] => visited
      | current :: rest =>
          if shas Z.eqb current visited then bfs fuel' g visited rest
          else
            let visited' := sadd Z.eqb current visited in
            let pushed :=
              match mget Z.eqb current g with
              | Some neighbors =>
                  filter (fun n => negb (shas Z.eqb n visited')) neighbors
              | None => []
              end in
            bfs fuel' g visited' (rest ++ pushed)
      end
  end.

Definition bfsBound (g : list (Z * list Z)) : nat :=
  S (length (flat_map snd g)).

(** Whether the fans around the vertex with incident triangles [tris] are
    disconnected. *)
Definition isPinch (indices : list Z) (v : Z) (tris : list Z) : bool :=
  match tris with
  | [] => false
  | _ =>
      let edgeGraph := linkGraph indices v tris in
      match edgeGraph with
      | [] => false
      | (startVertex, _) :: _ =>
          let visited := bfs (bfsBound edgeGraph) edgeGraph [] [startVertex] in
          negb (lengthZ visited =? lengthZ edgeGraph)
      end
  end.

Definition detectNonManifoldVertices (indices : list Z) : Z :=
  fold_left (fun n (e : Z * list Z) =>
               if isPinch indices (fst e) (snd e) then n + 1 else n)
            (vertexToTriangles indices) 0.

(* ===================================================================== *)
(** ** Winding consistency                                                *)
(* ===================================================================== *)

Record WindingResult : Type := mkWindingResult {
  inconsistentEdgeCount : Z;
  consistencyPercent : float;
  skipped : option bool
}.

(** [m.set(k, (m.get(k) ?? 0) + 1)] *)
Definition mincr (k : Z) (m : list (Z * Z)) : list (Z * Z) :=
  mset Z.eqb k (match mget Z.eqb k m with Some c => c | None => 0 end + 1) m.

Definition directedEdgeStep (m : list (Z * Z)) (tri : Z * Z * Z) : list (Z * Z) :=
  let '(v0, v1, v2) := tri in
  let e01 := numericDirectedEdgeKey v0 v1 in
  let e12 := numericDirectedEdgeKey v1 v2 in
  let e20 := numericDirectedEdgeKey v2 v0 in
  mincr e20 (mincr e12 (mincr e01 m)).

Definition directedEdgeCounts (indices : list Z) : list (Z * Z) :=
  fold_left directedEdgeStep (triangles indices) [].

Record WindingState : Type := mkWindingState {
  checkedEdges : list Z;
  manifoldEdges : Z;
  inconsistentEdges : Z
}.

(** One iteration of the loop over the entries of [directedEdgeCounts]. *)
Definition windingStep (counts : list (Z * Z)) (st : WindingState)
    (entry : Z * Z) : WindingState :=
  let '(directedEdgeKey, forwardCount) := entry in
  let from := directedEdgeKey / MAX_VERTEX_FOR_NUMERIC_KEY in
  let to := directedEdgeKey mod MAX_VERTEX_FOR_NUMERIC_KEY in
  let undirectedKey := numericEdgeKey from to in
  if shas Z.eqb undirectedKey (checkedEdges st) then st
  else
    let checked := sadd Z.eqb undirectedKey (checkedEdges st) in
    let oppositeEdgeKey := numericDirectedEdgeKey to from in
    let backwardCount :=
      match mget Z.eqb oppositeEdgeKey counts with Some c => c | None => 0 end in
    let totalTriangles := forwardCount + backwardCount in
    if totalTriangles <? 2 then mkWindingState checked (manifoldEdges st) (inconsistentEdges st)
    else if 2 <? totalTriangles then mkWindingState checked (manifoldEdges st) (inconsistentEdges st)
    else
      mkWindingState checked (manifoldEdges st + 1)
        (if negb (forwardCount =? 1) || negb (backwardCount =? 1)
         then inconsistentEdges st + 1 else inconsistentEdges st).

Definition windingScan (indices : list Z) : WindingState :=
  let counts := directedEdgeCounts indices in
  fold_left (windingStep counts) counts (mkWindingState [] 0 0).

Definition percentOf (manifoldEdgeCount inconsistent : Z) : float :=
  if 0 <? manifoldEdgeCount
  then (Js.ofZ (manifoldEdgeCount - inconsistent) / Js.ofZ manifoldEdgeCount * 100)%float
  else 100%float.

Definition detectWindingConsistency (indices : list Z) : WindingResult :=
  let triangleCount := lengthZ indices / 3 in
  if MAX_SAFE_TRIANGLES <? triangleCount then
    mkWindingResult 0 (-1)%float (Some true)
  else
    let st := windingScan indices in
    mkWindingResult (inconsistentEdges st)
      (percentOf (manifoldEdges st) (inconsistentEdges st)) None.

(* ===================================================================== *)
(** ** Distribution statistics                                            *)
(* ===================================================================== *)

Section Statistics.

Local Open Scope float_scope.

(** [sort((a, b) => a - b)]: the sort is stable, an element goes before
    the first one it compares below. *)
Fixpoint insertSorted (x : float) (l : list float) : list float :=
  match l with
  | [] => [x]
  | y :: r => if (y - x) <=? 0 then y :: insertSorted x r else x :: y :: r
  end.

Definition sortNumbers (l : list float) : list float :=
  fold_left (fun acc x => insertSorted x acc) l [].

Definition nthF (l : list float) (k : Z) : float :=
  match lookupZ l k with Some x => x | None => nan end.

Definition sumF (l : list float) : float :=
  fold_left (fun a b => a + b) l 0.

Definition computeStats (values : list float) : option DistributionStats :=
  match values with
  | [] => None
  | _ =>
      let n := lengthZ values in
      let sorted := sortNumbers values in
      let sum := sumF values in
      let mean := sum / Js.ofZ n in
      let median :=
        if (n mod 2 =? 0)%Z
        then (nthF sorted (n / 2 - 1) + nthF sorted (n / 2)) / 2
        else nthF sorted (n / 2) in
      let variance :=
        fold_left (fun acc val => acc + Js.sq (val - mean)) values 0
        / Js.ofZ n in
      Some (mkStats (nthF sorted 0) (nthF sorted (n - 1)) mean median
                    (sqrt variance))
  end.

End Statistics.

(* ===================================================================== *)
(** ** Spatial hashing                                                    *)
(* ===================================================================== *)

(** A cell key [`${cx},${cy},${cz}`]: two keys are the same string exactly
    when the three floored numbers agree. *)
Definition CellKey : Type := (Js.int * Js.int * Js.int)%type.

Definition cell_eqb (a b : CellKey) : bool :=
  let '(ax, ay, az) := a in
  let '(bx, by_, bz) := b in
  Js.int_eqb ax bx && Js.int_eqb ay by_ && Js.int_eqb az bz.

(** [Math.floor(x / cellSize)] on each coordinate. *)
Definition cellOf (cellSize : float) (p : float * float * float) : CellKey :=
  let '(x, y, z) := p in
  (Js.floor (x / cellSize), Js.floor (y / cellSize), Js.floor (z / cellSize)).

(** The values of [c] in [for (c = lo; c <= hi; c++)] when the counter
    stays where a double counts exactly ([Js.int_fits] of both bounds): the
    integers from [lo] to [hi].  With a NaN bound the body never runs.
    Beyond 2^53, or with an infinite bound, [c++] stops changing [c] and
    the engine's loop does not end; no list describes that run, and the
    statements below are restricted to bounds that fit. *)
Definition cellRange (lo hi : Js.int) : list Js.int :=
  match lo, hi with
  | Js.IInt a, Js.IInt b => map Js.IInt (iota a (Z.to_nat (b - a + 1)))
  | _, _ => []
  end.

(** The keys visited by the three nested loops over a box of cells. *)
Definition cellsBetween (lo hi : CellKey) : list CellKey :=
  let '(minCX, minCY, minCZ) := lo in
  let '(maxCX, maxCY, maxCZ) := hi in
  flat_map (fun cx =>
    flat_map (fun cy =>
      map (fun cz => (cx, cy, cz)) (cellRange minCZ maxCZ))
      (cellRange minCY maxCY))
    (cellRange minCX maxCX).

(** The 27 keys [`${cx + dx},${cy + dy},${cz + dz}`], [dx] outermost. *)
Definition neighborCells (c : CellKey) : list CellKey :=
  let '(cx, cy, cz) := c in
  flat_map (fun dx =>
    flat_map (fun dy =>
      map (fun dz => (Js.int_add cx dx, Js.int_add cy dy, Js.int_add cz dz))
          [-1; 0; 1])
      [-1; 0; 1])
    [-1; 0; 1].

(* ===================================================================== *)
(** ** Duplicate vertices                                                 *)
(* ===================================================================== *)

Section Duplicates.

Local Open Scope float_scope.

Definition distSq3 (p q : float * float * float) : float :=
  let '(x, y, z) := p in
  let '(jx, jy, jz) := q in
  Js.sq (x - jx) + Js.sq (y - jy) + Js.sq (z - jz).

Definition duplicateStep (positions : list float)
    (acc : list (CellKey * list Z) * Z) (entry : Z * (float * float * float))
    : list (CellKey * list Z) * Z :=
  let tolerance := 1e-6 in
  let cellSize := tolerance * 10 in
  let '(grid, duplicateCount) := acc in
  let '(i, p) := entry in
  let key := cellOf cellSize p in
  match mget cell_eqb key grid with
  | Some cell =>
      let isDuplicate :=
        existsb (fun j => distSq3 p (vertexAt positions j) <? tolerance * tolerance)
                cell in
      (mset cell_eqb key (cell ++ [i]) grid,
       if isDuplicate then (duplicateCount + 1)%Z else duplicateCount)
  | None => (mset cell_eqb key [i] grid, duplicateCount)
  end.

Definition detectDuplicateVertices (positions : list float) : Z :=
  snd (fold_left (duplicateStep positions) (indexed (vertices positions))
                 ([], 0%Z)).

End Duplicates.

(* ===================================================================== *)
(** ** Triangle quality                                                   *)
(* ===================================================================== *)

Section Quality.

Local Open Scope float_scope.

Definition computeAspectRatio (v0 v1 v2 : float * float * float) : float :=
  let e0 := dist3 v0 v1 in
  let e1 := dist3 v1 v2 in
  let e2 := dist3 v2 v0 in
  let maxEdge := Js.max3 e0 e1 e2 in
  let s := (e0 + e1 + e2) / 2 in
  let areaSq := s * (s - e0) * (s - e1) * (s - e2) in
  if areaSq <=? 0 then infinity
  else
    let area := sqrt areaSq in
    let shortestAltitude := 2 * area / maxEdge in
    if shortestAltitude <? 1e-10 then infinity
    else maxEdge / shortestAltitude.

Definition triangleArea (positions : list float) (tri : Z * Z * Z) : float :=
  let '(i0, i1, i2) := tri in
  0.5 * sqrt (normSq (crossAt (vertexAt positions i0) (vertexAt positions i1)
                              (vertexAt positions i2))).

Record QualityAcc : Type := mkQualityAcc {
  edgeLengths : list float;
  aspectRatios : list float;
  needleTriangles : Z;
  triangleAreas : list float
}.

Definition qualityStep (positions : list float) (acc : QualityAcc)
    (tri : Z * Z * Z) : QualityAcc :=
  let '(i0, i1, i2) := tri in
  let v0 := vertexAt positions i0 in
  let v1 := vertexAt positions i1 in
  let v2 := vertexAt positions i2 in
  let e0 := dist3 v0 v1 in
  let e1 := dist3 v1 v2 in
  let e2 := dist3 v2 v0 in
  let area := triangleArea positions tri in
  let ar := computeAspectRatio v0 v1 v2 in
  mkQualityAcc
    (edgeLengths acc ++ [e0; e1; e2])
    (if Js.isFinite ar then aspectRatios acc ++ [ar] else aspectRatios acc)
    (if Js.isFinite ar && Js.gt ar 10 then (needleTriangles acc + 1)%Z
     else needleTriangles acc)
    (triangleAreas acc ++ [area]).

Definition qualityPass (positions : list float) (indices : list Z) : QualityAcc :=
  fold_left (qualityStep positions) (triangles indices)
            (mkQualityAcc [] [] 0%Z []).

(** [sortedAreas[Math.floor(sortedAreas.length / 2)]], or 0 when there is
    no triangle. *)
Definition medianArea (areas : list float) : float :=
  let sortedAreas := sortNumbers areas in
  match sortedAreas with
  | [] => 0
  | _ => nthF sortedAreas (lengthZ sortedAreas / 2)
  end.

Definition isTiny (tinyThreshold area : float) : bool :=
  (area <? tinyThreshold) && Js.gt area 0.

Definition countTinyTriangles (areas : list float) : Z :=
  let tinyThreshold := medianArea areas * 0.01 in
  fold_left (fun n area => if isTiny tinyThreshold area then (n + 1)%Z else n)
            areas 0%Z.

End Quality.

(* ===================================================================== *)
(** ** Valence distribution and bounding box                              *)
(* ===================================================================== *)

(** [valences[v] = (valences[v] ?? 0) + 1] under the guard
    [v < vertexCount].  The index array has fewer than 2^32 entries, so the
    Uint32 counters never wrap. *)
Definition valenceStep (vertexCount : Z) (valences : list Z) (v : Z) : list Z :=
  if v <? vertexCount
  then updateZ valences v
         (match lookupZ valences v with Some c => c | None => 0 end + 1)
  else valences.

Definition valences (indices : list Z) (vertexCount : Z) : list Z :=
  fold_left (valenceStep vertexCount) indices
            (repeat 0 (Z.to_nat vertexCount)).

(** [distribution[val] = (distribution[val] ?? 0) + 1]; the keys of the
    object are integers and enumerate in ascending order. *)
Fixpoint histIncr (val : Z) (dist : list (Z * Z)) : list (Z * Z) :=
  match dist with
  | [] => [(val, 1)]
  | (k, c) :: rest =>
      if val <? k then (val, 1) :: (k, c) :: rest
      else if val =? k then (k, c + 1) :: rest
      else (k, c) :: histIncr val rest
  end.

Definition computeValenceDistribution (indices : list Z) (vertexCount : Z)
    : list (Z * Z) :=
  fold_left (fun dist val => if 0 <? val then histIncr val dist else dist)
            (valences indices vertexCount) [].

Section Bounds.

Local Open Scope float_scope.

Definition boundsStep (acc : Vec3 * Vec3) (p : float * float * float)
    : Vec3 * Vec3 :=
  let '(lo, hi) := acc in
  let '(x, y, z) := p in
  (mkVec3 (if x <? vx lo then x else vx lo)
          (if y <? vy lo then y else vy lo)
          (if z <? vz lo then z else vz lo),
   mkVec3 (if Js.gt x (vx hi) then x else vx hi)
          (if Js.gt y (vy hi) then y else vy hi)
          (if Js.gt z (vz hi) then z else vz hi)).

Definition boxOf (positions : list float) : BoundingBox :=
  let '(lo, hi) :=
    fold_left boundsStep (vertices positions)
              (mkVec3 infinity infinity infinity,
               mkVec3 neg_infinity neg_infinity neg_infinity) in
  let sizeX := vx hi - vx lo in
  let sizeY := vy hi - vy lo in
  let sizeZ := vz hi - vz lo in
  mkBoundingBox lo hi (mkVec3 sizeX sizeY sizeZ)
                (sqrt (sizeX * sizeX + sizeY * sizeY + sizeZ * sizeZ)).

Definition computeBoundingBox (positions : list float) : BoundingBox :=
  match vertices positions with
  | [] => mkBoundingBox (mkVec3 0 0 0) (mkVec3 0 0 0) (mkVec3 0 0 0) 0
  | _ => boxOf positions
  end.

(** [Math.max(boundingBox?.diagonal ?? 1, 1e-6)] *)
Definition safeDiagonal (boundingBox : option BoundingBox) : float :=
  Js.max2 (match boundingBox with Some b => diagonal b | None => 1 end) 1e-6.

End Bounds.

(* ===================================================================== *)
(** ** Dihedral angles                                                    *)
(* ===================================================================== *)

Section Dihedral.

Local Open Scope float_scope.

(** The host's [Math.acos]. *)
Variable Math_acos : float -> float.

Definition computeFaceNormal (positions : list float) (tri : Z * Z * Z)
    : float * float * float :=
  let '(i0, i1, i2) := tri in
  crossAt (vertexAt positions i0) (vertexAt positions i1) (vertexAt positions i2).

Definition normalAt (faceNormals : list (float * float * float)) (t : Z)
    : float * float * float :=
  match lookupZ faceNormals t with
  | Some n => n
  | None => (nan, nan, nan)
  end.

(** The dihedral angle across an edge with faces [t1], [t2]; [None] when
    a normal is shorter than [1e-10]. *)
Definition dihedralAngle (faceNormals : list (float * float * float))
    (t1 t2 : Z) : option float :=
  let n1 := normalAt faceNormals t1 in
  let n2 := normalAt faceNormals t2 in
  let len1 := sqrt (normSq n1) in
  let len2 := sqrt (normSq n2) in
  if (len1 <? 1e-10) || (len2 <? 1e-10) then None
  else
    let '(n1x, n1y, n1z) := n1 in
    let '(n2x, n2y, n2z) := n2 in
    let nx1 := n1x / len1 in
    let ny1 := n1y / len1 in
    let nz1 := n1z / len1 in
    let nx2 := n2x / len2 in
    let ny2 := n2y / len2 in
    let nz2 := n2z / len2 in
    let dot := nx1 * nx2 + ny1 * ny2 + nz1 * nz2 in
    let clampedDot := Js.max2 (-1) (Js.min2 1 dot) in
    let angleBetweenNormals := Math_acos clampedDot * (180 / Js.PI) in
    Some (180 - angleBetweenNormals).

Record DihedralResult : Type := mkDihedralResult {
  dr_sharpEdgeCount : Z;
  dr_coplanarEdgeCount : Z;
  dr_dihedralAngleStats : option DistributionStats
}.

Definition dihedralStep (faceNormals : list (float * float * float))
    (acc : list float * Z * Z) (entry : Z * list Z) : list float * Z * Z :=
  let '(angles, sharp, coplanar) := acc in
  match snd entry with
  | [t1; t2] =>
      match dihedralAngle faceNormals t1 t2 with
      | None => acc
      | Some angle =>
          (angles ++ [angle],
           if angle <? 30 then (sharp + 1)%Z else sharp,
           if Js.gt angle 170 then (coplanar + 1)%Z else coplanar)
      end
  | _ => acc
  end.

Definition computeDihedralAngles (positions : list float) (indices : list Z)
    (edgeFaceMap : list (Z * list Z)) : DihedralResult :=
  let faceNormals := map (computeFaceNormal positions) (triangles indices) in
  let '(angles, sharp, coplanar) :=
    fold_left (dihedralStep faceNormals) edgeFaceMap ([], 0%Z, 0%Z) in
  mkDihedralResult sharp coplanar (computeStats angles).

End Dihedral.

(* ===================================================================== *)
(** ** Triangle-triangle intersection                                     *)
(* ===================================================================== *)

Section Intersection.

Local Open Scope float_scope.

Definition P3 : Type := (float * float * float)%type.
Definition P2 : Type := (float * float)%type.

Definition segmentsIntersect2D (a1 b1 a2 b2 : P2) : bool :=
  let '(ax1, ay1) := a1 in
  let '(bx1, by1) := b1 in
  let '(ax2, ay2) := a2 in
  let '(bx2, by2) := b2 in
  let d1x := bx1 - ax1 in
  let d1y := by1 - ay1 in
  let d2x := bx2 - ax2 in
  let d2y := by2 - ay2 in
  let cross := d1x * d2y - d1y * d2x in
  if abs cross <? 1e-10 then false
  else
    let dx := ax2 - ax1 in
    let dy := ay2 - ay1 in
    let t1 := (dx * d2y - dy * d2x) / cross in
    let t2 := (dx * d1y - dy * d1x) / cross in
    Js.gt t1 1e-8 && (t1 <? 1 - 1e-8) && Js.gt t2 1e-8 && (t2 <? 1 - 1e-8).

Definition pointInTriangle2D (p a b c : P2) : bool :=
  let '(px, py) := p in
  let '(ax, ay) := a in
  let '(bx, by_) := b in
  let '(cx, cy) := c in
  let v0x := cx - ax in
  let v0y := cy - ay in
  let v1x := bx - ax in
  let v1y := by_ - ay in
  let v2x := px - ax in
  let v2y := py - ay in
  let dot00 := v0x * v0x + v0y * v0y in
  let dot01 := v0x * v1x + v0y * v1y in
  let dot02 := v0x * v2x + v0y * v2y in
  let dot11 := v1x * v1x + v1y * v1y in
  let dot12 := v1x * v2x + v1y * v2y in
  let denom := dot00 * dot11 - dot01 * dot01 in
  if abs denom <? 1e-10 then false
  else
    let inv := 1 / denom in
    let u := (dot11 * dot02 - dot01 * dot12) * inv in
    let v := (dot00 * dot12 - dot01 * dot02) * inv in
    Js.ge u 0 && Js.ge v 0 && (u + v <? 1).

Definition coplanarTrianglesOverlap (a1 b1 c1 a2 b2 c2 : P3)
    (n : P3) : bool :=
  let '(nx, ny, nz) := n in
  let absX := abs nx in
  let absY := abs ny in
  let absZ := abs nz in
  let proj : P3 -> P2 :=
    if Js.ge absZ absX && Js.ge absZ absY then (fun '(x, y, z) => (x, y))
    else if Js.ge absY absX then (fun '(x, y, z) => (x, z))
    else (fun '(x, y, z) => (y, z)) in
  let t1 := [proj a1; proj b1; proj c1] in
  let t2 := [proj a2; proj b2; proj c2] in
  let edgesOf (t : list P2) : list (P2 * P2) :=
    match t with
    | [p; q; r] => [(p, q); (q, r); (r, p)]
    | _ => []
    end in
  if existsb (fun e1 =>
       existsb (fun e2 => segmentsIntersect2D (fst e1) (snd e1) (fst e2) (snd e2))
               (edgesOf t2))
       (edgesOf t1)
  then true
  else if pointInTriangle2D (proj a1) (proj a2) (proj b2) (proj c2) then true
  else if pointInTriangle2D (proj a2) (proj a1) (proj b1) (proj c1) then true
  else false.

(** The interval of the triangle on the intersection line; [None] when
    fewer than two points were collected. *)
Definition computeTriangleInterval (pa pb pc da db dc : float)
    : option (float * float) :=
  let points : list float := [] in
  let points :=
    if xorb (Js.gt da 0) (Js.gt db 0) && Js.gt (abs (da - db)) 1e-10
    then points ++ [pa + da / (da - db) * (pb - pa)] else points in
  let points :=
    if xorb (Js.gt db 0) (Js.gt dc 0) && Js.gt (abs (db - dc)) 1e-10
    then points ++ [pb + db / (db - dc) * (pc - pb)] else points in
  let points :=
    if xorb (Js.gt dc 0) (Js.gt da 0) && Js.gt (abs (dc - da)) 1e-10
    then points ++ [pc + dc / (dc - da) * (pa - pc)] else points in
  let points := if abs da <? 1e-8 then points ++ [pa] else points in
  let points := if abs db <? 1e-8 then points ++ [pb] else points in
  let points := if abs dc <? 1e-8 then points ++ [pc] else points in
  if (lengthZ points <? 2)%Z then None
  else Some (Js.minList points, Js.maxList points).

Definition planeNormal (a b c : P3) : P3 :=
  let '(ax, ay, az) := a in
  let '(bx, by_, bz) := b in
  let '(cx, cy, cz) := c in
  ((by_ - ay) * (cz - az) - (bz - az) * (cy - ay),
   (bz - az) * (cx - ax) - (bx - ax) * (cz - az),
   (bx - ax) * (cy - ay) - (by_ - ay) * (cx - ax)).

Definition dot3 (n p : P3) : float :=
  let '(nx, ny, nz) := n in
  let '(px, py, pz) := p in
  nx * px + ny * py + nz * pz.

(** All three signed distances beyond the tolerance on one side. *)
Definition sameSide (da db dc : float) : bool :=
  (Js.gt da 1e-8 && Js.gt db 1e-8 && Js.gt dc 1e-8)
  || ((da <? -1e-8) && (db <? -1e-8) && (dc <? -1e-8)).

Definition trianglesIntersect (a1 b1 c1 a2 b2 c2 : P3) : bool :=
  let n1 := planeNormal a1 b1 c1 in
  let n2 := planeNormal a2 b2 c2 in
  let d1 := dot3 n1 a1 in
  let dist2a := dot3 n1 a2 - d1 in
  let dist2b := dot3 n1 b2 - d1 in
  let dist2c := dot3 n1 c2 - d1 in
  if sameSide dist2a dist2b dist2c then false
  else
    let d2 := dot3 n2 a2 in
    let dist1a := dot3 n2 a1 - d2 in
    let dist1b := dot3 n2 b1 - d2 in
    let dist1c := dot3 n2 c1 - d2 in
    if sameSide dist1a dist1b dist1c then false
    else
      let '(normalX1, normalY1, normalZ1) := n1 in
      let '(normalX2, normalY2, normalZ2) := n2 in
      let dirX := normalY1 * normalZ2 - normalZ1 * normalY2 in
      let dirY := normalZ1 * normalX2 - normalX1 * normalZ2 in
      let dirZ := normalX1 * normalY2 - normalY1 * normalX2 in
      let dirLen := sqrt (dirX * dirX + dirY * dirY + dirZ * dirZ) in
      if dirLen <? 1e-10 then coplanarTrianglesOverlap a1 b1 c1 a2 b2 c2 n1
      else
        let absX := abs dirX in
        let absY := abs dirY in
        let absZ := abs dirZ in
        let axis : P3 -> float :=
          if Js.ge absX absY && Js.ge absX absZ then (fun '(x, y, z) => x)
          else if Js.ge absY absZ then (fun '(x, y, z) => y)
          else (fun '(x, y, z) => z) in
        match computeTriangleInterval (axis a1) (axis b1) (axis c1)
                                      dist1a dist1b dist1c,
              computeTriangleInterval (axis a2) (axis b2) (axis c2)
                                      dist2a dist2b dist2c with
        | Some (min1, max1), Some (min2, max2) =>
            Js.ge max1 (min2 - 1e-8) && Js.ge max2 (min1 - 1e-8)
        | _, _ => false
        end.

(** The overlay's test: only the two plane checks. *)
Definition trianglesIntersectSimple (positions : list float) (indices : list Z)
    (t1 t2 : Z) : bool :=
  let '(ia, ib, ic) := triangleAt indices t1 in
  let '(ja, jb, jc) := triangleAt indices t2 in
  let a1 := vertexAt positions ia in
  let b1 := vertexAt positions ib in
  let c1 := vertexAt positions ic in
  let a2 := vertexAt positions ja in
  let b2 := vertexAt positions jb in
  let c2 := vertexAt positions jc in
  let n1 := planeNormal a1 b1 c1 in
  let d1 := dot3 n1 a1 in
  let dist2a := dot3 n1 a2 - d1 in
  let dist2b := dot3 n1 b2 - d1 in
  let dist2c := dot3 n1 c2 - d1 in
  if sameSide dist2a dist2b dist2c then false
  else
    let n2 := planeNormal a2 b2 c2 in
    let d2 := dot3 n2 a2 in
    let dist1a := dot3 n2 a1 - d2 in
    let dist1b := dot3 n2 b1 - d2 in
    let dist1c := dot3 n2 c1 - d2 in
    if sameSide dist1a dist1b dist1c then false
    else true.

Definition trianglesAdjacent (ta tb : Z * Z * Z) : bool :=
  let '(i0a, i1a, i2a) := ta in
  let '(i0b, i1b, i2b) := tb in
  let inA := fun i => (i =? i0a)%Z || (i =? i1a)%Z || (i =? i2a)%Z in
  let shared := ((if inA i0b then 1 else 0) + (if inA i1b then 1 else 0)
                 + (if inA i2b then 1 else 0))%Z in
  (2 <=? shared)%Z.

End Intersection.

(* ===================================================================== *)
(** ** Self-intersections                                                 *)
(* ===================================================================== *)

Section SelfIntersections.

Local Open Scope float_scope.

Record TriBounds : Type := mkTriBounds { lo : P3; hi : P3 }.

Definition triBoundsOf (positions : list float) (tri : Z * Z * Z) : TriBounds :=
  let '(i0, i1, i2) := tri in
  let '(x0, y0, z0) := vertexAt positions i0 in
  let '(x1, y1, z1) := vertexAt positions i1 in
  let '(x2, y2, z2) := vertexAt positions i2 in
  mkTriBounds (Js.min3 x0 x1 x2, Js.min3 y0 y1 y2, Js.min3 z0 z1 z2)
              (Js.max3 x0 x1 x2, Js.max3 y0 y1 y2, Js.max3 z0 z1 z2).

Definition boundsCells (cellSize : float) (b : TriBounds) : list CellKey :=
  cellsBetween (cellOf cellSize (lo b)) (cellOf cellSize (hi b)).

(** [SpatialHashGrid.insert] *)
Definition gridInsert (cellSize : float) (grid : list (CellKey * list Z))
    (entry : Z * TriBounds) : list (CellKey * list Z) :=
  fold_left (fun g key => mappend cell_eqb key (fst entry) (mensure cell_eqb key g))
            (boundsCells cellSize (snd entry)) grid.

(** [SpatialHashGrid.query] *)
Definition gridQuery (cellSize : float) (grid : list (CellKey * list Z))
    (b : TriBounds) : list Z :=
  fold_left (fun result key =>
               match mget cell_eqb key grid with
               | Some tris => fold_left (fun r t => sadd Z.eqb t r) tris result
               | None => result
               end)
            (boundsCells cellSize b) [].

Definition intersectsAt (positions : list float) (indices : list Z)
    (t1 t2 : Z) : bool :=
  let '(i0a, i1a, i2a) := triangleAt indices t1 in
  let '(i0b, i1b, i2b) := triangleAt indices t2 in
  trianglesIntersect (vertexAt positions i0a) (vertexAt positions i1a)
                     (vertexAt positions i2a) (vertexAt positions i0b)
                     (vertexAt positions i1b) (vertexAt positions i2b).

(** The cell size of the diagnostic pass, from the diagonal of the
    bounding box it is given. *)
Definition intersectionCellSize (boundingBox : option BoundingBox)
    (triangleCount : Z) : float :=
  let diagonal := safeDiagonal boundingBox in
  let avgEdge := diagonal / sqrt (Js.ofZ triangleCount / 2) in
  Js.max2 (avgEdge * 2) 1e-6.

(** The pairs [(t1, t2)] the diagnostic pass counts, in the order it
    meets them. *)
Definition selfIntersectionPairs (positions : list float) (indices : list Z)
    (boundingBox : option BoundingBox) : list (Z * Z) :=
  let triangleCount := (lengthZ indices / 3)%Z in
  let cellSize := intersectionCellSize boundingBox triangleCount in
  let triBounds := indexed (map (triBoundsOf positions) (triangles indices)) in
  let grid := fold_left (gridInsert cellSize) triBounds [] in
  flat_map
    (fun entry : Z * TriBounds =>
       let t1 := fst entry in
       let candidates := gridQuery cellSize grid (snd entry) in
       flat_map
         (fun t2 =>
            if (t2 <=? t1)%Z then []
            else if trianglesAdjacent (triangleAt indices t1) (triangleAt indices t2)
            then []
            else if intersectsAt positions indices t1 t2 then [(t1, t2)]
            else [])
         candidates)
    triBounds.

Definition detectSelfIntersections (positions : list float) (indices : list Z)
    (boundingBox : option BoundingBox) : Z :=
  lengthZ (selfIntersectionPairs positions indices boundingBox).

(** [estimateCellSize] of the overlay module. *)
Definition estimateCellSize (positions : list float) (triangleCount : Z) : float :=
  match vertices positions with
  | [] => 1
  | _ =>
      let avgEdge := diagonal (boxOf positions) / sqrt (Js.ofZ triangleCount / 2) in
      Js.max2 (avgEdge * 2) 1e-6
  end.

Definition pair_eqb (a b : Z * Z) : bool :=
  ((fst a =? fst b) && (snd a =? snd b))%Z.

(** The body of the loop over the candidates of one cell: [acc] holds the
    set [checked] and the array [pairs]. *)
Definition candidateStep (positions : list float) (indices : list Z) (t1 : Z)
    (acc : list (Z * Z) * list (Z * Z)) (t2 : Z) : list (Z * Z) * list (Z * Z) :=
  let '(checked, pairs) := acc in
  if (t2 <=? t1)%Z then acc
  else if shas pair_eqb (t1, t2) checked then acc
  else
    let checked := sadd pair_eqb (t1, t2) checked in
    if trianglesAdjacent (triangleAt indices t1) (triangleAt indices t2)
    then (checked, pairs)
    else if trianglesIntersectSimple positions indices t1 t2
    then (checked, pairs ++ [(t1, t2)])
    else (checked, pairs).

(** The body of the loops over the cells of one triangle's bounds. *)
Definition cellStep (positions : list float) (indices : list Z)
    (grid : list (CellKey * list Z)) (t1 : Z)
    (acc : list (Z * Z) * list (Z * Z)) (key : CellKey)
    : list (Z * Z) * list (Z * Z) :=
  match mget cell_eqb key grid with
  | None => acc
  | Some candidates => fold_left (candidateStep positions indices t1) candidates acc
  end.

(** The body of the loop over the triangles. *)
Definition triangleStep (positions : list float) (indices : list Z)
    (cellSize : float) (grid : list (CellKey * list Z))
    (acc : list (Z * Z) * list (Z * Z)) (entry : Z * TriBounds)
    : list (Z * Z) * list (Z * Z) :=
  fold_left (cellStep positions indices grid (fst entry))
            (boundsCells cellSize (snd entry)) acc.

(** [findIntersectingTrianglePairs] of the overlay module. *)
Definition findIntersectingTrianglePairs (positions : list float)
    (indices : list Z) : list (Z * Z) :=
  let triangleCount := (lengthZ indices / 3)%Z in
  let cellSize := estimateCellSize positions triangleCount in
  let triBounds := indexed (map (triBoundsOf positions) (triangles indices)) in
  let grid := fold_left (gridInsert cellSize) triBounds [] in
  snd (fold_left (triangleStep positions indices cellSize grid) triBounds ([], [])).

End SelfIntersections.

(* ===================================================================== *)
(** ** T-junctions                                                        *)
(* ===================================================================== *)

Section TJunctions.

Local Open Scope float_scope.

Record TEdge : Type := mkTEdge {
  te_v0 : Z;
  te_v1 : Z;
  te_p0 : P3;
  te_p1 : P3
}.

(** [vertexTriangles]: for every vertex the Set of its triangles. *)
Definition vertexTriangleSets (indices : list Z) : list (Z * list Z) :=
  fold_left
    (fun m (entry : Z * (Z * Z * Z)) =>
       let '(t, (i0, i1, i2)) := entry in
       let m := mensure Z.eqb i0 m in
       let m := mensure Z.eqb i1 m in
       let m := mensure Z.eqb i2 m in
       let m := minsert Z.eqb Z.eqb i0 t m in
       let m := minsert Z.eqb Z.eqb i1 t m in
       minsert Z.eqb Z.eqb i2 t m)
    (indexed (triangles indices)) [].

(** [va < vb ? va * vertexCount + vb : vb * vertexCount + va], a product
    and a sum of doubles (it can exceed 2^53). *)
Definition tEdgeKey (vertexCount va vb : Z) : Z :=
  Js.toZ (if (va <? vb)%Z
          then Js.ofZ va * Js.ofZ vertexCount + Js.ofZ vb
          else Js.ofZ vb * Js.ofZ vertexCount + Js.ofZ va).

Definition trianglePairs (tri : Z * Z * Z) : list (Z * Z) :=
  let '(i0, i1, i2) := tri in [(i0, i1); (i1, i2); (i2, i0)].

(** Whether some triangle around the vertex contains both ends of the
    edge. *)
Definition isConnected (indices : list Z) (adjacentTris : option (list Z))
    (edge : TEdge) : bool :=
  match adjacentTris with
  | None => false
  | Some tris =>
      existsb (fun triIdx =>
                 let '(ti0, ti1, ti2) := triangleAt indices triIdx in
                 let has := fun i => ((i =? ti0) || (i =? ti1) || (i =? ti2))%Z in
                 has (te_v0 edge) && has (te_v1 edge))
              tris
  end.

(** The body of the loop over candidate edges: [true] when vertex [v] is
    found on the inside of [edge] without being connected to it. *)
Definition tJunctionHit (indices : list Z) (toleranceSq : float) (v : Z)
    (p : P3) (adjacentTris : option (list Z)) (edge : TEdge) : bool :=
  if ((te_v0 edge =? v) || (te_v1 edge =? v))%Z then false
  else
    let '(vx_, vy_, vz_) := p in
    let '(x0, y0, z0) := te_p0 edge in
    let '(x1, y1, z1) := te_p1 edge in
    let ex := x1 - x0 in
    let ey := y1 - y0 in
    let ez := z1 - z0 in
    let edgeLenSq := ex * ex + ey * ey + ez * ez in
    if edgeLenSq <? 1e-20 then false
    else
      let pvx := vx_ - x0 in
      let pvy := vy_ - y0 in
      let pvz := vz_ - z0 in
      let t := (pvx * ex + pvy * ey + pvz * ez) / edgeLenSq in
      if (t <=? 0.01) || Js.ge t 0.99 then false
      else
        let closestX := x0 + t * ex in
        let closestY := y0 + t * ey in
        let closestZ := z0 + t * ez in
        let dx := vx_ - closestX in
        let dy := vy_ - closestY in
        let dz := vz_ - closestZ in
        let distSq := dx * dx + dy * dy + dz * dz in
        if distSq <? toleranceSq then negb (isConnected indices adjacentTris edge)
        else false.

Definition edgeAt (edges : list TEdge) (edgeIdx : Z) : TEdge :=
  match lookupZ edges edgeIdx with
  | Some e => e
  | None => mkTEdge 0 0 (nan, nan, nan) (nan, nan, nan)
  end.

Record EdgeIndex : Type := mkEdgeIndex {
  edgeSet : list Z;
  edges : list TEdge;
  edgeGrid : list (CellKey * list Z)
}.

Definition midpoint (p q : P3) : P3 :=
  let '(x0, y0, z0) := p in
  let '(x1, y1, z1) := q in
  ((x0 + x1) / 2, (y0 + y1) / 2, (z0 + z1) / 2).

(** Registers the edge [va-vb] unless its key was seen; [cellSize = None]
    is the overlay's version, which keeps no grid. *)
Definition addEdge (positions : list float) (vertexCount : Z)
    (cellSize : option float) (ix : EdgeIndex) (pair : Z * Z) : EdgeIndex :=
  let '(va, vb) := pair in
  let edgeKey := tEdgeKey vertexCount va vb in
  if shas Z.eqb edgeKey (edgeSet ix) then ix
  else
    let edgeIdx := lengthZ (edges ix) in
    let p0 := vertexAt positions va in
    let p1 := vertexAt positions vb in
    let grid :=
      match cellSize with
      | None => edgeGrid ix
      | Some size =>
          fold_left (fun g point =>
                       let cellKey := cellOf size point in
                       minsert cell_eqb Z.eqb cellKey edgeIdx
                               (mensure cell_eqb cellKey g))
                    [p0; p1; midpoint p0 p1] (edgeGrid ix)
      end in
    mkEdgeIndex (sadd Z.eqb edgeKey (edgeSet ix))
                (edges ix ++ [mkTEdge va vb p0 p1]) grid.

Definition buildEdgeIndex (positions : list float) (indices : list Z)
    (cellSize : option float) : EdgeIndex :=
  let vertexCount := (lengthZ positions / 3)%Z in
  fold_left (fun ix tri =>
               fold_left (addEdge positions vertexCount cellSize)
                         (trianglePairs tri) ix)
            (triangles indices) (mkEdgeIndex [] [] []).

(** The vertices the diagnostic pass counts. *)
Definition tJunctionsDetected (positions : list float) (indices : list Z)
    (boundingBox : option BoundingBox) : list Z :=
  let diagonal := safeDiagonal boundingBox in
  let tolerance := diagonal * 1e-4 in
  let toleranceSq := tolerance * tolerance in
  let vertexTriangles := vertexTriangleSets indices in
  let cellSize := Js.max2 (tolerance * 10) 1e-6 in
  let ix := buildEdgeIndex positions indices (Some cellSize) in
  flat_map
    (fun entry : Z * P3 =>
       let '(v, p) := entry in
       let adjacentTris := mget Z.eqb v vertexTriangles in
       let nearbyEdges :=
         fold_left (fun near key =>
                      match mget cell_eqb key (edgeGrid ix) with
                      | Some cell => fold_left (fun s e => sadd Z.eqb e s) cell near
                      | None => near
                      end)
                   (neighborCells (cellOf cellSize p)) [] in
       if existsb (fun edgeIdx =>
                     tJunctionHit indices toleranceSq v p adjacentTris
                                  (edgeAt (edges ix) edgeIdx))
                  nearbyEdges
       then [v] else [])
    (indexed (vertices positions)).

Definition detectTJunctions (positions : list float) (indices : list Z)
    (boundingBox : option BoundingBox) : Z :=
  lengthZ (tJunctionsDetected positions indices boundingBox).

(** [findTJunctionVertices] of the overlay module: every edge is a
    candidate, and the diagonal is read from the diagnostics as is. *)
Definition findTJunctionVertices (positions : list float) (indices : list Z)
    (boundingBox : option BoundingBox) : list Z :=
  let diagonal := match boundingBox with Some b => diagonal b | None => 1 end in
  let tolerance := diagonal * 1e-4 in
  let toleranceSq := tolerance * tolerance in
  let vertexTriangles := vertexTriangleSets indices in
  let ix := buildEdgeIndex positions indices None in
  flat_map
    (fun entry : Z * P3 =>
       let '(v, p) := entry in
       let adjacentTris := mget Z.eqb v vertexTriangles in
       if existsb (tJunctionHit indices toleranceSq v p adjacentTris) (edges ix)
       then [v] else [])
    (indexed (vertices positions)).

End TJunctions.

(* ===================================================================== *)
(** ** Thin walls and coincident faces                                    *)
(* ===================================================================== *)

Section Proximity.

Local Open Scope float_scope.

Definition distSqMul (p q : P3) : float :=
  let '(px, py, pz) := p in
  let '(qx, qy, qz) := q in
  let dx := px - qx in
  let dy := py - qy in
  let dz := pz - qz in
  dx * dx + dy * dy + dz * dz.

(** [detectThinWalls] with the default [thresholdFraction = 0.005]; the
    result is the count, the reported threshold is the fraction. *)
Definition detectThinWalls (positions : list float) (indices : list Z)
    (boundingBox : option BoundingBox) : Z :=
  let thresholdFraction := 0.005 in
  let diagonal := safeDiagonal boundingBox in
  let absoluteThreshold := diagonal * thresholdFraction in
  let thresholdSq := absoluteThreshold * absoluteThreshold in
  let cellSize := Js.max2 (absoluteThreshold * 3) 1e-6 in
  let verts := indexed (vertices positions) in
  let vertexGrid :=
    fold_left (fun g (entry : Z * P3) =>
                 let key := cellOf cellSize (snd entry) in
                 mappend cell_eqb key (fst entry) (mensure cell_eqb key g))
              verts [] in
  let vertexTriangles := vertexTriangleSets indices in
  fold_left
    (fun n (entry : Z * P3) =>
       let '(v, p) := entry in
       let adjTris := match mget Z.eqb v vertexTriangles with
                      | Some s => s | None => [] end in
       let neighborVerts :=
         fold_left (fun s t =>
                      let '(i0, i1, i2) := triangleAt indices t in
                      sadd Z.eqb i2 (sadd Z.eqb i1 (sadd Z.eqb i0 s)))
                   adjTris [] in
       let foundThinWall :=
         existsb (fun key =>
                    match mget cell_eqb key vertexGrid with
                    | None => false
                    | Some nearby =>
                        existsb (fun v2 =>
                                   if (v2 =? v)%Z || shas Z.eqb v2 neighborVerts then false
                                   else
                                     let distSq := distSqMul p (vertexAt positions v2) in
                                     (distSq <? thresholdSq) && Js.gt distSq 1e-20)
                                nearby
                    end)
                 (neighborCells (cellOf cellSize p)) in
       if foundThinWall then (n + 1)%Z else n)
    verts 0%Z.

Record TriData : Type := mkTriData {
  td_c : P3;
  td_n : P3;
  td_i : Z * Z * Z
}.

Definition triDataOf (positions : list float) (tri : Z * Z * Z) : TriData :=
  let '(i0, i1, i2) := tri in
  let '(x0, y0, z0) := vertexAt positions i0 in
  let '(x1, y1, z1) := vertexAt positions i1 in
  let '(x2, y2, z2) := vertexAt positions i2 in
  mkTriData ((x0 + x1 + x2) / 3, (y0 + y1 + y2) / 3, (z0 + z1 + z2) / 3)
            (crossAt (x0, y0, z0) (x1, y1, z1) (x2, y2, z2))
            tri.

Definition sharesVertex (a b : Z * Z * Z) : bool :=
  let '(a0, a1, a2) := a in
  let '(b0, b1, b2) := b in
  ((a0 =? b0) || (a0 =? b1) || (a0 =? b2) || (a1 =? b0) || (a1 =? b1)
   || (a1 =? b2) || (a2 =? b0) || (a2 =? b1) || (a2 =? b2))%Z.

(** The test applied to a pair [t1 < t2] of triangles met in nearby
    cells. *)
Definition facesCoincide (positions : list float) (cellSize tolerance : float)
    (data1 data2 : TriData) : bool :=
  if sharesVertex (td_i data1) (td_i data2) then false
  else
    let dot := dot3 (td_n data1) (td_n data2) in
    let len1 := sqrt (normSq (td_n data1)) in
    let len2 := sqrt (normSq (td_n data2)) in
    if (len1 <? 1e-10) || (len2 <? 1e-10) then false
    else
      let normalizedDot := abs (dot / (len1 * len2)) in
      if normalizedDot <? 0.999 then false
      else
        let centroidDist := sqrt (distSqMul (td_c data1) (td_c data2)) in
        if Js.gt centroidDist cellSize then false
        else
          let '(i0, _, _) := td_i data1 in
          let d := dot3 (td_n data1) (vertexAt positions i0) in
          let planeDist := abs (dot3 (td_n data1) (td_c data2) - d) / len1 in
          planeDist <? tolerance.

Definition dataAt (triData : list TriData) (t : Z) : TriData :=
  match lookupZ triData t with
  | Some d => d
  | None => mkTriData (nan, nan, nan) (nan, nan, nan) (0, 0, 0)%Z
  end.

Definition detectCoincidentFaces (positions : list float) (indices : list Z)
    (boundingBox : option BoundingBox) : Z :=
  let triangleCount := (lengthZ indices / 3)%Z in
  let diagonal := safeDiagonal boundingBox in
  let tolerance := diagonal * 1e-5 in
  let triData := map (triDataOf positions) (triangles indices) in
  let cellSize := Js.max2 (diagonal / sqrt (Js.ofZ triangleCount / 10)) 1e-6 in
  let centroidGrid :=
    fold_left (fun g (entry : Z * TriData) =>
                 let key := cellOf cellSize (td_c (snd entry)) in
                 mappend cell_eqb key (fst entry) (mensure cell_eqb key g))
              (indexed triData) [] in
  fold_left
    (fun n (entry : Z * TriData) =>
       let '(t1, data1) := entry in
       fold_left
         (fun n key =>
            match mget cell_eqb key centroidGrid with
            | None => n
            | Some nearby =>
                fold_left
                  (fun n t2 =>
                     if (t2 <=? t1)%Z then n
                     else if facesCoincide positions cellSize tolerance data1
                                           (dataAt triData t2)
                     then (n + 1)%Z else n)
                  nearby n
            end)
         (neighborCells (cellOf cellSize (td_c data1))) n)
    (indexed triData) 0%Z.

End Proximity.

(* ===================================================================== *)
(** ** The diagnostics record                                             *)
(* ===================================================================== *)

Section Diagnostics.

Variable Math_acos : float -> float.

(** The record returned when the triangle count exceeds the cap. *)
Definition capacityLimited (positions : list float) (vertexCount triangleCount : Z)
    : MeshDiagnostics :=
  {| vertexCount := vertexCount;
     triangleCount := triangleCount;
     edgeCount := -1;
     boundaryEdgeCount := -1;
     nonManifoldEdgeCount := -1;
     nonManifoldVertexCount := -1;
     connectedComponents := -1;
     eulerCharacteristic := -1;
     degenerateTriangleCount := -1;
     windingInconsistentEdgeCount := -1;
     windingConsistencyPercent := (-1)%float;
     windingCheckSkipped := true;
     duplicateVertexCount := -1;
     tinyTriangleCount := -1;
     needleTriangleCount := -1;
     edgeLengthStats := None;
     aspectRatioStats := None;
     valenceDistribution := None;
     boundingBox := Some (computeBoundingBox positions);
     isolatedVertexCount := -1;
     sharpEdgeCount := -1;
     coplanarEdgeCount := -1;
     dihedralAngleStats := None;
     selfIntersectionCount := -1;
     tJunctionCount := -1;
     thinWallCount := -1;
     thinWallThreshold := 0.005%float;
     coincidentFaceCount := -1;
     isWatertight := false;
     isManifold := false;
     hasNonManifoldVertices := false;
     hasConsistentWinding := false |}.

(** The record built once every pass has run; [components] is the result
    of the union-find pass. *)
Definition fullDiagnostics (positions : list float) (indices : list Z)
    (components : Z) : MeshDiagnostics :=
  let vertexCount := lengthZ positions / 3 in
  let triangleCount := lengthZ indices / 3 in
  let edgeFaceMap := buildEdgeFaceMap indices in
  let edgeCount := lengthZ edgeFaceMap in
  let boundaryEdgeCount := countBoundaryEdges edgeFaceMap in
  let nonManifoldEdgeCount := countNonManifoldEdges edgeFaceMap in
  let degenerateTriangleCount := countDegenerateTriangles positions indices in
  let used := usedVertices indices vertexCount in
  let eulerCharacteristic := lengthZ used - edgeCount + triangleCount in
  let nonManifoldVertexCount := detectNonManifoldVertices indices in
  let windingResult := detectWindingConsistency indices in
  let duplicateVertexCount := detectDuplicateVertices positions in
  let quality := qualityPass positions indices in
  let tinyTriangleCount := countTinyTriangles (triangleAreas quality) in
  let boundingBox := computeBoundingBox positions in
  let dihedralResult := computeDihedralAngles Math_acos positions indices edgeFaceMap in
  {| vertexCount := vertexCount;
     triangleCount := triangleCount;
     edgeCount := edgeCount;
     boundaryEdgeCount := boundaryEdgeCount;
     nonManifoldEdgeCount := nonManifoldEdgeCount;
     nonManifoldVertexCount := nonManifoldVertexCount;
     connectedComponents := components;
     eulerCharacteristic := eulerCharacteristic;
     degenerateTriangleCount := degenerateTriangleCount;
     windingInconsistentEdgeCount := inconsistentEdgeCount windingResult;
     windingConsistencyPercent := consistencyPercent windingResult;
     windingCheckSkipped :=
       match skipped windingResult with Some b => b | None => false end;
     duplicateVertexCount := duplicateVertexCount;
     tinyTriangleCount := tinyTriangleCount;
     needleTriangleCount := needleTriangles quality;
     edgeLengthStats := computeStats (edgeLengths quality);
     aspectRatioStats := computeStats (aspectRatios quality);
     valenceDistribution := Some (computeValenceDistribution indices vertexCount);
     boundingBox := Some boundingBox;
     isolatedVertexCount := vertexCount - lengthZ used;
     sharpEdgeCount := dr_sharpEdgeCount dihedralResult;
     coplanarEdgeCount := dr_coplanarEdgeCount dihedralResult;
     dihedralAngleStats := dr_dihedralAngleStats dihedralResult;
     selfIntersectionCount :=
       detectSelfIntersections positions indices (Some boundingBox);
     tJunctionCount := detectTJunctions positions indices (Some boundingBox);
     thinWallCount := detectThinWalls positions indices (Some boundingBox);
     thinWallThreshold := 0.005%float;
     coincidentFaceCount :=
       detectCoincidentFaces positions indices (Some boundingBox);
     isWatertight := boundaryEdgeCount =? 0;
     isManifold := nonManifoldEdgeCount =? 0;
     hasNonManifoldVertices := 0 <? nonManifoldVertexCount;
     hasConsistentWinding :=
       match skipped windingResult with
       | Some true => false
       | _ => Js.ge (consistencyPercent windingResult) 99.5%float
       end |}.

(** [computeMeshDiagnostics(positions, indices)] run with call-stack depth
    [stack]; [None] is the RangeError of an exhausted stack. *)
Definition computeMeshDiagnostics (stack : nat) (positions : list float)
    (indices : list Z) : option MeshDiagnostics :=
  let vertexCount := lengthZ positions / 3 in
  let triangleCount := lengthZ indices / 3 in
  if MAX_SAFE_TRIANGLES <? triangleCount then
    Some (capacityLimited positions vertexCount triangleCount)
  else
    match countComponents stack indices vertexCount with
    | None => None
    | Some components => Some (fullDiagnostics positions indices components)
    end.

End Diagnostics.

(* ===================================================================== *)
(** ** The overlay                                                        *)
(* ===================================================================== *)

Section Overlay.

Local Open Scope float_scope.

Definition xyz (p : P3) : list float :=
  let '(x, y, z) := p in [x; y; z].

(** The loop over the entries of the edge-face map: boundary segments and
    non-manifold segments. *)
Definition edgeOverlayStep (positions : list float)
    (acc : list float * list float) (entry : Z * list Z)
    : list float * list float :=
  let '(boundaryEdgePositions, nonManifoldEdgePositions) := acc in
  let '(edgeKey, faces) := entry in
  let '(v0, v1) := decodeEdgeKey edgeKey in
  let segment := xyz (vertexAt positions v0) ++ xyz (vertexAt positions v1) in
  if (lengthZ faces =? 1)%Z then
    (boundaryEdgePositions ++ segment, nonManifoldEdgePositions)
  else if (2 <? lengthZ faces)%Z then
    (boundaryEdgePositions, nonManifoldEdgePositions ++ segment)
  else acc.

Definition pinchOverlay (positions : list float) (indices : list Z) : list float :=
  fold_left (fun out (e : Z * list Z) =>
               if isPinch indices (fst e) (snd e)
               then out ++ xyz (vertexAt positions (fst e)) else out)
            (vertexToTriangles indices) [].

Definition pairCentroid (positions : list float) (indices : list Z)
    (pair : Z * Z) : list float :=
  let '(t1, t2) := pair in
  let '(ia, ib, ic) := triangleAt indices t1 in
  let '(ja, jb, jc) := triangleAt indices t2 in
  let '(ax1, ay1, az1) := vertexAt positions ia in
  let '(bx1, by1, bz1) := vertexAt positions ib in
  let '(cx1, cy1, cz1) := vertexAt positions ic in
  let '(ax2, ay2, az2) := vertexAt positions ja in
  let '(bx2, by2, bz2) := vertexAt positions jb in
  let '(cx2, cy2, cz2) := vertexAt positions jc in
  [(ax1 + bx1 + cx1 + ax2 + bx2 + cx2) / 6;
   (ay1 + by1 + cy1 + ay2 + by2 + cy2) / 6;
   (az1 + bz1 + cz1 + az2 + bz2 + cz2) / 6].

(** [new Float32Array(numbers)]: every number is narrowed to 32 bits. *)
Definition Float32Array (numbers : list float) : list float :=
  map Js.fround numbers.

(** [extractProblemGeometry(positions, indices, diagnostics)] *)
Definition extractProblemGeometry (positions : list float) (indices : list Z)
    (diagnostics : MeshDiagnostics) : ProblemGeometry :=
  let edgeFaceMap := buildEdgeFaceMap indices in
  let '(boundaryEdgePositions, nonManifoldEdgePositions) :=
    fold_left (edgeOverlayStep positions) edgeFaceMap ([], []) in
  {| boundaryEdges := Float32Array boundaryEdgePositions;
     nonManifoldEdges := Float32Array nonManifoldEdgePositions;
     nonManifoldVertices :=
       Float32Array
         (if (0 <? nonManifoldVertexCount diagnostics)%Z
          then pinchOverlay positions indices else []);
     selfIntersectionCentroids :=
       Float32Array
         (if (0 <? selfIntersectionCount diagnostics)%Z
          then flat_map (pairCentroid positions indices)
                        (findIntersectingTrianglePairs positions indices)
          else []);
     tJunctionVertices :=
       Float32Array
         (if (0 <? tJunctionCount diagnostics)%Z
          then flat_map (fun v => xyz (vertexAt positions v))
                        (findTJunctionVertices positions indices
                                               (boundingBox diagnostics))
          else []) |}.

End Overlay.


(* ===================================================================== *)
(** ** Vocabulary of the specification                                    *)
(* ===================================================================== *)

(** An input of the data model: both arrays hold whole triples, the
    position array is a typed array (fewer than 2^32 entries) of finite
    coordinates, and every index names a vertex. *)
Record validMesh (positions : list float) (indices : list Z) : Prop := {
  positions_triples : lengthZ positions mod 3 = 0;
  indices_triples : lengthZ indices mod 3 = 0;
  positions_fit : lengthZ positions < 4294967296;
  positions_finite : Forall (fun x => Js.isFinite x = true) positions;
  indices_in_range : Forall (fun i => 0 <= i < lengthZ positions / 3) indices
}.

Definition validMeshb (positions : list float) (indices : list Z) : bool :=
  (lengthZ positions mod 3 =? 0) && (lengthZ indices mod 3 =? 0)
  && (lengthZ positions <? 4294967296)
  && forallb Js.isFinite positions
  && forallb (fun i => (0 <=? i) && (i <? lengthZ positions / 3)) indices.

(** The triangle count does not exceed the capacity cap. *)
Definition underCap (indices : list Z) : Prop :=
  lengthZ indices / 3 <= 5592405.

(** Every vertex index can be packed into a numeric edge key. *)
Definition keysFit (indices : list Z) : Prop :=
  Forall (fun i => 0 <= i < MAX_VERTEX_FOR_NUMERIC_KEY) indices.

(** The cells of the bounds [b] are in the range a double counts exactly,
    so that the loops of [SpatialHashGrid.insert] and [query] over them
    end. *)
Definition cellFits (key : CellKey) : bool :=
  let '(cx, cy, cz) := key in
  Js.int_fits cx && Js.int_fits cy && Js.int_fits cz.

Definition boundsFit (cellSize : float) (b : TriBounds) : bool :=
  cellFits (cellOf cellSize (lo b)) && cellFits (cellOf cellSize (hi b)).

Definition gridFits (cellSize : float) (positions : list float)
    (indices : list Z) : bool :=
  forallb (fun tri => boundsFit cellSize (triBoundsOf positions tri))
          (triangles indices).

(** The grid loops of the self-intersection pass end: the cells of every
    triangle, at the cell size of that pass, fit. *)
Definition cellsFit (positions : list float) (indices : list Z) : Prop :=
  gridFits (intersectionCellSize (Some (computeBoundingBox positions))
                                 (lengthZ indices / 3))
           positions indices = true.

(** The same for the grid loops of the overlay's own search. *)
Definition overlayCellsFit (positions : list float) (indices : list Z) : Prop :=
  gridFits (estimateCellSize positions (lengthZ indices / 3))
           positions indices = true.

(** The analysis returns a record satisfying [P], given enough call stack:
    whatever the call-stack depth beyond some bound. *)
Definition analysisReturns (Math_acos : float -> float) (positions : list float)
    (indices : list Z) (P : MeshDiagnostics -> Prop) : Prop :=
  exists depth, forall stack, (depth <= stack)%nat ->
    exists r, computeMeshDiagnostics Math_acos stack positions indices = Some r /\ P r.

(** The directed edges traversed by the triangles, in traversal order. *)
Definition directedEdges (indices : list Z) : list (Z * Z) :=
  flat_map trianglePairs (triangles indices).

(** [count(a -> b)]: how many triangles traverse the edge from [a] to [b]. *)
Definition traversals (indices : list Z) (a b : Z) : Z :=
  lengthZ (filter (fun e => pair_eqb e (a, b)) (directedEdges indices)).

Definition canonical (e : Z * Z) : Z * Z :=
  (Z.min (fst e) (snd e), Z.max (fst e) (snd e)).

(** The distinct elements of a list, in order of first appearance. *)
Definition distinct {A : Type} (eqb : A -> A -> bool) (l : list A) : list A :=
  fold_left (fun s x => sadd eqb x s) l [].

(** The undirected edges [{a, b}] of the mesh, each once, as [(min, max)]. *)
Definition undirectedEdges (indices : list Z) : list (Z * Z) :=
  distinct pair_eqb (map canonical (directedEdges indices)).

(** [f + g = 2] for the two directed counts of the edge. *)
Definition manifoldForWinding (indices : list Z) (e : Z * Z) : bool :=
  traversals indices (fst e) (snd e) + traversals indices (snd e) (fst e) =? 2.

(** A manifold-for-winding edge whose counts are not [{1, 1}]. *)
Definition woundInconsistently (indices : list Z) (e : Z * Z) : bool :=
  manifoldForWinding indices e
  && negb ((traversals indices (fst e) (snd e) =? 1)
           && (traversals indices (snd e) (fst e) =? 1)).

(** [100 * (manifold - inconsistent) / manifold], or 100 without manifold
    edges, evaluated as the engine evaluates it. *)
Definition consistencyOf (indices : list Z) : float :=
  percentOf (lengthZ (filter (manifoldForWinding indices) (undirectedEdges indices)))
            (lengthZ (filter (woundInconsistently indices) (undirectedEdges indices))).

(** The undirected edge keys produced by the triangles, three per triangle. *)
Definition edgeKeys (indices : list Z) : list Z :=
  map (fun e => numericEdgeKey (fst e) (snd e)) (directedEdges indices).

Definition occurrences (k : Z) (l : list Z) : Z :=
  lengthZ (filter (Z.eqb k) l).

Section ClaimedFormulas.

Local Open Scope float_scope.

(** Degeneracy as the specification words it: [4 A^2 < 1e-8 * 0.1875 * l^2]
    with [A] the area and [l] the sampled average edge length. *)
Definition claimedDegenerate (positions : list float) (indices : list Z)
    (tri : Z * Z * Z) : bool :=
  let A := triangleArea positions tri in
  let l := avgEdgeLength positions indices in
  4 * (A * A) <? 1e-8 * 0.1875 * (l * l).

Definition claimedDegenerateCount (positions : list float) (indices : list Z) : Z :=
  lengthZ (filter (claimedDegenerate positions indices) (triangles indices)).

(** The median as [computeStats] computes it: the middle element, or the
    mean of the two middle elements of an even-sized sample. *)
Definition statsMedian (values : list float) : float :=
  match computeStats values with
  | Some s => stat_median s
  | None => 0
  end.

(** Tiny triangles as the specification words it: positive area below one
    percent of the median area. *)
Definition claimedTinyCount (positions : list float) (indices : list Z) : Z :=
  let areas := map (triangleArea positions) (triangles indices) in
  lengthZ (filter (fun a => (a <? 0.01 * statsMedian areas) && Js.gt a 0) areas).


(** A host implementation of [Math.acos], for statements about one concrete
    run; the theorems hold for every host function.  The arcsine series is
    summed on [|x| <= 1/2] and the half-angle identities cover the rest. *)
Fixpoint asinSeries (n : nat) (k term x2 sum : float) : float :=
  match n with
  | O => sum
  | S n' =>
      let term' := term * x2 * ((2 * k + 1) * (2 * k + 1))
                   / ((2 * k + 2) * (2 * k + 3)) in
      asinSeries n' (k + 1) term' x2 (sum + term')
  end.

Definition asinSmall (x : float) : float := asinSeries 40 0 x (x * x) x.

Definition acosHost (x : float) : float :=
  if abs x <=? 0.5 then Js.PI / 2 - asinSmall x
  else if 0.5 <? x then 2 * asinSmall (sqrt ((1 - x) / 2))
  else Js.PI - 2 * asinSmall (sqrt ((1 + x) / 2)).

End ClaimedFormulas.

(* ===================================================================== *)
(** ** Auxiliary notions for the proofs                                   *)
(* ===================================================================== *)

(** [Rooted l x r]: following the parent pointers of [l] from [x] ends at
    the root [r]. *)
Inductive Rooted (l : list Z) : Z -> Z -> Prop :=
| Rooted_root : forall x, lookupZ l x = Some x -> Rooted l x x
| Rooted_step : forall x y r,
    lookupZ l x = Some y -> y <> x -> Rooted l y r -> Rooted l x r.

Definition triangleInRange (n : Z) (tri : Z * Z * Z) : Prop :=
  let '(a, b, c) := tri in 0 <= a < n /\ 0 <= b < n /\ 0 <= c < n.

(** Every vertex of the array leads to a root. *)
Definition forest (l : list Z) : Prop :=
  forall x, 0 <= x < lengthZ l -> exists r, Rooted l x r.

(** [mensure] followed by [mappend] on one key. *)
Fixpoint push (k : Z) (t : Z) (m : list (Z * list Z)) : list (Z * list Z) :=
  match m with
  | [] => [(k, [t])]
  | (x, l) :: r => if x =? k then (x, l ++ [t]) :: r else (x, l) :: push k t r
  end.

(** The entries a first-seen scan keeps: those whose class [u] is neither
    in [checked] nor met earlier in the list. *)
Fixpoint firstSeen {E : Type} (u : E -> Z) (checked : list Z) (l : list E) : list E :=
  match l with
  | [] => []
  | e :: r =>
      if shas Z.eqb (u e) checked then firstSeen u checked r
      else e :: firstSeen u (sadd Z.eqb (u e) checked) r
  end.

(** The undirected key of the entry of [directedEdgeCounts] with key [k]. *)
Definition undirectedKeyOf (k : Z) : Z :=
  numericEdgeKey (k / MAX_VERTEX_FOR_NUMERIC_KEY) (k mod MAX_VERTEX_FOR_NUMERIC_KEY).

Section SamplingVocabulary.

Local Open Scope float_scope.

(** The three edge lengths of a triangle, added as the sampling loop adds
    them. *)
Definition perimeter (positions : list float) (tri : Z * Z * Z) : float :=
  let '(i0, i1, i2) := tri in
  let v0 := vertexAt positions i0 in
  let v1 := vertexAt positions i1 in
  let v2 := vertexAt positions i2 in
  dist3 v0 v1 + dist3 v0 v2 + dist3 v1 v2.

(** The average edge length over the first [min(T, 1000)] triangles
    ([3 * min(T, 1000)] edges), or 1 for a mesh without triangles. *)
Definition sampledAverage (positions : list float) (indices : list Z) : float :=
  let T := (lengthZ indices / 3)%Z in
  let sample := firstn (Z.to_nat (Z.min T 1000)) (triangles indices) in
  if (0 <? T)%Z
  then fold_left (fun total tri => total + perimeter positions tri) sample 0
       / Js.ofZ (3 * Z.min T 1000)
  else 1.

End SamplingVocabulary.

(** One sliver triangle: legs 1 and 2^-15. *)
Definition degenerateExample : list float :=
  [0; 0; 0;  1; 0; 0;  0; 0x1p-15; 0]%float.

(** Two triangles, of areas 1 and 1/128. *)
Definition tinyExample : list float :=
  [0; 0; 0;  1; 0; 0;  0; 2; 0;
   0; 0; 0;  1; 0; 0;  0; 0.015625; 0]%float.

(** [m.get(k) ?? 0] *)
Definition countOf (k : Z) (m : list (Z * Z)) : Z :=
  match mget Z.eqb k m with Some c => c | None => 0 end.

(** The directed edge keys produced by the triangles, three per triangle. *)
Definition directedKeys (indices : list Z) : list Z :=
  map (fun e => numericDirectedEdgeKey (fst e) (snd e)) (directedEdges indices).

(** The tests the winding scan applies to an entry it has not skipped. *)
Definition entryIsManifold (counts : list (Z * Z)) (entry : Z * Z) : bool :=
  let to := fst entry mod MAX_VERTEX_FOR_NUMERIC_KEY in
  let from := fst entry / MAX_VERTEX_FOR_NUMERIC_KEY in
  snd entry + countOf (numericDirectedEdgeKey to from) counts =? 2.

Definition entryIsInconsistent (counts : list (Z * Z)) (entry : Z * Z) : bool :=
  let to := fst entry mod MAX_VERTEX_FOR_NUMERIC_KEY in
  let from := fst entry / MAX_VERTEX_FOR_NUMERIC_KEY in
  entryIsManifold counts entry
  && (negb (snd entry =? 1)
      || negb (countOf (numericDirectedEdgeKey to from) counts =? 1)).

(** The undirected edge, as [(min, max)], of an entry of the directed-edge
    count map. *)
Definition edgeOfEntry (entry : Z * Z) : Z * Z :=
  canonical (decodeEdgeKey (fst entry)).

(** Two triangles that traverse the edge 0 -> 1 in the same direction. *)
Definition sameDirectionPositions : list float :=
  [0; 0; 0;  1; 0; 0;  0; 1; 0;  0; 0; 1]%float.

Definition sameDirectionIndices : list Z := [0; 1; 2;  0; 1; 3].

(** Two triangles, one of which uses the vertex index 2^26, over
    2^26 + 1 vertices at the origin. *)
Definition wideIndices : list Z := [0; 67108864; 2;  1; 0; 3].

Definition widePositions : list float := repeat 0%float (Z.to_nat (3 * 67108865)).





(** A triangle with vertices on its edge 0-1: vertex 3 at the midpoint and
    vertex 4 at the quarter point, both belonging to a second triangle. *)
Definition tJunctionPositions : list float :=
  [0; 0; 0;  4; 0; 0;  0; 4; 0;  2; 0; 0;  1; 0; 0;  1.5; -1; 0]%float.

Definition tJunctionIndices : list Z := [0; 1; 2;  3; 4; 5].

(** Two triangles whose planes cut each other but whose intersection
    intervals are apart (triangles 0, 1), and two crossing triangles
    (triangles 2, 3). *)
Definition intersectionPositions : list float :=
  [0; 0; 0;  2; 0; 0;  0; 1; 0;
   1; 5; -1;  1; 5; 1;  1; 6; 0;
   10; -1; 0;  12; -1; 0;  11; 1; 0;
   11; 0; -1;  11; 0; 1;  12; 0.5; 0]%float.

Definition intersectionIndices : list Z := [0; 1; 2; 3; 4; 5; 6; 7; 8; 9; 10; 11].

(** The list stored under [k], or the empty list. *)
Definition facesOf (k : Z) (m : list (Z * list Z)) : list Z :=
  match mget Z.eqb k m with Some l => l | None => [] end.

(** The pairs [(key, triangle)] pushed into the edge-face map, in order. *)
Definition edgePushes (indices : list Z) : list (Z * Z) :=
  flat_map (fun entry : Z * (Z * Z * Z) =>
              let '(t, (i0, i1, i2)) := entry in
              [(numericEdgeKey i0 i1, t); (numericEdgeKey i1 i2, t);
               (numericEdgeKey i2 i0, t)])
           (indexed (triangles indices)).

(** The index array rebuilt from its triangles. *)
Definition flatten (tris : list (Z * Z * Z)) : list Z :=
  flat_map (fun tri : Z * Z * Z => let '(a, b, c) := tri in [a; b; c]) tris.





(** The pairs the overlay has tested and accepted are in its output:
    every pair of [checked] that is not adjacent and passes the plane
    checks is in [pairs]. *)
Definition covered (positions : list float) (indices : list Z)
    (acc : list (Z * Z) * list (Z * Z)) : Prop :=
  forall a b, In (a, b) (fst acc) ->
    trianglesAdjacent (triangleAt indices a) (triangleAt indices b) = false ->
    trianglesIntersectSimple positions indices a b = true ->
    In (a, b) (snd acc).

(** The set [checked] only grows. *)
Definition grows (acc acc' : list (Z * Z) * list (Z * Z)) : Prop :=
  forall p, In p (fst acc) -> In p (fst acc').

(** What the overlay emits has passed its tests. *)
Definition accepted (positions : list float) (indices : list Z)
    (acc : list (Z * Z) * list (Z * Z)) : Prop :=
  forall a b, In (a, b) (snd acc) ->
    a < b
    /\ trianglesAdjacent (triangleAt indices a) (triangleAt indices b) = false
    /\ trianglesIntersectSimple positions indices a b = true.

(** The neighbours still to be pushed: the sizes of the neighbour sets of
    the nodes not visited yet. *)
Definition pendingCost (g : list (Z * list Z)) (visited : list Z) : nat :=
  list_sum (map (fun e : Z * list Z =>
                   if shas Z.eqb (fst e) visited then O else length (snd e)) g).

(* ===================================================================== *)
(** ** Further vocabulary                                                 *)
(* ===================================================================== *)

(** The sum of a list of integers. *)
Definition sumZ (l : list Z) : Z := fold_right Z.add 0 l.

(** The three edge keys of a triangle. *)
Definition triangleKeys (tri : Z * Z * Z) : list Z :=
  let '(i0, i1, i2) := tri in
  [numericEdgeKey i0 i1; numericEdgeKey i1 i2; numericEdgeKey i2 i0].

(** A tetrahedron, every edge traversed once in each direction. *)
Definition tetraPositions : list float :=
  [0; 0; 0;  1; 0; 0;  0; 1; 0;  0; 0; 1]%float.

Definition tetraIndices : list Z := [0; 2; 1;  0; 1; 3;  1; 2; 3;  0; 3; 2].

(** The triangles met under the edge key [k], in triangle order: triangle
    [t] once for each of its three edges whose key is [k]. *)
Definition incidentTriangles (indices : list Z) (k : Z) : list Z :=
  flat_map (fun entry : Z * (Z * Z * Z) =>
              map (fun _ => fst entry) (filter (Z.eqb k) (triangleKeys (snd entry))))
           (indexed (triangles indices)).

(* ===================================================================== *)
(** ** Diagnostics of a glTF document                                     *)
(* ===================================================================== *)

(** The part of a glTF document that [computeDiagnosticsFromDocument]
    reads.  An accessor's [getArray()] may be null; a primitive may lack
    the [POSITION] attribute and may lack indices. *)
Record Accessor (A : Type) : Type := mkAccessor { getArray : option (list A) }.

Arguments mkAccessor {A} _.
Arguments getArray {A} _.

Record Primitive : Type := mkPrimitive {
  getPOSITION : option (Accessor float);
  getIndices : option (Accessor Z)
}.

(** [mesh.listPrimitives()] and [document.getRoot().listMeshes()]. *)
Definition Mesh : Type := list Primitive.
Definition Document : Type := list Mesh.

(** The body of the loop over the primitives; the state is
    [(allPositions, allIndices, vertexOffset)]. *)
Definition primitiveStep (acc : list float * list Z * Z) (prim : Primitive)
    : list float * list Z * Z :=
  let '(allPositions, allIndices, vertexOffset) := acc in
  match getPOSITION prim with
  | None => acc
  | Some posAccessor =>
      match getArray posAccessor with
      | None => acc
      | Some positions =>
          let allPositions := allPositions ++ positions in
          let allIndices :=
            match getIndices prim with
            | Some idxAccessor =>
                match getArray idxAccessor with
                | Some indices =>
                    allIndices ++ map (fun i => i + vertexOffset) indices
                | None => allIndices
                end
            | None =>
                let vertCount := lengthZ positions / 3 in
                allIndices
                ++ map (fun i => vertexOffset + i) (iota 0 (Z.to_nat vertCount))
            end in
          (allPositions, allIndices, vertexOffset + lengthZ positions / 3)
      end
  end.

Definition mergeDocument (document : Document) : list float * list Z * Z :=
  fold_left (fun acc mesh => fold_left primitiveStep mesh acc) document ([], [], 0).

(** [computeDiagnosticsFromDocument(document)] *)
Definition computeDiagnosticsFromDocument (Math_acos : float -> float)
    (stack : nat) (document : Document) : option MeshDiagnostics :=
  let '(allPositions, allIndices, _) := mergeDocument document in
  computeMeshDiagnostics Math_acos stack (Float32Array allPositions) allIndices.

(** The position array of a primitive that has one. *)
Definition primitivePositions (prim : Primitive) : option (list float) :=
  match getPOSITION prim with
  | Some posAccessor => getArray posAccessor
  | None => None
  end.

Definition primitiveVertexCount (prim : Primitive) : Z :=
  match primitivePositions prim with
  | Some positions => lengthZ positions / 3
  | None => 0
  end.

(** The triangles a primitive contributes: those of its index array, or,
    without indices, one per three vertices. *)
Definition primitiveTriangleCount (prim : Primitive) : Z :=
  match primitivePositions prim with
  | Some positions =>
      match getIndices prim with
      | Some idxAccessor =>
          match getArray idxAccessor with
          | Some indices => lengthZ indices / 3
          | None => 0
          end
      | None => lengthZ positions / 3 / 3
      end
  | None => 0
  end.

(** The indices a primitive with the position array [positions]
    contributes when [offset] vertices were merged before it: its own
    indices shifted by [offset]; nothing when the index accessor has no
    array; and [offset, offset + 1, ...], one index per vertex, when it has
    no index accessor. *)
Definition shiftedIndices (offset : Z) (prim : Primitive) (positions : list float)
    : list Z :=
  match getIndices prim with
  | Some idxAccessor =>
      match getArray idxAccessor with
      | Some indices => map (fun i => i + offset) indices
      | None => []
      end
  | None => map (fun i => offset + i) (iota 0 (Z.to_nat (lengthZ positions / 3)))
  end.

(** The merged mesh, primitive by primitive: the position arrays one after
    the other, and every primitive's indices shifted by the number of
    vertices of the primitives before it ([offset] at the start). *)
Fixpoint mergedFrom (offset : Z) (prims : list Primitive) : list float * list Z :=
  match prims with
  | [] => ([], [])
  | prim :: rest =>
      match primitivePositions prim with
      | None => mergedFrom offset rest
      | Some positions =>
          let later := mergedFrom (offset + lengthZ positions / 3) rest in
          (positions ++ fst later,
           shiftedIndices offset prim positions ++ snd later)
      end
  end.

(** A primitive whose arrays are whole triples of finite binary32
    coordinates and of indices into its own vertices. *)
Definition wellFormedPrimitive (prim : Primitive) : Prop :=
  match primitivePositions prim with
  | Some positions =>
      lengthZ positions mod 3 = 0
      /\ Forall (fun x => Js.isFinite x = true) positions
      /\ Forall (fun x => Js.fround x = x) positions
      /\ match getIndices prim with
         | Some idxAccessor =>
             match getArray idxAccessor with
             | Some indices =>
                 lengthZ indices mod 3 = 0
                 /\ Forall (fun i => 0 <= i < lengthZ positions / 3) indices
             | None => True
             end
         | None => (lengthZ positions / 3) mod 3 = 0
         end
  | None => True
  end.

(** Two primitives: a triangle with an index array and a triangle
    without, and one primitive that has no positions. *)
Definition sampleDocument : Document :=
  [[mkPrimitive (Some (mkAccessor (Some [0; 0; 0; 1; 0; 0; 0; 1; 0]%float)))
                (Some (mkAccessor (Some [0; 2; 1])));
    mkPrimitive None (Some (mkAccessor (Some [0; 1; 2])))];
   [mkPrimitive (Some (mkAccessor (Some [0; 0; 1; 1; 0; 1; 0; 1; 1]%float)))
                None]].

(* ===================================================================== *)
(** ** The order of binary64 values                                       *)
(* ===================================================================== *)

(** A key that orders the values other than NaN as the IEEE comparison
    does: the class (infinities, negative, zero, positive), then the
    exponent, then the mantissa. *)
Definition floatKey (x : spec_float) : Z * Z * Z :=
  match x with
  | S754_zero _ => (0, 0, 0)
  | S754_infinity s => (if s then -2 else 2, 0, 0)
  | S754_nan => (0, 0, 0)
  | S754_finite s m e => if s then (-1, - e, Z.neg m) else (1, e, Z.pos m)
  end.

Definition keyLt (a b : Z * Z * Z) : Prop :=
  let '(a1, a2, a3) := a in
  let '(b1, b2, b3) := b in
  a1 < b1 \/ (a1 = b1 /\ (a2 < b2 \/ (a2 = b2 /\ a3 < b3))).

Definition keyOf (x : float) : Z * Z * Z := floatKey (Prim2SF x).

(** [x < y] and [x <= y] on values that are not NaN. *)
Definition fless (x y : float) : Prop := keyLt (keyOf x) (keyOf y).
Definition fleq (x y : float) : Prop := ~ keyLt (keyOf y) (keyOf x).

(* ===================================================================== *)
(** ** math-utils                                                         *)
(* ===================================================================== *)

Module MathUtils.

Local Open Scope float_scope.

(** [computeBoundingBox(positions)] of math-utils: the zero box below
    three entries, otherwise the same scan as the diagnostics' own. *)
Definition computeBoundingBox (positions : list float) : BoundingBox :=
  if (lengthZ positions <? 3)%Z
  then mkBoundingBox (mkVec3 0 0 0) (mkVec3 0 0 0) (mkVec3 0 0 0) 0
  else boxOf positions.

(** [computeCenter(bbox)] *)
Definition computeCenter (bbox : BoundingBox) : float * float * float :=
  ((vx (bmin bbox) + vx (bmax bbox)) / 2,
   (vy (bmin bbox) + vy (bmax bbox)) / 2,
   (vz (bmin bbox) + vz (bmax bbox)) / 2).

(** [computeMaxDimension(bbox)] *)
Definition computeMaxDimension (bbox : BoundingBox) : float :=
  Js.max3 (vx (bsize bbox)) (vy (bsize bbox)) (vz (bsize bbox)).

(** [clamp(value, min, max)] *)
Definition clamp (value min max : float) : float :=
  Js.max2 min (Js.min2 max value).

End MathUtils.

(** The running minimum and maximum of the bounding-box scan on one
    coordinate. *)
Definition stepMin (m x : float) : float := if (x <? m)%float then x else m.
Definition stepMax (m x : float) : float := if Js.gt x m then x else m.

Definition xOf (p : float * float * float) : float := fst (fst p).
Definition yOf (p : float * float * float) : float := snd (fst p).
Definition zOf (p : float * float * float) : float := snd p.

(** The array stored under [k], or the empty array. *)
Definition valuesOf {K T : Type} (eqb : K -> K -> bool) (k : K)
    (m : list (K * list T)) : list T :=
  match mget eqb k m with Some l => l | None => [] end.

(** Two bounds whose cell ranges have a cell in common. *)
Definition shareCell (cellSize : float) (b q : TriBounds) : Prop :=
  exists key, In key (boundsCells cellSize b) /\ In key (boundsCells cellSize q).

(** Two boxes inserted into a grid of unit cells, and a query box that
    meets the first one. *)
Definition sampleEntries : list (Z * TriBounds) :=
  [(0, mkTriBounds (0, 0, 0)%float (1.5, 0.5, 0.5)%float);
   (1, mkTriBounds (4, 4, 4)%float (4.5, 4.5, 4.5)%float)].

Definition sampleQuery : TriBounds :=
  mkTriBounds (1.25, 0.25, 0.25)%float (2.5, 0.75, 0.75)%float.

(** The overlay's [pairs] holds no pair twice and only pairs that are in
    [checked]. *)
Definition pairsTidy (acc : list (Z * Z) * list (Z * Z)) : Prop :=
  NoDup (snd acc) /\ forall p, In p (snd acc) -> In p (fst acc).

(** Every pair of [checked] satisfies [R]. *)
Definition checkedWithin (R : Z -> Z -> Prop)
    (acc : list (Z * Z) * list (Z * Z)) : Prop :=
  forall a b, In (a, b) (fst acc) -> R a b.

(** The cell of the duplicate grid that holds vertex [i]. *)
Definition duplicateCell (positions : list float) (i : Z) : CellKey :=
  cellOf (1e-6 * 10)%float (vertexAt positions i).

(** The vertices before [n] that fall into the cell [key], in order. *)
Definition earlierInCell (positions : list float) (key : CellKey) (n : nat)
    : list Z :=
  filter (fun j => cell_eqb (duplicateCell positions j) key) (iota 0 n).

(** Whether an earlier vertex of the same cell lies within the tolerance
    of vertex [i]. *)
Definition duplicatesEarlier (positions : list float) (i : Z) : bool :=
  existsb (fun j => (distSq3 (vertexAt positions i) (vertexAt positions j)
                     <? 1e-6 * 1e-6)%float)
          (earlierInCell positions (duplicateCell positions i) (Z.to_nat i)).

(* ===================================================================== *)
(** ** Connectivity                                                       *)
(* ===================================================================== *)

(** The least equivalence relation that contains the pairs of [edges]. *)
Inductive joined (edges : list (Z * Z)) : Z -> Z -> Prop :=
| joined_refl : forall x, joined edges x x
| joined_edge : forall a b, In (a, b) edges -> joined edges a b
| joined_sym : forall x y, joined edges x y -> joined edges y x
| joined_trans : forall x y z, joined edges x y -> joined edges y z -> joined edges x z.

(** The pairs the union-find pass unites: [union(i0, i1); union(i1, i2)]
    for every triangle. *)
Definition unionEdges (tris : list (Z * Z * Z)) : list (Z * Z) :=
  flat_map (fun tri : Z * Z * Z => let '(i0, i1, i2) := tri in [(i0, i1); (i1, i2)])
           tris.

(** Two vertices are connected when triangles lead from one to the
    other. *)
Definition connected (indices : list Z) : Z -> Z -> Prop :=
  joined (unionEdges (triangles indices)).

(** The classes of the union-find array [l] are the classes of
    [joined edges]. *)
Definition partitions (l : list Z) (edges : list (Z * Z)) : Prop :=
  forall x y, 0 <= x < lengthZ l -> 0 <= y < lengthZ l ->
    ((exists r, Rooted l x r /\ Rooted l y r) <-> joined edges x y).

(** The mesh with every triangle turned over: [(i0, i1, i2)] becomes
    [(i0, i2, i1)]. *)
Definition reverseWinding (indices : list Z) : list Z :=
  flatten (map (fun tri : Z * Z * Z => let '(i0, i1, i2) := tri in (i0, i2, i1))
               (triangles indices)).

Definition swapEnds (e : Z * Z) : Z * Z := (snd e, fst e).

(* ===================================================================== *)
(** ** Arrays                                                             *)
(* ===================================================================== *)

Lemma lengthZ_cons {A : Type} (x : A) (l : list A) :
  lengthZ (x :: l) = lengthZ l + 1.
Proof. unfold lengthZ. cbn [length]. lia. Qed.

Lemma lengthZ_nonneg {A : Type} (l : list A) : 0 <= lengthZ l.
Proof. unfold lengthZ. lia. Qed.

Lemma lengthZ_app {A : Type} (l l' : list A) :
  lengthZ (l ++ l') = lengthZ l + lengthZ l'.
Proof. unfold lengthZ. rewrite length_app. lia. Qed.

Lemma lookupZ_Some_range {A : Type} (l : list A) :
  forall k v, lookupZ l k = Some v -> 0 <= k < lengthZ l.
Proof.
  induction l as [|x r IH]; intros k v H; cbn in H.
  - discriminate.
  - rewrite lengthZ_cons. destruct (Z.eqb_spec k 0) as [->|Hk].
    + pose proof (lengthZ_nonneg r). lia.
    + apply IH in H. lia.
Qed.

Lemma lookupZ_in_range {A : Type} (l : list A) :
  forall k, 0 <= k < lengthZ l -> exists v, lookupZ l k = Some v.
Proof.
  induction l as [|x r IH]; intros k H.
  - unfold lengthZ in H. cbn in H. lia.
  - rewrite lengthZ_cons in H. cbn. destruct (Z.eqb_spec k 0) as [->|Hk].
    + now exists x.
    + apply IH. lia.
Qed.

Lemma lookupZ_In {A : Type} (l : list A) :
  forall k v, lookupZ l k = Some v -> In v l.
Proof.
  induction l as [|x r IH]; intros k v H; cbn in H.
  - discriminate.
  - destruct (k =? 0).
    + injection H as ->. now left.
    + right. eapply IH, H.
Qed.

Lemma length_updateZ {A : Type} (l : list A) :
  forall k v, lengthZ (updateZ l k v) = lengthZ l.
Proof.
  induction l as [|x r IH]; intros k v; cbn.
  - reflexivity.
  - destruct (k =? 0); rewrite !lengthZ_cons; [reflexivity|].
    now rewrite IH.
Qed.

Lemma lookupZ_updateZ_eq {A : Type} (l : list A) :
  forall k v, 0 <= k < lengthZ l -> lookupZ (updateZ l k v) k = Some v.
Proof.
  induction l as [|x r IH]; intros k v H.
  - unfold lengthZ in H. cbn in H. lia.
  - rewrite lengthZ_cons in H. cbn. destruct (Z.eqb_spec k 0) as [->|Hk]; cbn.
    + reflexivity.
    + destruct (Z.eqb_spec k 0); [lia|]. apply IH. lia.
Qed.

Lemma lookupZ_updateZ_ne {A : Type} (l : list A) :
  forall k j v, k <> j -> lookupZ (updateZ l k v) j = lookupZ l j.
Proof.
  induction l as [|x r IH]; intros k j v H; cbn.
  - reflexivity.
  - destruct (Z.eqb_spec k 0) as [->|Hk]; cbn.
    + destruct (Z.eqb_spec j 0); [lia|reflexivity].
    + destruct (Z.eqb_spec j 0); [reflexivity|]. apply IH. lia.
Qed.

Lemma updateZ_out_of_range {A : Type} (l : list A) :
  forall k v, ~ (0 <= k < lengthZ l) -> updateZ l k v = l.
Proof.
  induction l as [|x r IH]; intros k v H; cbn.
  - reflexivity.
  - rewrite lengthZ_cons in H. pose proof (lengthZ_nonneg r).
    destruct (Z.eqb_spec k 0) as [->|Hk]; [lia|].
    f_equal. apply IH. lia.
Qed.

Lemma length_iota (n : nat) : forall s, length (iota s n) = n.
Proof. induction n as [|n IH]; intros s; cbn; [reflexivity|now rewrite IH]. Qed.

Lemma lookupZ_iota (n : nat) :
  forall s k, 0 <= k < Z.of_nat n -> lookupZ (iota s n) k = Some (s + k).
Proof.
  induction n as [|n IH]; intros s k H.
  - lia.
  - cbn [iota lookupZ]. destruct (Z.eqb_spec k 0) as [->|Hk].
    + f_equal. lia.
    + rewrite IH by lia. f_equal. lia.
Qed.

Lemma In_iota (n : nat) :
  forall s x, In x (iota s n) <-> s <= x < s + Z.of_nat n.
Proof.
  induction n as [|n IH]; intros s x; cbn [iota In].
  - lia.
  - rewrite IH. lia.
Qed.

(* ===================================================================== *)
(** ** Sets and Maps in insertion order                                   *)
(* ===================================================================== *)

Section SetFacts.

Context {A : Type}.
Variable eqb : A -> A -> bool.
Hypothesis eqb_eq : forall x y, eqb x y = true <-> x = y.

Lemma shas_In_gen (k : A) (s : list A) : shas eqb k s = true <-> In k s.
Proof.
  induction s as [|x r IH]; cbn.
  - split; [discriminate|tauto].
  - destruct (eqb x k) eqn:E.
    + apply eqb_eq in E. subst. split; auto.
    + rewrite IH. split; [auto|]. intros [H|H]; [|exact H].
      apply eqb_eq in H. congruence.
Qed.

Lemma shas_false_gen (k : A) (s : list A) : shas eqb k s = false <-> ~ In k s.
Proof.
  rewrite <- shas_In_gen. destruct (shas eqb k s); split; congruence.
Qed.

Lemma In_sadd_gen (k x : A) (s : list A) :
  In x (sadd eqb k s) <-> x = k \/ In x s.
Proof.
  unfold sadd. destruct (shas eqb k s) eqn:E.
  - apply shas_In_gen in E. split; [auto|]. intros [->|H]; auto.
  - rewrite in_app_iff. cbn. split; intros H; intuition.
Qed.

Lemma NoDup_sadd_gen (k : A) (s : list A) : NoDup s -> NoDup (sadd eqb k s).
Proof.
  intros H. unfold sadd. destruct (shas eqb k s) eqn:E; [exact H|].
  apply shas_false_gen in E. apply NoDup_app; [trivial|repeat constructor; auto|].
  intros x Hx [->|[]]. contradiction.
Qed.

Lemma distinct_fold (l : list A) :
  forall acc,
    NoDup acc ->
    NoDup (fold_left (fun s x => sadd eqb x s) l acc)
    /\ forall x, In x (fold_left (fun s x => sadd eqb x s) l acc)
                 <-> In x acc \/ In x l.
Proof.
  induction l as [|y l IH]; intros acc Hacc; cbn [fold_left].
  - split; [exact Hacc|]. cbn. tauto.
  - destruct (IH (sadd eqb y acc) (NoDup_sadd_gen y acc Hacc)) as [Hnd Hin].
    split; [exact Hnd|]. intros x. rewrite Hin, In_sadd_gen. cbn.
    split; intros H; intuition.
Qed.

Lemma NoDup_distinct (l : list A) : NoDup (distinct eqb l).
Proof. apply distinct_fold. constructor. Qed.

Lemma In_distinct (l : list A) (x : A) : In x (distinct eqb l) <-> In x l.
Proof.
  unfold distinct. destruct (distinct_fold l [] (NoDup_nil A)) as [_ H].
  rewrite H. cbn. tauto.
Qed.

End SetFacts.

Lemma shas_In (k : Z) (s : list Z) : shas Z.eqb k s = true <-> In k s.
Proof. apply shas_In_gen, Z.eqb_eq. Qed.

Lemma shas_false (k : Z) (s : list Z) : shas Z.eqb k s = false <-> ~ In k s.
Proof. apply shas_false_gen, Z.eqb_eq. Qed.

Lemma In_sadd (k x : Z) (s : list Z) : In x (sadd Z.eqb k s) <-> x = k \/ In x s.
Proof. apply In_sadd_gen, Z.eqb_eq. Qed.

Lemma NoDup_sadd (k : Z) (s : list Z) : NoDup s -> NoDup (sadd Z.eqb k s).
Proof. apply NoDup_sadd_gen, Z.eqb_eq. Qed.

Lemma pair_eqb_eq (a b : Z * Z) : pair_eqb a b = true <-> a = b.
Proof.
  destruct a as [a1 a2], b as [b1 b2]. unfold pair_eqb. cbn.
  rewrite andb_true_iff, !Z.eqb_eq. split; [intros [-> ->]|intros [= -> ->]]; auto.
Qed.

Lemma filter_length_Permutation {A : Type} (f : A -> bool) (l l' : list A) :
  Permutation l l' -> lengthZ (filter f l) = lengthZ (filter f l').
Proof.
  intros H. unfold lengthZ. f_equal.
  induction H as [|x l l' _ IH|x y l|l l' l'' _ IH1 _ IH2]; cbn.
  - reflexivity.
  - destruct (f x); cbn; congruence.
  - destruct (f x), (f y); reflexivity.
  - congruence.
Qed.

Lemma fold_left_flat_map {A B C : Type} (f : C -> B -> C) (g : A -> list B)
    (l : list A) :
  forall acc,
    fold_left f (flat_map g l) acc
    = fold_left (fun acc x => fold_left f (g x) acc) l acc.
Proof.
  induction l as [|x l IH]; intros acc; cbn [flat_map fold_left].
  - reflexivity.
  - now rewrite fold_left_app, IH.
Qed.

(** Maps keyed by integers. *)

Lemma mget_mset {V : Type} (k k' : Z) (v : V) (m : list (Z * V)) :
  mget Z.eqb k' (mset Z.eqb k v m)
  = if k =? k' then Some v else mget Z.eqb k' m.
Proof.
  induction m as [|[x w] r IH]; cbn.
  - reflexivity.
  - destruct (Z.eqb_spec x k) as [->|Hxk]; cbn.
    + destruct (Z.eqb_spec k k'); reflexivity.
    + destruct (Z.eqb_spec x k') as [->|Hxk'].
      * destruct (Z.eqb_spec k k'); [congruence|reflexivity].
      * exact IH.
Qed.

Lemma mget_In {V : Type} (k : Z) (v : V) (m : list (Z * V)) :
  mget Z.eqb k m = Some v -> In (k, v) m.
Proof.
  induction m as [|[x w] r IH]; cbn; [discriminate|].
  destruct (Z.eqb_spec x k) as [->|_].
  - intros [= ->]. now left.
  - intros H. right. auto.
Qed.

Lemma mget_keys {V : Type} (k : Z) (m : list (Z * V)) :
  In k (map fst m) <-> exists v, mget Z.eqb k m = Some v.
Proof.
  induction m as [|[x w] r IH]; cbn.
  - split; [tauto|intros [v H]; discriminate].
  - destruct (Z.eqb_spec x k) as [->|Hne].
    + split; eauto.
    + rewrite <- IH. split; [intros [H|H]; [contradiction|exact H]|auto].
Qed.

Lemma In_mget {V : Type} (k : Z) (v : V) (m : list (Z * V)) :
  NoDup (map fst m) -> In (k, v) m -> mget Z.eqb k m = Some v.
Proof.
  induction m as [|[x w] r IH]; cbn; [tauto|].
  intros Hnd [H|H].
  - injection H as -> ->. now rewrite Z.eqb_refl.
  - inversion Hnd as [|? ? Hx Hr]; subst.
    destruct (Z.eqb_spec x k) as [->|_]; [|auto].
    exfalso. apply Hx. change k with (fst (k, v)). now apply in_map.
Qed.

Lemma keys_mset {V : Type} (k : Z) (v : V) (m : list (Z * V)) :
  map fst (mset Z.eqb k v m)
  = if mhas Z.eqb k m then map fst m else map fst m ++ [k].
Proof.
  unfold mhas. induction m as [|[x w] r IH]; cbn.
  - reflexivity.
  - destruct (Z.eqb_spec x k) as [->|Hne]; cbn.
    + reflexivity.
    + rewrite IH. destruct (mget Z.eqb k r); reflexivity.
Qed.

Lemma NoDup_keys_mset {V : Type} (k : Z) (v : V) (m : list (Z * V)) :
  NoDup (map fst m) -> NoDup (map fst (mset Z.eqb k v m)).
Proof.
  intros H. rewrite keys_mset. unfold mhas.
  destruct (mget Z.eqb k m) eqn:E; [exact H|].
  apply NoDup_app; [trivial|repeat constructor; auto|].
  intros x Hx [->|[]]. apply mget_keys in Hx. destruct Hx as [v' Hv']. congruence.
Qed.

(* ===================================================================== *)
(** ** The union-find pass returns on valid input                         *)
(* ===================================================================== *)

Lemma Rooted_is_root (l : list Z) (x r : Z) :
  Rooted l x r -> lookupZ l r = Some r.
Proof. induction 1; assumption. Qed.

Lemma Rooted_det (l : list Z) (x r r' : Z) :
  Rooted l x r -> Rooted l x r' -> r = r'.
Proof.
  intros H. revert r'. induction H as [x Hx|x y r Hx Hy _ IH]; intros r' H'.
  - inversion H' as [? Hx'|? y' ? Hx' Hy' _]; subst; [reflexivity|].
    rewrite Hx in Hx'. injection Hx' as <-. contradiction.
  - inversion H' as [? Hx'|? y' ? Hx' Hy' Hr']; subst.
    + rewrite Hx in Hx'. injection Hx' as ->. contradiction.
    + rewrite Hx in Hx'. injection Hx' as <-. now apply IH.
Qed.

Lemma Rooted_range (l : list Z) (x r : Z) :
  Rooted l x r -> 0 <= x < lengthZ l /\ 0 <= r < lengthZ l.
Proof.
  induction 1 as [x Hx|x y r Hx _ _ [_ IH]].
  - apply lookupZ_Some_range in Hx. tauto.
  - apply lookupZ_Some_range in Hx. tauto.
Qed.

(** Path compression keeps every vertex rooted where it was. *)
Lemma compress_Rooted (l : list Z) (x r : Z) :
  Rooted l x r ->
  forall y s, Rooted l y s -> Rooted (updateZ l x r) y s.
Proof.
  intros Hxr y s Hys.
  pose proof (Rooted_range _ _ _ Hxr) as [Hx _].
  induction Hys as [y Hy|y z s Hy Hz Hzs IH].
  - destruct (Z.eq_dec y x) as [->|Hne].
    + assert (r = x) as -> by (symmetry; eapply Rooted_det; [constructor|]; eassumption).
      constructor. now apply lookupZ_updateZ_eq.
    + constructor. rewrite lookupZ_updateZ_ne by congruence. exact Hy.
  - destruct (Z.eq_dec y x) as [->|Hne].
    + assert (s = r) as ->.
      { eapply Rooted_det; [|exact Hxr]. econstructor; eassumption. }
      assert (r <> x) as Hrx.
      { intros ->. apply Rooted_is_root in Hxr. congruence. }
      apply Rooted_step with (y := r); [now apply lookupZ_updateZ_eq|exact Hrx|].
      constructor. rewrite lookupZ_updateZ_ne by congruence.
      eapply Rooted_is_root, Hxr.
    + apply Rooted_step with (y := z); [|exact Hz|exact IH].
      rewrite lookupZ_updateZ_ne by congruence. exact Hy.
Qed.

(** Linking one root under another keeps every vertex rooted. *)
Lemma link_Rooted (l : list Z) (a b : Z) :
  lookupZ l a = Some a -> lookupZ l b = Some b -> a <> b ->
  forall y s, Rooted l y s -> exists s', Rooted (updateZ l a b) y s'.
Proof.
  intros Ha Hb Hab y s Hys.
  assert (Rooted (updateZ l a b) b b) as Hbb.
  { constructor. rewrite lookupZ_updateZ_ne by congruence. exact Hb. }
  induction Hys as [y Hy|y z s Hy Hz _ [s' IH]].
  - destruct (Z.eq_dec y a) as [->|Hne].
    + exists b. apply Rooted_step with (y := b); [|congruence|exact Hbb].
      apply lookupZ_updateZ_eq. eapply lookupZ_Some_range, Ha.
    + exists y. constructor. rewrite lookupZ_updateZ_ne by congruence. exact Hy.
  - exists s'. apply Rooted_step with (y := z); [|exact Hz|exact IH].
    rewrite lookupZ_updateZ_ne; [exact Hy|]. intros <-. congruence.
Qed.

Lemma find_Rooted (l : list Z) (x r : Z) :
  lengthZ l <= 4294967296 -> Rooted l x r ->
  exists depth l',
    lengthZ l' = lengthZ l
    /\ (forall y s, Rooted l y s -> Rooted l' y s)
    /\ forall stack, (depth <= stack)%nat ->
         find stack (mkParent l Js.Undef) (Js.Num x)
         = Some (mkParent l' Js.Undef, Js.Num r).
Proof.
  intros Hlen H. induction H as [x Hx|x y r Hx Hy Hyr IH].
  - exists 1%nat, l. split; [reflexivity|]. split; [auto|].
    intros [|stack] Hs; [lia|]. cbn. rewrite Hx. cbn. now rewrite Z.eqb_refl.
  - destruct IH as (depth & l1 & Hl1 & Hkeep & Hfind).
    assert (Rooted l x r) as Hxr by (econstructor; eassumption).
    pose proof (Rooted_range _ _ _ Hxr) as [Hxin Hrin].
    exists (S depth), (updateZ l1 x r). split; [|split].
    + now rewrite length_updateZ.
    + intros z s Hzs. apply compress_Rooted; auto.
    + intros [|stack] Hs; [lia|]. cbn [find parentGet elems]. rewrite Hx.
      cbn [Js.value_eqb]. destruct (Z.eqb_spec y x) as [|_]; [contradiction|].
      rewrite Hfind by lia. cbn [parentSet elems expando toUint32].
      rewrite Z.mod_small by lia. cbn [parentGet elems].
      rewrite lookupZ_updateZ_eq by lia. reflexivity.
Qed.

Lemma union_forest (l : list Z) (a b : Z) :
  lengthZ l <= 4294967296 -> forest l ->
  0 <= a < lengthZ l -> 0 <= b < lengthZ l ->
  exists depth l',
    lengthZ l' = lengthZ l /\ forest l'
    /\ forall stack, (depth <= stack)%nat ->
         union stack (mkParent l Js.Undef) (Js.Num a) (Js.Num b)
         = Some (mkParent l' Js.Undef).
Proof.
  intros Hlen Hf Ha Hb.
  destruct (Hf a Ha) as [ra Hra]. destruct (Hf b Hb) as [rb Hrb].
  destruct (find_Rooted l a ra Hlen Hra) as (d1 & l1 & Hl1 & Hk1 & Hf1).
  assert (lengthZ l1 <= 4294967296) as Hlen1 by lia.
  destruct (find_Rooted l1 b rb Hlen1 (Hk1 _ _ Hrb)) as (d2 & l2 & Hl2 & Hk2 & Hf2).
  assert (forest l2) as Hforest2.
  { intros x Hx. destruct (Hf x) as [r Hr]; [lia|]. exists r. auto. }
  destruct (Z.eq_dec ra rb) as [Heq|Hne].
  - exists (Nat.max d1 d2), l2. split; [lia|]. split; [exact Hforest2|].
    intros stack Hs. unfold union. rewrite Hf1, Hf2 by lia.
    cbn. rewrite Heq, Z.eqb_refl. reflexivity.
  - pose proof (Rooted_range _ _ _ (Hk2 _ _ (Hk1 _ _ Hrb))) as [_ Hrbin].
    exists (Nat.max d1 d2), (updateZ l2 ra rb). split; [|split].
    + rewrite length_updateZ. lia.
    + intros x Hx. rewrite length_updateZ in Hx.
      destruct (Hforest2 x Hx) as [r Hr].
      eapply link_Rooted; [| |exact Hne|exact Hr].
      * eapply Rooted_is_root, Hk2, Hk1, Hra.
      * eapply Rooted_is_root, Hk2, Hk1, Hrb.
    + intros stack Hs. unfold union. rewrite Hf1, Hf2 by lia.
      cbn. destruct (Z.eqb_spec ra rb); [contradiction|].
      rewrite Z.mod_small by lia. reflexivity.
Qed.

Lemma unionTriangles_forest (tris : list (Z * Z * Z)) :
  forall l,
    lengthZ l <= 4294967296 -> forest l ->
    Forall (triangleInRange (lengthZ l)) tris ->
    exists depth l',
      lengthZ l' = lengthZ l /\ forest l'
      /\ forall stack, (depth <= stack)%nat ->
           unionTriangles stack (mkParent l Js.Undef) tris
           = Some (mkParent l' Js.Undef).
Proof.
  induction tris as [|[[i0 i1] i2] rest IH]; intros l Hlen Hf Hall.
  - exists 0%nat, l. repeat split; auto.
  - inversion Hall as [|? ? Htri Hrest]; subst.
    destruct Htri as (H0 & H1 & H2).
    destruct (union_forest l i0 i1 Hlen Hf H0 H1) as (d1 & l1 & Hl1 & Hf1 & Hu1).
    destruct (union_forest l1 i1 i2) as (d2 & l2 & Hl2 & Hf2 & Hu2); try lia; auto.
    destruct (IH l2) as (d3 & l3 & Hl3 & Hf3 & Hu3); try lia; auto.
    { replace (lengthZ l2) with (lengthZ l) by lia. exact Hrest. }
    exists (Nat.max d1 (Nat.max d2 d3)), l3. split; [lia|]. split; [exact Hf3|].
    intros stack Hs. cbn [unionTriangles].
    rewrite Hu1, Hu2 by lia. apply Hu3. lia.
Qed.

Lemma collectRoots_forest (used : list Z) :
  forall l roots,
    lengthZ l <= 4294967296 -> forest l ->
    Forall (fun v => 0 <= v < lengthZ l) used ->
    exists depth out,
      forall stack, (depth <= stack)%nat ->
        collectRoots stack (mkParent l Js.Undef) used roots = Some out.
Proof.
  induction used as [|v rest IH]; intros l roots Hlen Hf Hall.
  - exists 0%nat, roots. reflexivity.
  - inversion Hall as [|? ? Hv Hrest]; subst.
    destruct (Hf v Hv) as [r Hr].
    destruct (find_Rooted l v r Hlen Hr) as (d1 & l1 & Hl1 & Hk1 & Hf1).
    destruct (IH l1 (sadd Js.value_eqb (Js.Num r) roots)) as (d2 & out & Hc).
    + lia.
    + intros x Hx. destruct (Hf x) as [s Hs]; [lia|]. exists s. auto.
    + rewrite Hl1. exact Hrest.
    + exists (Nat.max d1 d2), out. intros stack Hs. cbn [collectRoots].
      rewrite Hf1 by lia. apply Hc. lia.
Qed.

Lemma In_triangles (indices : list Z) (a b c : Z) :
  In (a, b, c) (triangles indices) ->
  In a indices /\ In b indices /\ In c indices.
Proof.
  revert a b c.
  assert (forall n (l : list Z), (length l <= n)%nat ->
          forall a b c, In (a, b, c) (triangles l) -> In a l /\ In b l /\ In c l) as G.
  { induction n as [|n IH]; intros l Hl a b c H.
    - destruct l; [destruct H|cbn in Hl; lia].
    - destruct l as [|x [|y [|z rest]]]; simpl in H; try contradiction.
      destruct H as [H|H].
      + injection H as -> -> ->. cbn. tauto.
      + apply IH in H; [|cbn in Hl; lia]. cbn. tauto. }
  intros a b c. apply (G (length indices)). lia.
Qed.

Lemma In_usedVertices (indices : list Z) (n v : Z) :
  In v (usedVertices indices n) <-> In v indices /\ v < n.
Proof.
  unfold usedVertices.
  assert (forall l acc,
            In v (fold_left (fun used idx => if idx <? n then sadd Z.eqb idx used
                                             else used) l acc)
            <-> In v acc \/ (In v l /\ v < n)) as G.
  { induction l as [|x l IH]; intros acc; cbn [fold_left].
    - cbn. tauto.
    - rewrite IH. destruct (Z.ltb_spec x n) as [Hx|Hx].
      + rewrite In_sadd. cbn. split; intros H; intuition; subst; auto.
      + cbn. split; intros H; intuition; subst; lia. }
  rewrite G. cbn. tauto.
Qed.

Lemma forest_iota (n : nat) : forest (iota 0 n).
Proof.
  intros x Hx. unfold lengthZ in Hx. rewrite length_iota in Hx.
  exists x. constructor. now rewrite lookupZ_iota.
Qed.

Lemma countComponents_returns (positions : list float) (indices : list Z) :
  validMesh positions indices ->
  exists depth components,
    forall stack, (depth <= stack)%nat ->
      countComponents stack indices (lengthZ positions / 3) = Some components.
Proof.
  intros [_ _ Hfit _ Hrange].
  set (n := lengthZ positions / 3) in *.
  pose proof (lengthZ_nonneg positions) as Hpos.
  assert (0 <= n <= 4294967296) as Hn.
  { unfold n. split; [apply Z.div_pos; lia|].
    apply Z.div_le_upper_bound; lia. }
  assert (lengthZ (iota 0 (Z.to_nat n)) = n) as Hlen.
  { unfold lengthZ. rewrite length_iota. lia. }
  destruct (unionTriangles_forest (triangles indices) (iota 0 (Z.to_nat n)))
    as (d1 & l1 & Hl1 & Hf1 & Hu); [lia|apply forest_iota| |].
  { rewrite Hlen. apply Forall_forall. intros [[a b] c] Hin.
    apply In_triangles in Hin. rewrite Forall_forall in Hrange.
    destruct Hin as (Ha & Hb & Hc). cbn. auto. }
  destruct (collectRoots_forest (usedVertices indices n) l1 [])
    as (d2 & roots & Hc); [lia|exact Hf1| |].
  { apply Forall_forall. intros v Hv. apply In_usedVertices in Hv.
    rewrite Forall_forall in Hrange. destruct Hv as [Hv _].
    specialize (Hrange v Hv). lia. }
  exists (Nat.max d1 d2), (lengthZ roots). intros stack Hs.
  unfold countComponents, initialParent. rewrite Hu by lia.
  rewrite Hc by lia. reflexivity.
Qed.

(* ===================================================================== *)
(** ** Shape of the result                                                *)
(* ===================================================================== *)

Lemma MAX_SAFE_TRIANGLES_value : MAX_SAFE_TRIANGLES = 5592405.
Proof. reflexivity. Qed.

Lemma validMeshb_sound (positions : list float) (indices : list Z) :
  validMeshb positions indices = true -> validMesh positions indices.
Proof.
  unfold validMeshb. intros H.
  repeat (apply andb_prop in H; destruct H as [H ?]).
  constructor.
  - now apply Z.eqb_eq.
  - now apply Z.eqb_eq.
  - now apply Z.ltb_lt.
  - apply Forall_forall. intros x Hx. eapply forallb_forall in Hx; eauto.
  - apply Forall_forall. intros i Hi.
    match goal with F : forallb _ indices = true |- _ =>
      eapply forallb_forall in F; [|exact Hi] end.
    lia.
Qed.

Section ResultShape.

Variable Math_acos : float -> float.

Lemma computeMeshDiagnostics_normal (stack : nat) (positions : list float)
    (indices : list Z) (components : Z) :
  underCap indices ->
  countComponents stack indices (lengthZ positions / 3) = Some components ->
  computeMeshDiagnostics Math_acos stack positions indices
  = Some (fullDiagnostics Math_acos positions indices components).
Proof.
  intros Hcap Hc. unfold computeMeshDiagnostics, underCap in *.
  rewrite MAX_SAFE_TRIANGLES_value.
  destruct (Z.ltb_spec 5592405 (lengthZ indices / 3)); [lia|].
  now rewrite Hc.
Qed.

(** On a valid mesh under the cap the analysis returns the record of the
    full pipeline. *)
Lemma analysisReturns_full (positions : list float) (indices : list Z)
    (P : MeshDiagnostics -> Prop) :
  validMesh positions indices -> underCap indices ->
  (forall components, P (fullDiagnostics Math_acos positions indices components)) ->
  analysisReturns Math_acos positions indices P.
Proof.
  intros Hvalid Hcap HP.
  destruct (countComponents_returns positions indices Hvalid)
    as (depth & components & Hc).
  exists depth. intros stack Hs.
  exists (fullDiagnostics Math_acos positions indices components).
  split; [|apply HP].
  apply computeMeshDiagnostics_normal; auto.
Qed.

End ResultShape.

(* ===================================================================== *)
(** ** C1: the capacity cap                                               *)
(* ===================================================================== *)

(** C1.  When the triangle count exceeds 5,592,405 the analysis returns,
    for every call-stack depth (no pass that could fail is entered), the
    record that holds the two true counts and the bounding box, [-1] in
    every other integer count and in [windingConsistencyPercent],
    [windingCheckSkipped = true], no stat block, and [false] in the four
    derived booleans. *)
Theorem capacity_cap_short_circuits (Math_acos : float -> float) (stack : nat)
    (positions : list float) (indices : list Z) :
  lengthZ positions mod 3 = 0 -> lengthZ indices mod 3 = 0 ->
  5592405 < lengthZ indices / 3 ->
  computeMeshDiagnostics Math_acos stack positions indices
  = Some {| vertexCount := lengthZ positions / 3;
            triangleCount := lengthZ indices / 3;
            edgeCount := -1;
            boundaryEdgeCount := -1;
            nonManifoldEdgeCount := -1;
            nonManifoldVertexCount := -1;
            connectedComponents := -1;
            eulerCharacteristic := -1;
            degenerateTriangleCount := -1;
            windingInconsistentEdgeCount := -1;
            windingConsistencyPercent := (-1)%float;
            windingCheckSkipped := true;
            duplicateVertexCount := -1;
            tinyTriangleCount := -1;
            needleTriangleCount := -1;
            edgeLengthStats := None;
            aspectRatioStats := None;
            valenceDistribution := None;
            boundingBox := Some (computeBoundingBox positions);
            isolatedVertexCount := -1;
            sharpEdgeCount := -1;
            coplanarEdgeCount := -1;
            dihedralAngleStats := None;
            selfIntersectionCount := -1;
            tJunctionCount := -1;
            thinWallCount := -1;
            thinWallThreshold := 0.005%float;
            coincidentFaceCount := -1;
            isWatertight := false;
            isManifold := false;
            hasNonManifoldVertices := false;
            hasConsistentWinding := false |}.
Proof.
  intros _ _ Hcap. unfold computeMeshDiagnostics.
  rewrite MAX_SAFE_TRIANGLES_value.
  destruct (Z.ltb_spec 5592405 (lengthZ indices / 3)); [reflexivity|lia].
Qed.

Lemma capacity_cap_short_circuits_witness :
  let indices := repeat 0 (Z.to_nat 16777218) in
  5592405 < lengthZ indices / 3
  /\ computeMeshDiagnostics acosHost 0 [] indices
     = Some {| vertexCount := 0;
               triangleCount := 5592406;
               edgeCount := -1;
               boundaryEdgeCount := -1;
               nonManifoldEdgeCount := -1;
               nonManifoldVertexCount := -1;
               connectedComponents := -1;
               eulerCharacteristic := -1;
               degenerateTriangleCount := -1;
               windingInconsistentEdgeCount := -1;
               windingConsistencyPercent := (-1)%float;
               windingCheckSkipped := true;
               duplicateVertexCount := -1;
               tinyTriangleCount := -1;
               needleTriangleCount := -1;
               edgeLengthStats := None;
               aspectRatioStats := None;
               valenceDistribution := None;
               boundingBox := Some (computeBoundingBox []);
               isolatedVertexCount := -1;
               sharpEdgeCount := -1;
               coplanarEdgeCount := -1;
               dihedralAngleStats := None;
               selfIntersectionCount := -1;
               tJunctionCount := -1;
               thinWallCount := -1;
               thinWallThreshold := 0.005%float;
               coincidentFaceCount := -1;
               isWatertight := false;
               isManifold := false;
               hasNonManifoldVertices := false;
               hasConsistentWinding := false |}.
Proof.
  intros indices.
  assert (lengthZ indices = 16777218) as Hlen.
  { unfold indices, lengthZ. rewrite repeat_length. apply Z2Nat.id. lia. }
  split.
  - rewrite Hlen. reflexivity.
  - pose proof (capacity_cap_short_circuits acosHost 0 [] indices) as H.
    rewrite Hlen in H. apply H; reflexivity.
Defined.

(* ===================================================================== *)
(** ** C10: an index outside the position array                           *)
(* ===================================================================== *)

Lemma find_two_cycle (stack : nat) :
  find stack (mkParent [1; 0] Js.Undef) (Js.Num 0) = None
  /\ find stack (mkParent [1; 0] Js.Undef) (Js.Num 1) = None.
Proof.
  induction stack as [|stack [IH0 IH1]]; [split; reflexivity|].
  split; cbn; [now rewrite IH1|now rewrite IH0].
Qed.

(** C10, at the input [positions = (0,0,0), (1,0,0)], [indices = 0, 1, 5].
    The union of vertex 1 with the out-of-range index 5 stores [undefined]
    into [parent[1]], which the Uint32Array keeps as 0; [parent] is then
    the cycle 0 -> 1 -> 0, and the first [find] over the used vertices
    recurses until the call stack is exhausted, whatever its depth: the
    analysis does not return a record. *)
Theorem out_of_range_index_exhausts_stack (Math_acos : float -> float)
    (stack : nat) :
  computeMeshDiagnostics Math_acos stack [0; 0; 0; 1; 0; 0]%float [0; 1; 5] = None.
Proof.
  unfold computeMeshDiagnostics.
  replace (MAX_SAFE_TRIANGLES <? lengthZ [0; 1; 5] / 3) with false by reflexivity.
  replace (lengthZ [0; 0; 0; 1; 0; 0]%float / 3) with 2 by reflexivity.
  assert (countComponents stack [0; 1; 5] 2 = None) as ->; [|reflexivity].
  unfold countComponents.
  destruct stack as [|[|stack]]; [reflexivity|reflexivity|].
  replace (unionTriangles (S (S stack)) (initialParent 2) (triangles [0; 1; 5]))
    with (Some (mkParent [1; 0] Js.Undef)) by reflexivity.
  replace (usedVertices [0; 1; 5] 2) with [0; 1] by reflexivity.
  cbn [collectRoots]. now rewrite (proj1 (find_two_cycle _)).
Qed.

(* ===================================================================== *)
(** ** Counting loops                                                     *)
(* ===================================================================== *)

Lemma fold_count {A : Type} (f : A -> bool) (l : list A) :
  forall n, fold_left (fun n x => if f x then n + 1 else n) l n
            = n + lengthZ (filter f l).
Proof.
  induction l as [|x l IH]; intros n; cbn [fold_left filter].
  - unfold lengthZ. cbn. lia.
  - rewrite IH. destruct (f x); [rewrite lengthZ_cons|]; lia.
Qed.

Lemma length_triangles (indices : list Z) :
  lengthZ (triangles indices) = lengthZ indices / 3.
Proof.
  assert (forall n (l : list Z), (length l <= n)%nat ->
          lengthZ (triangles l) = lengthZ l / 3) as G.
  { induction n as [|n IH]; intros l Hl.
    - destruct l; [reflexivity|cbn in Hl; lia].
    - destruct l as [|x [|y [|z rest]]]; try reflexivity.
      cbn [triangles]. rewrite !lengthZ_cons, IH by (cbn in Hl; lia).
      replace (lengthZ rest + 1 + 1 + 1) with (lengthZ rest + 1 * 3) by lia.
      rewrite Z.div_add by lia. reflexivity. }
  apply (G (length indices)). lia.
Qed.

Lemma firstn_min_length {A : Type} (n : nat) (l : list A) :
  firstn (Nat.min (length l) n) l = firstn n l.
Proof.
  destruct (Nat.le_ge_cases n (length l)) as [H|H].
  - now rewrite Nat.min_r.
  - rewrite Nat.min_l by exact H. rewrite firstn_all. symmetry.
    now apply firstn_all2.
Qed.

(* ===================================================================== *)
(** ** C4: degenerate triangles                                           *)
(* ===================================================================== *)

Lemma sampleEdges_fold (positions : list float) (tris : list (Z * Z * Z)) :
  forall total n,
    fold_left
      (fun (acc : float * Z) (tri : Z * Z * Z) =>
         let '(totalEdgeLength, sampledEdges) := acc in
         let '(i0, i1, i2) := tri in
         let v0 := vertexAt positions i0 in
         let v1 := vertexAt positions i1 in
         let v2 := vertexAt positions i2 in
         let e1Len := dist3 v0 v1 in
         let e2Len := dist3 v0 v2 in
         let e3Len := dist3 v1 v2 in
         ((totalEdgeLength + (e1Len + e2Len + e3Len))%float, sampledEdges + 3))
      tris (total, n)
    = (fold_left (fun total tri => (total + perimeter positions tri)%float) tris total,
       n + 3 * lengthZ tris).
Proof.
  induction tris as [|[[i0 i1] i2] rest IH]; intros total n; cbn [fold_left].
  - unfold lengthZ. cbn. f_equal. lia.
  - rewrite IH, lengthZ_cons. unfold perimeter. f_equal. lia.
Qed.

Lemma avgEdgeLength_sampled (positions : list float) (indices : list Z) :
  avgEdgeLength positions indices = sampledAverage positions indices.
Proof.
  unfold avgEdgeLength, sampledAverage, sampleEdges.
  rewrite sampleEdges_fold. cbn [Z.add].
  pose proof (length_triangles indices) as HT.
  set (T := lengthZ indices / 3) in *.
  assert (firstn (Z.to_nat (Z.min T 1000)) (triangles indices)
          = firstn 1000 (triangles indices)) as ->.
  { rewrite <- (firstn_min_length 1000). f_equal. unfold lengthZ in HT. lia. }
  assert (lengthZ (firstn 1000 (triangles indices)) = Z.min T 1000) as Hn.
  { unfold lengthZ in *. rewrite length_firstn. lia. }
  rewrite Hn.
  destruct (Z.ltb_spec 0 T) as [Hpos|Hzero].
  - destruct (Z.ltb_spec 0 (3 * Z.min T 1000)); [reflexivity|lia].
  - destruct (Z.ltb_spec 0 (3 * Z.min T 1000)); [lia|reflexivity].
Qed.

(** C4, as stated, fails on the single triangle with vertices (0,0,0),
    (1,0,0), (0,2^-15,0): its squared area is 2^-32, its [4 A^2] is 2^-30,
    and the threshold [1e-8 * 0.1875 * l^2] is about 8.33e-10 in between.
    The engine reports one degenerate triangle, the claimed formula none. *)
Lemma degenerate_test_is_not_4A2 :
  validMesh degenerateExample [0; 1; 2]
  /\ underCap [0; 1; 2]
  /\ cellsFit degenerateExample [0; 1; 2]
  /\ option_map degenerateTriangleCount
       (computeMeshDiagnostics acosHost 4 degenerateExample [0; 1; 2]) = Some 1
  /\ claimedDegenerateCount degenerateExample [0; 1; 2] = 0.
Proof.
  split; [apply validMeshb_sound; vm_compute; reflexivity|].
  split; [vm_compute; discriminate|].
  split; [vm_compute; reflexivity|].
  split; vm_compute; reflexivity.
Qed.

(** C4, amended.  On a valid input under the cap whose grid cells fit (so
    that the loops of the self-intersection pass end) the analysis
    returns, given enough call stack, and [degenerateTriangleCount] is the
    number of triangles whose squared area [A^2 = 0.25 |n|^2] is below
    [0.1875 * l^2 * 1e-8], where [l] is the average edge length over the
    first [min(T, 1000)] triangles. *)
Theorem degenerate_count_uses_squared_area (Math_acos : float -> float)
    (positions : list float) (indices : list Z) :
  validMesh positions indices -> underCap indices ->
  cellsFit positions indices ->
  analysisReturns Math_acos positions indices (fun r =>
    let l := sampledAverage positions indices in
    degenerateTriangleCount r
    = lengthZ (filter (fun tri => (triangleAreaSq positions tri
                                   <? 0.1875 * l * l * 1e-8)%float)
                      (triangles indices))).
Proof.
  intros Hvalid Hcap _. apply analysisReturns_full; auto.
  intros components. cbn [degenerateTriangleCount fullDiagnostics].
  unfold countDegenerateTriangles. rewrite fold_count.
  unfold isDegenerate, areaThresholdSq. rewrite avgEdgeLength_sampled.
  reflexivity.
Qed.

Lemma degenerate_count_uses_squared_area_witness :
  validMesh degenerateExample [0; 1; 2]
  /\ underCap [0; 1; 2]
  /\ cellsFit degenerateExample [0; 1; 2]
  /\ analysisReturns acosHost degenerateExample [0; 1; 2] (fun r =>
       let l := sampledAverage degenerateExample [0; 1; 2] in
       degenerateTriangleCount r
       = lengthZ (filter (fun tri => (triangleAreaSq degenerateExample tri
                                      <? 0.1875 * l * l * 1e-8)%float)
                         (triangles [0; 1; 2]))).
Proof.
  assert (validMesh degenerateExample [0; 1; 2]) as Hvalid
    by (apply validMeshb_sound; vm_compute; reflexivity).
  assert (underCap [0; 1; 2]) as Hcap by (vm_compute; discriminate).
  assert (cellsFit degenerateExample [0; 1; 2]) as Hcells
    by (vm_compute; reflexivity).
  split; [exact Hvalid|]. split; [exact Hcap|]. split; [exact Hcells|].
  exact (degenerate_count_uses_squared_area acosHost degenerateExample [0; 1; 2]
           Hvalid Hcap Hcells).
Defined.

(* ===================================================================== *)
(** ** C9: tiny triangles                                                 *)
(* ===================================================================== *)

(** C9, at two triangles of areas 1 and 1/128.  The median of the two
    areas is 0.50390625 and one percent of it is below 1/128, so no
    triangle is tiny; the engine takes the upper of the two middle areas
    (1) as the median and reports one tiny triangle. *)
Theorem tiny_threshold_takes_upper_middle_area :
  validMesh tinyExample [0; 1; 2; 3; 4; 5]
  /\ option_map tinyTriangleCount
       (computeMeshDiagnostics acosHost 4 tinyExample [0; 1; 2; 3; 4; 5]) = Some 1
  /\ claimedTinyCount tinyExample [0; 1; 2; 3; 4; 5] = 0.
Proof.
  split; [apply validMeshb_sound; vm_compute; reflexivity|].
  split; vm_compute; reflexivity.
Qed.

(* ===================================================================== *)
(** ** The directed-edge count map                                        *)
(* ===================================================================== *)

Lemma occurrences_cons (k x : Z) (l : list Z) :
  occurrences k (x :: l) = (if k =? x then 1 else 0) + occurrences k l.
Proof.
  unfold occurrences. cbn [filter]. destruct (k =? x).
  - rewrite lengthZ_cons. lia.
  - lia.
Qed.

Lemma occurrences_nonneg (k : Z) (l : list Z) : 0 <= occurrences k l.
Proof. apply lengthZ_nonneg. Qed.

Lemma occurrences_pos (k : Z) (l : list Z) : In k l <-> 0 < occurrences k l.
Proof.
  induction l as [|x l IH].
  - cbn. unfold occurrences, lengthZ. cbn. lia.
  - rewrite occurrences_cons. pose proof (occurrences_nonneg k l). cbn [In].
    destruct (Z.eqb_spec k x) as [->|Hne]; [split; [lia|auto]|].
    rewrite IH. split; [intros [H'|H']; [congruence|lia]|right; lia].
Qed.

Lemma mincr_fold (ks : list Z) :
  forall m,
    NoDup (map fst m) ->
    let m' := fold_left (fun m k => mincr k m) ks m in
    NoDup (map fst m')
    /\ (forall k, countOf k m' = countOf k m + occurrences k ks)
    /\ (forall k, In k (map fst m') <-> In k (map fst m) \/ In k ks).
Proof.
  induction ks as [|x ks IH]; intros m Hnd; cbn [fold_left].
  - split; [exact Hnd|]. split.
    + intros k. unfold occurrences, lengthZ. cbn. lia.
    + intros k. cbn. tauto.
  - destruct (IH (mincr x m)) as (Hnd' & Hcount & Hkeys).
    { apply NoDup_keys_mset, Hnd. }
    split; [exact Hnd'|]. split.
    + intros k. rewrite Hcount, occurrences_cons. unfold countOf, mincr.
      rewrite mget_mset. rewrite (Z.eqb_sym k x).
      destruct (Z.eqb_spec x k) as [->|Hne]; lia.
    + intros k. rewrite Hkeys. unfold mincr. rewrite keys_mset. unfold mhas.
      cbn [In]. destruct (mget Z.eqb x m) eqn:E.
      * assert (In x (map fst m)) by (apply mget_keys; eauto).
        split; intros H'; intuition; subst; auto.
      * rewrite in_app_iff. cbn. split; intros H'; intuition.
Qed.

Lemma directedEdgeCounts_as_fold (indices : list Z) :
  directedEdgeCounts indices
  = fold_left (fun m k => mincr k m) (directedKeys indices) [].
Proof.
  unfold directedEdgeCounts, directedKeys, directedEdges.
  generalize (@nil (Z * Z)). induction (triangles indices) as [|[[v0 v1] v2] rest IH];
    intros m; cbn [fold_left flat_map map app trianglePairs].
  - reflexivity.
  - apply IH.
Qed.

Lemma directedEdgeCounts_spec (indices : list Z) :
  let counts := directedEdgeCounts indices in
  NoDup (map fst counts)
  /\ (forall k, countOf k counts = occurrences k (directedKeys indices))
  /\ (forall k, In k (map fst counts) <-> In k (directedKeys indices)).
Proof.
  cbn zeta. rewrite directedEdgeCounts_as_fold.
  destruct (mincr_fold (directedKeys indices) [] (NoDup_nil Z)) as (H1 & H2 & H3).
  split; [exact H1|]. split.
  - intros k. rewrite H2. unfold countOf. cbn. lia.
  - intros k. rewrite H3. cbn. tauto.
Qed.

(* ===================================================================== *)
(** ** Edge keys below 2^26                                               *)
(* ===================================================================== *)

Lemma numericEdgeKey_canonical (a b : Z) :
  numericEdgeKey a b
  = numericDirectedEdgeKey (fst (canonical (a, b))) (snd (canonical (a, b))).
Proof.
  unfold numericEdgeKey, numericDirectedEdgeKey, canonical. cbn [fst snd].
  destruct (Z.ltb_spec a b); [rewrite Z.min_l, Z.max_r|rewrite Z.min_r, Z.max_l]; lia.
Qed.

Lemma decode_directed (a b : Z) :
  0 <= b < MAX_VERTEX_FOR_NUMERIC_KEY ->
  decodeEdgeKey (numericDirectedEdgeKey a b) = (a, b).
Proof.
  intros Hb. unfold decodeEdgeKey, numericDirectedEdgeKey.
  rewrite Z.add_comm, Z.div_add, Z.mod_add by (unfold MAX_VERTEX_FOR_NUMERIC_KEY; lia).
  rewrite Z.div_small, Z.mod_small by lia. reflexivity.
Qed.

Lemma directed_key_inj (a b a' b' : Z) :
  0 <= b < MAX_VERTEX_FOR_NUMERIC_KEY -> 0 <= b' < MAX_VERTEX_FOR_NUMERIC_KEY ->
  numericDirectedEdgeKey a b = numericDirectedEdgeKey a' b' -> a = a' /\ b = b'.
Proof.
  unfold numericDirectedEdgeKey, MAX_VERTEX_FOR_NUMERIC_KEY. lia.
Qed.

Lemma In_directedEdges_range (indices : list Z) (a b : Z) :
  keysFit indices -> In (a, b) (directedEdges indices) ->
  0 <= a < MAX_VERTEX_FOR_NUMERIC_KEY /\ 0 <= b < MAX_VERTEX_FOR_NUMERIC_KEY.
Proof.
  unfold keysFit, directedEdges. rewrite Forall_forall. intros Hfit Hin.
  apply in_flat_map in Hin. destruct Hin as ([[i0 i1] i2] & Htri & Hin).
  apply In_triangles in Htri. destruct Htri as (H0 & H1 & H2).
  cbn in Hin. destruct Hin as [[= <- <-]|[[= <- <-]|[[= <- <-]|[]]]]; auto.
Qed.

Lemma occurrences_directed (indices : list Z) (a b : Z) :
  keysFit indices -> 0 <= b < MAX_VERTEX_FOR_NUMERIC_KEY ->
  occurrences (numericDirectedEdgeKey a b) (directedKeys indices)
  = traversals indices a b.
Proof.
  intros Hfit Hb. unfold occurrences, traversals, directedKeys, lengthZ.
  f_equal. assert (forall l, (forall x y, In (x, y) l ->
                     0 <= y < MAX_VERTEX_FOR_NUMERIC_KEY) ->
    length (filter (Z.eqb (numericDirectedEdgeKey a b))
              (map (fun e => numericDirectedEdgeKey (fst e) (snd e)) l))
    = length (filter (fun e => pair_eqb e (a, b)) l)) as G.
  { induction l as [|[x y] l IH]; intros Hl; [reflexivity|].
    cbn [map filter fst snd].
    assert (Z.eqb (numericDirectedEdgeKey a b) (numericDirectedEdgeKey x y)
            = pair_eqb (x, y) (a, b)) as ->.
    { destruct (pair_eqb (x, y) (a, b)) eqn:E.
      - apply pair_eqb_eq in E. injection E as -> ->. apply Z.eqb_refl.
      - apply Z.eqb_neq. intros Hk. apply directed_key_inj in Hk; auto.
        + destruct Hk as [-> ->]. rewrite (proj2 (pair_eqb_eq _ _) eq_refl) in E.
          discriminate.
        + apply (Hl x y). now left. }
    destruct (pair_eqb (x, y) (a, b)); cbn [length]; rewrite IH; auto;
      intros x' y' H'; apply (Hl x' y'); now right. }
  apply G. intros x y Hin. eapply In_directedEdges_range; eauto.
Qed.

(* ===================================================================== *)
(** ** The winding scan                                                   *)
(* ===================================================================== *)

Section FirstSeen.

Context {E : Type}.
Variable u : E -> Z.

Lemma firstSeen_In (l : list E) :
  forall checked e,
    In e (firstSeen u checked l) -> In e l /\ ~ In (u e) checked.
Proof.
  induction l as [|x l IH]; intros checked e H; cbn [firstSeen] in H.
  - destruct H.
  - destruct (shas Z.eqb (u x) checked) eqn:Hx.
    + apply IH in H. cbn. tauto.
    + apply shas_false in Hx. destruct H as [->|H].
      * cbn. tauto.
      * apply IH in H. destruct H as [Hin Hnot]. split; [now right|].
        intros Hc. apply Hnot. apply In_sadd. now right.
Qed.

Lemma firstSeen_NoDup (l : list E) :
  forall checked, NoDup (map u (firstSeen u checked l)).
Proof.
  induction l as [|x l IH]; intros checked; cbn [firstSeen].
  - constructor.
  - destruct (shas Z.eqb (u x) checked); [apply IH|].
    cbn [map]. constructor; [|apply IH].
    intros Hin. apply in_map_iff in Hin. destruct Hin as (e & He & Hin).
    apply firstSeen_In in Hin. destruct Hin as [_ Hnot].
    apply Hnot. apply In_sadd. now left.
Qed.

Lemma firstSeen_complete (l : list E) :
  forall checked e,
    In e l ->
    In (u e) checked \/ exists e', In e' (firstSeen u checked l) /\ u e' = u e.
Proof.
  induction l as [|x l IH]; intros checked e H; [destruct H|].
  cbn [firstSeen]. destruct (shas Z.eqb (u x) checked) eqn:Hx.
  - destruct H as [->|H]; [left; now apply shas_In|]. now apply IH.
  - destruct H as [->|H].
    + right. exists e. split; [now left|reflexivity].
    + destruct (IH (sadd Z.eqb (u x) checked) e H) as [Hc|(e' & He' & Hu)].
      * apply In_sadd in Hc. destruct Hc as [Hc|Hc]; [|now left].
        right. exists x. split; [now left|congruence].
      * right. exists e'. split; [now right|exact Hu].
Qed.

End FirstSeen.

Lemma windingStep_spec (counts : list (Z * Z)) (st : WindingState) (e : Z * Z) :
  windingStep counts st e
  = if shas Z.eqb (undirectedKeyOf (fst e)) (checkedEdges st) then st
    else mkWindingState
           (sadd Z.eqb (undirectedKeyOf (fst e)) (checkedEdges st))
           (manifoldEdges st + (if entryIsManifold counts e then 1 else 0))
           (inconsistentEdges st + (if entryIsInconsistent counts e then 1 else 0)).
Proof.
  destruct e as [k fwd].
  unfold windingStep, entryIsInconsistent, entryIsManifold, undirectedKeyOf, countOf.
  cbn [fst snd].
  destruct (shas Z.eqb _ (checkedEdges st)); [reflexivity|].
  set (bwd := match mget Z.eqb _ counts with Some c => c | None => 0 end).
  destruct (Z.ltb_spec (fwd + bwd) 2), (Z.ltb_spec 2 (fwd + bwd)),
    (Z.eqb_spec (fwd + bwd) 2); try lia; cbn [andb];
    try (f_equal; lia).
  destruct (negb (fwd =? 1) || negb (bwd =? 1)); f_equal; lia.
Qed.

Lemma windingScan_fold (counts : list (Z * Z)) (l : list (Z * Z)) :
  forall st,
    let kept := firstSeen (fun e => undirectedKeyOf (fst e)) (checkedEdges st) l in
    manifoldEdges (fold_left (windingStep counts) l st)
    = manifoldEdges st + lengthZ (filter (entryIsManifold counts) kept)
    /\ inconsistentEdges (fold_left (windingStep counts) l st)
       = inconsistentEdges st + lengthZ (filter (entryIsInconsistent counts) kept).
Proof.
  induction l as [|e l IH]; intros st; cbn [fold_left firstSeen].
  - unfold lengthZ. cbn. lia.
  - cbn zeta. rewrite windingStep_spec.
    destruct (shas Z.eqb (undirectedKeyOf (fst e)) (checkedEdges st)).
    + apply IH.
    + match goal with |- context [fold_left _ l ?s] => specialize (IH s) end.
      cbn [checkedEdges manifoldEdges inconsistentEdges] in IH.
      destruct IH as [IHm IHi]. rewrite IHm, IHi. cbn [filter].
      destruct (entryIsManifold counts e), (entryIsInconsistent counts e);
        rewrite ?lengthZ_cons; lia.
Qed.

Section WindingCharacterised.

Variable indices : list Z.
Hypothesis Hfit : keysFit indices.

Lemma traversal_sum_canonical (a b : Z) :
  manifoldForWinding indices (canonical (a, b))
  = (traversals indices a b + traversals indices b a =? 2).
Proof.
  unfold manifoldForWinding, canonical. cbn [fst snd].
  destruct (Z.le_ge_cases a b).
  - now rewrite Z.min_l, Z.max_r by lia.
  - rewrite Z.min_r, Z.max_l by lia. now rewrite Z.add_comm.
Qed.

Lemma inconsistent_canonical (a b : Z) :
  woundInconsistently indices (canonical (a, b))
  = ((traversals indices a b + traversals indices b a =? 2)
     && (negb (traversals indices a b =? 1) || negb (traversals indices b a =? 1))).
Proof.
  unfold woundInconsistently. rewrite traversal_sum_canonical.
  unfold canonical. cbn [fst snd]. rewrite negb_andb.
  destruct (Z.le_ge_cases a b).
  - now rewrite Z.min_l, Z.max_r by lia.
  - rewrite Z.min_r, Z.max_l by lia. f_equal. apply orb_comm.
Qed.

(** What an entry of the directed-edge count map stands for. *)
Lemma entry_of_counts (e : Z * Z) :
  In e (directedEdgeCounts indices) ->
  exists a b,
    In (a, b) (directedEdges indices)
    /\ edgeOfEntry e = canonical (a, b)
    /\ undirectedKeyOf (fst e) = numericEdgeKey a b
    /\ entryIsManifold (directedEdgeCounts indices) e
       = manifoldForWinding indices (canonical (a, b))
    /\ entryIsInconsistent (directedEdgeCounts indices) e
       = woundInconsistently indices (canonical (a, b)).
Proof.
  intros He. destruct (directedEdgeCounts_spec indices) as (Hnd & Hcount & Hkeys).
  destruct e as [k c].
  assert (In k (directedKeys indices)) as Hk.
  { apply Hkeys. change k with (fst (k, c)). now apply in_map. }
  unfold directedKeys in Hk. apply in_map_iff in Hk.
  destruct Hk as ([a b] & Hkab & Hab). cbn [fst snd] in Hkab. subst k.
  pose proof (In_directedEdges_range indices a b Hfit Hab) as [Ha Hb].
  assert (c = traversals indices a b) as ->.
  { pose proof (In_mget _ _ _ Hnd He) as Hget.
    specialize (Hcount (numericDirectedEdgeKey a b)). unfold countOf in Hcount.
    rewrite Hget in Hcount. rewrite Hcount. now apply occurrences_directed. }
  pose proof (decode_directed a b Hb) as Hdec. unfold decodeEdgeKey in Hdec.
  injection Hdec as Hdiv Hmod.
  exists a, b. split; [exact Hab|]. split; [|split; [|split]].
  - unfold edgeOfEntry. cbn [fst]. now rewrite decode_directed.
  - unfold undirectedKeyOf. cbn [fst]. now rewrite Hdiv, Hmod.
  - unfold entryIsManifold. cbn [fst snd]. rewrite Hdiv, Hmod, Hcount.
    rewrite occurrences_directed by auto. now rewrite traversal_sum_canonical.
  - unfold entryIsInconsistent, entryIsManifold. cbn [fst snd].
    rewrite Hdiv, Hmod, Hcount. rewrite occurrences_directed by auto.
    now rewrite inconsistent_canonical.
Qed.

Lemma canonical_range (a b : Z) :
  0 <= a < MAX_VERTEX_FOR_NUMERIC_KEY -> 0 <= b < MAX_VERTEX_FOR_NUMERIC_KEY ->
  0 <= snd (canonical (a, b)) < MAX_VERTEX_FOR_NUMERIC_KEY.
Proof. unfold canonical. cbn [fst snd]. lia. Qed.

Lemma canonical_key_inj (a b a' b' : Z) :
  0 <= a < MAX_VERTEX_FOR_NUMERIC_KEY -> 0 <= b < MAX_VERTEX_FOR_NUMERIC_KEY ->
  0 <= a' < MAX_VERTEX_FOR_NUMERIC_KEY -> 0 <= b' < MAX_VERTEX_FOR_NUMERIC_KEY ->
  numericEdgeKey a b = numericEdgeKey a' b' -> canonical (a, b) = canonical (a', b').
Proof.
  intros Ha Hb Ha' Hb' H. rewrite !numericEdgeKey_canonical in H.
  apply directed_key_inj in H; try (apply canonical_range; assumption).
  destruct H as [H1 H2]. destruct (canonical (a, b)), (canonical (a', b')).
  cbn in *. congruence.
Qed.

(** The entries the scan keeps enumerate the undirected edges, each once. *)
Lemma kept_entries_enumerate_edges :
  let kept := firstSeen (fun e => undirectedKeyOf (fst e)) []
                        (directedEdgeCounts indices) in
  Permutation (map edgeOfEntry kept) (undirectedEdges indices).
Proof.
  cbn zeta. set (u := fun e : Z * Z => undirectedKeyOf (fst e)).
  set (kept := firstSeen u [] (directedEdgeCounts indices)).
  destruct (directedEdgeCounts_spec indices) as (Hnd & Hcount & Hkeys).
  assert (forall e, In e kept -> In e (directedEdgeCounts indices)) as Hsub.
  { intros e He. now apply firstSeen_In in He. }
  apply NoDup_Permutation.
  - (* duplicate-free: different kept entries have different undirected keys *)
    apply (NoDup_map_inv (fun p => numericDirectedEdgeKey (fst p) (snd p))).
    rewrite map_map.
    rewrite (map_ext_in _ u).
    + apply firstSeen_NoDup.
    + intros e He. destruct (entry_of_counts e (Hsub e He)) as (a & b & _ & Hedge & Hu & _).
      unfold u. rewrite Hu, Hedge. symmetry. apply numericEdgeKey_canonical.
  - apply NoDup_distinct. exact pair_eqb_eq.
  - intros p. unfold undirectedEdges. rewrite (In_distinct _ pair_eqb_eq).
    rewrite !in_map_iff. split.
    + intros (e & Hp & He). destruct (entry_of_counts e (Hsub e He))
        as (a & b & Hab & Hedge & _). exists (a, b). split; [congruence|exact Hab].
    + intros ([a b] & Hp & Hab).
      pose proof (In_directedEdges_range indices a b Hfit Hab) as [Ha Hb].
      assert (In (numericDirectedEdgeKey a b) (map fst (directedEdgeCounts indices))) as Hk.
      { apply Hkeys. unfold directedKeys. apply in_map_iff. now exists (a, b). }
      apply in_map_iff in Hk. destruct Hk as (e & Hfst & He).
      destruct (firstSeen_complete u (directedEdgeCounts indices) [] e He)
        as [[]|(e' & He' & Hu)].
      exists e'. split; [|exact He'].
      destruct (entry_of_counts e' (Hsub e' He')) as (a' & b' & Hab' & Hedge' & Hu' & _).
      pose proof (In_directedEdges_range indices a' b' Hfit Hab') as [Ha' Hb'].
      rewrite Hedge', <- Hp. apply canonical_key_inj; auto.
      rewrite <- Hu'. unfold u in Hu. rewrite Hu, Hfst.
      unfold undirectedKeyOf. pose proof (decode_directed a b Hb) as Hdec.
      unfold decodeEdgeKey in Hdec. injection Hdec as -> ->. reflexivity.
Qed.

(** The two counters of the winding scan, in terms of the undirected edges
    and their directed traversal counts. *)
Lemma windingScan_counts :
  manifoldEdges (windingScan indices)
  = lengthZ (filter (manifoldForWinding indices) (undirectedEdges indices))
  /\ inconsistentEdges (windingScan indices)
     = lengthZ (filter (woundInconsistently indices) (undirectedEdges indices)).
Proof.
  unfold windingScan.
  destruct (windingScan_fold (directedEdgeCounts indices) (directedEdgeCounts indices)
              (mkWindingState [] 0 0)) as [Hm Hi].
  cbn [checkedEdges manifoldEdges inconsistentEdges] in Hm, Hi.
  set (kept := firstSeen (fun e => undirectedKeyOf (fst e)) []
                         (directedEdgeCounts indices)) in *.
  assert (forall e, In e kept -> In e (directedEdgeCounts indices)) as Hsub.
  { intros e He. now apply firstSeen_In in He. }
  assert (forall (f : list (Z * Z) -> Z * Z -> bool) (g : Z * Z -> bool),
            (forall e, In e kept -> f (directedEdgeCounts indices) e = g (edgeOfEntry e)) ->
            lengthZ (filter (f (directedEdgeCounts indices)) kept)
            = lengthZ (filter g (undirectedEdges indices))) as G.
  { intros f g Hfg.
    rewrite <- (filter_length_Permutation g _ _ kept_entries_enumerate_edges).
    fold kept. unfold lengthZ. f_equal.
    clear -Hfg. induction kept as [|e l IH]; [reflexivity|].
    cbn [map filter]. rewrite Hfg by now left.
    destruct (g (edgeOfEntry e)); cbn [length]; rewrite IH; auto;
      intros e' He'; apply Hfg; now right. }
  rewrite Hm, Hi. split; (rewrite Z.add_0_l; apply G; intros e He;
    destruct (entry_of_counts e (Hsub e He)) as (a & b & _ & Hedge & _ & Hman & Hinc);
    rewrite Hedge; assumption).
Qed.

End WindingCharacterised.

(* ===================================================================== *)
(** ** C2 and C6: winding consistency                                     *)
(* ===================================================================== *)

Lemma keysFit_small (indices : list Z) :
  forallb (fun i => (0 <=? i) && (i <? MAX_VERTEX_FOR_NUMERIC_KEY)) indices = true ->
  keysFit indices.
Proof.
  intros H. apply Forall_forall. intros i Hi.
  eapply forallb_forall in H; [|exact Hi]. lia.
Qed.

Lemma detectWindingConsistency_underCap (indices : list Z) :
  underCap indices ->
  detectWindingConsistency indices
  = mkWindingResult (inconsistentEdges (windingScan indices))
      (percentOf (manifoldEdges (windingScan indices))
                 (inconsistentEdges (windingScan indices))) None.
Proof.
  intros Hcap. unfold detectWindingConsistency, underCap in *.
  rewrite MAX_SAFE_TRIANGLES_value.
  destruct (Z.ltb_spec 5592405 (lengthZ indices / 3)); [lia|reflexivity].
Qed.

Lemma widePositions_length : lengthZ widePositions = 3 * 67108865.
Proof.
  unfold widePositions, lengthZ. rewrite repeat_length. apply Z2Nat.id. lia.
Qed.

Lemma Forall_repeat {A : Type} (P : A -> Prop) (x : A) (n : nat) :
  P x -> Forall P (repeat x n).
Proof. intros H. induction n; cbn; constructor; auto. Qed.

Lemma wide_mesh_is_valid : validMesh widePositions wideIndices.
Proof.
  constructor.
  - rewrite widePositions_length. reflexivity.
  - reflexivity.
  - rewrite widePositions_length. reflexivity.
  - apply Forall_repeat. reflexivity.
  - rewrite widePositions_length. unfold wideIndices.
    repeat constructor; cbn; lia.
Qed.

(** C2, as stated, fails once a vertex index reaches 2^26: the directed
    keys of the edges 0 -> 2^26 and 1 -> 0 coincide.  No undirected edge of
    the two triangles [wideIndices] is traversed twice, so by the claim no
    edge is inconsistent and the percentage is 100; the engine reports one
    inconsistent edge, 0 percent and an inconsistent winding. *)
Lemma winding_keys_collide_at_2_26 :
  validMesh widePositions wideIndices
  /\ underCap wideIndices
  /\ lengthZ (filter (manifoldForWinding wideIndices) (undirectedEdges wideIndices)) = 0
  /\ lengthZ (filter (woundInconsistently wideIndices) (undirectedEdges wideIndices)) = 0
  /\ analysisReturns acosHost widePositions wideIndices (fun r =>
       windingInconsistentEdgeCount r = 1
       /\ windingConsistencyPercent r = 0%float
       /\ windingCheckSkipped r = false
       /\ hasConsistentWinding r = false).
Proof.
  split; [exact wide_mesh_is_valid|].
  split; [vm_compute; discriminate|].
  split; [vm_compute; reflexivity|].
  split; [vm_compute; reflexivity|].
  apply analysisReturns_full; [exact wide_mesh_is_valid|vm_compute; discriminate|].
  intros components.
  cbn [windingInconsistentEdgeCount windingConsistencyPercent windingCheckSkipped
       hasConsistentWinding fullDiagnostics].
  repeat split; vm_compute; reflexivity.
Qed.

(** C2, amended by the bound on the vertex indices.  On a valid input
    under the cap whose indices are all below 2^26 and whose grid cells
    fit (so that the loops of the self-intersection pass end) the analysis
    returns, given enough call stack, and with [f = traversals a b], [g = traversals b a] for an undirected
    edge [{a, b}]: the manifold-for-winding edges are those with
    [f + g = 2]; [windingInconsistentEdgeCount] is the number of them whose
    counts are not [{1, 1}]; [windingConsistencyPercent] is
    [(manifold - inconsistent) / manifold * 100], or 100 without such
    edges; the check is not skipped and [hasConsistentWinding] is
    [windingConsistencyPercent >= 99.5]. *)
Theorem winding_consistency_characterised (Math_acos : float -> float)
    (positions : list float) (indices : list Z) :
  validMesh positions indices -> underCap indices -> keysFit indices ->
  cellsFit positions indices ->
  analysisReturns Math_acos positions indices (fun r =>
    let edges := undirectedEdges indices in
    let manifold := lengthZ (filter (manifoldForWinding indices) edges) in
    let inconsistent := lengthZ (filter (woundInconsistently indices) edges) in
    (forall e, manifoldForWinding indices e = true
               <-> traversals indices (fst e) (snd e)
                   + traversals indices (snd e) (fst e) = 2)
    /\ (forall e, woundInconsistently indices e = true
                  <-> manifoldForWinding indices e = true
                      /\ ~ (traversals indices (fst e) (snd e) = 1
                            /\ traversals indices (snd e) (fst e) = 1))
    /\ windingInconsistentEdgeCount r = inconsistent
    /\ windingConsistencyPercent r
       = (if 0 <? manifold
          then (Js.ofZ (manifold - inconsistent) / Js.ofZ manifold * 100)%float
          else 100%float)
    /\ windingCheckSkipped r = false
    /\ hasConsistentWinding r
       = negb (windingCheckSkipped r)
         && Js.ge (windingConsistencyPercent r) 99.5%float).
Proof.
  intros Hvalid Hcap Hfit _. apply analysisReturns_full; auto.
  intros components. cbn zeta.
  cbn [windingInconsistentEdgeCount windingConsistencyPercent windingCheckSkipped
       hasConsistentWinding fullDiagnostics].
  rewrite detectWindingConsistency_underCap by exact Hcap.
  cbn [inconsistentEdgeCount consistencyPercent skipped].
  destruct (windingScan_counts indices Hfit) as [-> ->].
  split; [|split].
  - intros e. unfold manifoldForWinding. apply Z.eqb_eq.
  - intros e. unfold woundInconsistently.
    rewrite andb_true_iff, negb_true_iff, andb_false_iff, !Z.eqb_neq.
    split; intros [H1 H2]; (split; [exact H1|lia]).
  - repeat split.
Qed.

Lemma winding_consistency_characterised_witness :
  validMesh sameDirectionPositions sameDirectionIndices
  /\ underCap sameDirectionIndices
  /\ keysFit sameDirectionIndices
  /\ cellsFit sameDirectionPositions sameDirectionIndices
  /\ analysisReturns acosHost sameDirectionPositions sameDirectionIndices (fun r =>
       let edges := undirectedEdges sameDirectionIndices in
       let manifold := lengthZ (filter (manifoldForWinding sameDirectionIndices) edges) in
       let inconsistent := lengthZ (filter (woundInconsistently sameDirectionIndices) edges) in
       (forall e, manifoldForWinding sameDirectionIndices e = true
                  <-> traversals sameDirectionIndices (fst e) (snd e)
                      + traversals sameDirectionIndices (snd e) (fst e) = 2)
       /\ (forall e, woundInconsistently sameDirectionIndices e = true
                     <-> manifoldForWinding sameDirectionIndices e = true
                         /\ ~ (traversals sameDirectionIndices (fst e) (snd e) = 1
                               /\ traversals sameDirectionIndices (snd e) (fst e) = 1))
       /\ windingInconsistentEdgeCount r = inconsistent
       /\ windingConsistencyPercent r
          = (if 0 <? manifold
             then (Js.ofZ (manifold - inconsistent) / Js.ofZ manifold * 100)%float
             else 100%float)
       /\ windingCheckSkipped r = false
       /\ hasConsistentWinding r
          = negb (windingCheckSkipped r)
            && Js.ge (windingConsistencyPercent r) 99.5%float).
Proof.
  assert (validMesh sameDirectionPositions sameDirectionIndices) as Hvalid
    by (apply validMeshb_sound; vm_compute; reflexivity).
  assert (underCap sameDirectionIndices) as Hcap by (vm_compute; discriminate).
  assert (keysFit sameDirectionIndices) as Hfit
    by (apply keysFit_small; vm_compute; reflexivity).
  assert (cellsFit sameDirectionPositions sameDirectionIndices) as Hcells
    by (vm_compute; reflexivity).
  split; [exact Hvalid|]. split; [exact Hcap|]. split; [exact Hfit|].
  split; [exact Hcells|].
  exact (winding_consistency_characterised acosHost sameDirectionPositions
           sameDirectionIndices Hvalid Hcap Hfit Hcells).
Defined.

(** C6, as stated, fails on two triangles that share the edge 0 -> 1 in
    the same direction.  That edge is the only one with [f + g = 2]; were
    it excluded, no edge would be inconsistent and the percentage would be
    100.  The engine reports one inconsistent edge and 0 percent. *)
Lemma same_direction_edge_is_counted :
  validMesh sameDirectionPositions sameDirectionIndices
  /\ cellsFit sameDirectionPositions sameDirectionIndices
  /\ traversals sameDirectionIndices 0 1 = 2
  /\ traversals sameDirectionIndices 1 0 = 0
  /\ filter (manifoldForWinding sameDirectionIndices)
            (undirectedEdges sameDirectionIndices) = [(0, 1)]
  /\ option_map (fun r => (windingInconsistentEdgeCount r,
                           windingConsistencyPercent r,
                           hasConsistentWinding r))
       (computeMeshDiagnostics acosHost 4 sameDirectionPositions sameDirectionIndices)
     = Some (1, 0%float, false).
Proof.
  split; [apply validMeshb_sound; vm_compute; reflexivity|].
  repeat split; vm_compute; reflexivity.
Qed.

Lemma traversed_edge_is_listed (indices : list Z) (a b : Z) :
  0 < traversals indices a b ->
  In (canonical (a, b)) (undirectedEdges indices).
Proof.
  intros H. unfold undirectedEdges. rewrite (In_distinct _ pair_eqb_eq).
  apply in_map. unfold traversals in H.
  destruct (filter (fun e => pair_eqb e (a, b)) (directedEdges indices))
    as [|e l] eqn:E; [unfold lengthZ in H; cbn in H; lia|].
  assert (In e (filter (fun e => pair_eqb e (a, b)) (directedEdges indices))) as He
    by (rewrite E; now left).
  apply filter_In in He. destruct He as [He Heq].
  apply pair_eqb_eq in Heq. now subst.
Qed.

Lemma lengthZ_pos_of_In {A : Type} (x : A) (l : list A) : In x l -> 0 < lengthZ l.
Proof.
  destruct l; [intros []|]. intros _. rewrite lengthZ_cons.
  pose proof (lengthZ_nonneg l). lia.
Qed.

(** C6, amended.  On a valid input under the cap with indices below 2^26
    whose grid cells fit, the analysis returns (given enough call stack)
    and an undirected edge traversed twice in the same direction
    (directed counts [{2, 0}]) has [f + g = 2]: it is one of the
    manifold-for-winding edges (the denominator of the percentage) and one
    of the edges counted by [windingInconsistentEdgeCount], which is
    therefore positive.  Only edges with [f + g <> 2] are left out of
    both. *)
Theorem same_direction_edge_counts_as_inconsistent (Math_acos : float -> float)
    (positions : list float) (indices : list Z) (a b : Z) :
  validMesh positions indices -> underCap indices -> keysFit indices ->
  cellsFit positions indices ->
  traversals indices a b = 2 -> traversals indices b a = 0 ->
  analysisReturns Math_acos positions indices (fun r =>
    let edges := undirectedEdges indices in
    In (canonical (a, b)) (filter (manifoldForWinding indices) edges)
    /\ In (canonical (a, b)) (filter (woundInconsistently indices) edges)
    /\ windingInconsistentEdgeCount r
       = lengthZ (filter (woundInconsistently indices) edges)
    /\ windingConsistencyPercent r
       = percentOf (lengthZ (filter (manifoldForWinding indices) edges))
                   (windingInconsistentEdgeCount r)
    /\ 0 < windingInconsistentEdgeCount r
    /\ (forall e, In e (filter (manifoldForWinding indices) edges)
                  -> traversals indices (fst e) (snd e)
                     + traversals indices (snd e) (fst e) = 2)).
Proof.
  intros Hvalid Hcap Hfit _ Hf Hg. apply analysisReturns_full; auto.
  intros components. cbn zeta.
  cbn [windingInconsistentEdgeCount windingConsistencyPercent fullDiagnostics].
  rewrite detectWindingConsistency_underCap by exact Hcap.
  cbn [inconsistentEdgeCount consistencyPercent].
  destruct (windingScan_counts indices Hfit) as [-> ->].
  assert (In (canonical (a, b)) (undirectedEdges indices)) as Hin
    by (apply traversed_edge_is_listed; lia).
  assert (In (canonical (a, b))
             (filter (woundInconsistently indices) (undirectedEdges indices))) as Hinc.
  { apply filter_In. split; [exact Hin|].
    rewrite inconsistent_canonical, Hf, Hg. reflexivity. }
  split; [|split; [exact Hinc|]].
  - apply filter_In. split; [exact Hin|].
    rewrite traversal_sum_canonical, Hf, Hg. reflexivity.
  - split; [reflexivity|]. split; [reflexivity|]. split.
    + eapply lengthZ_pos_of_In, Hinc.
    + intros e He. apply filter_In in He. destruct He as [_ He].
      unfold manifoldForWinding in He. now apply Z.eqb_eq.
Qed.

Lemma same_direction_edge_counts_as_inconsistent_witness :
  validMesh sameDirectionPositions sameDirectionIndices
  /\ underCap sameDirectionIndices
  /\ keysFit sameDirectionIndices
  /\ cellsFit sameDirectionPositions sameDirectionIndices
  /\ traversals sameDirectionIndices 0 1 = 2
  /\ traversals sameDirectionIndices 1 0 = 0
  /\ analysisReturns acosHost sameDirectionPositions sameDirectionIndices (fun r =>
       let edges := undirectedEdges sameDirectionIndices in
       In (canonical (0, 1)) (filter (manifoldForWinding sameDirectionIndices) edges)
       /\ In (canonical (0, 1)) (filter (woundInconsistently sameDirectionIndices) edges)
       /\ windingInconsistentEdgeCount r
          = lengthZ (filter (woundInconsistently sameDirectionIndices) edges)
       /\ windingConsistencyPercent r
          = percentOf (lengthZ (filter (manifoldForWinding sameDirectionIndices) edges))
                      (windingInconsistentEdgeCount r)
       /\ 0 < windingInconsistentEdgeCount r
       /\ (forall e, In e (filter (manifoldForWinding sameDirectionIndices) edges)
                     -> traversals sameDirectionIndices (fst e) (snd e)
                        + traversals sameDirectionIndices (snd e) (fst e) = 2)).
Proof.
  assert (validMesh sameDirectionPositions sameDirectionIndices) as Hvalid
    by (apply validMeshb_sound; vm_compute; reflexivity).
  assert (underCap sameDirectionIndices) as Hcap by (vm_compute; discriminate).
  assert (keysFit sameDirectionIndices) as Hfit
    by (apply keysFit_small; vm_compute; reflexivity).
  assert (traversals sameDirectionIndices 0 1 = 2) as Hf by (vm_compute; reflexivity).
  assert (traversals sameDirectionIndices 1 0 = 0) as Hg by (vm_compute; reflexivity).
  assert (cellsFit sameDirectionPositions sameDirectionIndices) as Hcells
    by (vm_compute; reflexivity).
  split; [exact Hvalid|]. split; [exact Hcap|]. split; [exact Hfit|].
  split; [exact Hcells|]. split; [exact Hf|]. split; [exact Hg|].
  exact (same_direction_edge_counts_as_inconsistent acosHost sameDirectionPositions
           sameDirectionIndices 0 1 Hvalid Hcap Hfit Hcells Hf Hg).
Defined.

(* ===================================================================== *)
(** ** C8: translation                                                    *)
(* ===================================================================== *)




(* ===================================================================== *)
(** ** C3: overlay lengths                                                *)
(* ===================================================================== *)

Lemma lengthZ_Float32Array (numbers : list float) :
  lengthZ (Float32Array numbers) = lengthZ numbers.
Proof. unfold Float32Array, lengthZ. now rewrite length_map. Qed.

Lemma length_xyz (p : P3) : lengthZ (xyz p) = 3.
Proof. destruct p as [[x y] z]. reflexivity. Qed.

Lemma edgeOverlay_lengths (positions : list float) (m : list (Z * list Z)) :
  forall b nm cb cnm,
    lengthZ b = 6 * cb -> lengthZ nm = 6 * cnm ->
    lengthZ (fst (fold_left (edgeOverlayStep positions) m (b, nm)))
    = 6 * fold_left (fun n (e : Z * list Z) =>
                       if lengthZ (snd e) =? 1 then n + 1 else n) m cb
    /\ lengthZ (snd (fold_left (edgeOverlayStep positions) m (b, nm)))
       = 6 * fold_left (fun n (e : Z * list Z) =>
                          if lengthZ (snd e) =? 1 then n
                          else if 2 <? lengthZ (snd e) then n + 1 else n) m cnm.
Proof.
  induction m as [|[k faces] m IH]; intros b nm cb cnm Hb Hnm; cbn [fold_left].
  - cbn. auto.
  - unfold edgeOverlayStep at 2 4. cbn [snd].
    destruct (decodeEdgeKey k) as [v0 v1].
    destruct (lengthZ faces =? 1).
    + apply IH; [|exact Hnm]. rewrite !lengthZ_app, !length_xyz. lia.
    + destruct (2 <? lengthZ faces).
      * apply IH; [exact Hb|]. rewrite !lengthZ_app, !length_xyz. lia.
      * apply IH; assumption.
Qed.

Lemma pinchOverlay_length (positions : list float) (indices : list Z) :
  lengthZ (pinchOverlay positions indices) = 3 * detectNonManifoldVertices indices.
Proof.
  unfold pinchOverlay, detectNonManifoldVertices.
  assert (forall (m : list (Z * list Z)) out n,
            lengthZ out = 3 * n ->
            lengthZ (fold_left (fun out (e : Z * list Z) =>
                       if isPinch indices (fst e) (snd e)
                       then out ++ xyz (vertexAt positions (fst e)) else out) m out)
            = 3 * fold_left (fun n (e : Z * list Z) =>
                       if isPinch indices (fst e) (snd e) then n + 1 else n) m n) as G.
  { induction m as [|e m IH]; intros out n H; cbn [fold_left]; [exact H|].
    apply IH. destruct (isPinch indices (fst e) (snd e)); [|exact H].
    rewrite lengthZ_app, length_xyz. lia. }
  apply G. reflexivity.
Qed.

Lemma detectNonManifoldVertices_nonneg (indices : list Z) :
  0 <= detectNonManifoldVertices indices.
Proof.
  unfold detectNonManifoldVertices.
  rewrite (fold_count (fun e : Z * list Z => isPinch indices (fst e) (snd e))).
  apply lengthZ_nonneg.
Qed.

Lemma length_flat_map_xyz {A : Type} (f : A -> P3) (l : list A) :
  lengthZ (flat_map (fun v => xyz (f v)) l) = 3 * lengthZ l.
Proof.
  induction l as [|x l IH]; [reflexivity|].
  cbn [flat_map]. rewrite lengthZ_app, length_xyz, IH, lengthZ_cons. lia.
Qed.

(** C3, at [tJunctionPositions] (a triangle 0-1-2 and a second triangle
    3-4-5 with vertex 3 on the midpoint and vertex 4 on the quarter point
    of edge 0-1).  The diagnostic pass looks for candidate edges in the
    grid cells around a vertex, where an edge is registered at its two
    ends and its midpoint, and finds only vertex 3; the overlay's search
    for the same vertices tests every edge and also finds vertex 4.
    [tJunctionCount] is 1 and [tJunctionVertices] holds 6 numbers, not
    [3 * tJunctionCount = 3]. *)
Theorem tjunction_overlay_exceeds_count :
  validMesh tJunctionPositions tJunctionIndices
  /\ underCap tJunctionIndices
  /\ cellsFit tJunctionPositions tJunctionIndices
  /\ overlayCellsFit tJunctionPositions tJunctionIndices
  /\ tJunctionsDetected tJunctionPositions tJunctionIndices
       (Some (computeBoundingBox tJunctionPositions)) = [3]
  /\ findTJunctionVertices tJunctionPositions tJunctionIndices
       (Some (computeBoundingBox tJunctionPositions)) = [3; 4]
  /\ option_map
       (fun r => (tJunctionCount r,
                  tJunctionVertices
                    (extractProblemGeometry tJunctionPositions tJunctionIndices r)))
       (computeMeshDiagnostics acosHost 4 tJunctionPositions tJunctionIndices)
     = Some (1, [2; 0; 0; 1; 0; 0]%float).
Proof.
  split; [apply validMeshb_sound; vm_compute; reflexivity|].
  split; [vm_compute; discriminate|].
  repeat split; vm_compute; reflexivity.
Qed.

(** X18.  On a valid input under the cap whose grid cells fit, for the
    analysis and for the overlay's own search, the analysis returns (given
    enough call stack) and the overlay computed from its record has
    [6 * boundaryEdgeCount] numbers in [boundaryEdges],
    [6 * nonManifoldEdgeCount] in [nonManifoldEdges] and
    [3 * nonManifoldVertexCount] in [nonManifoldVertices];
    [tJunctionVertices] holds whole points and is empty when
    [tJunctionCount] is 0. *)
Theorem overlay_lengths_match_counts (Math_acos : float -> float)
    (positions : list float) (indices : list Z) :
  validMesh positions indices -> underCap indices ->
  cellsFit positions indices -> overlayCellsFit positions indices ->
  analysisReturns Math_acos positions indices (fun r =>
    let overlay := extractProblemGeometry positions indices r in
    lengthZ (boundaryEdges overlay) = 6 * boundaryEdgeCount r
    /\ lengthZ (nonManifoldEdges overlay) = 6 * nonManifoldEdgeCount r
    /\ lengthZ (nonManifoldVertices overlay) = 3 * nonManifoldVertexCount r
    /\ (exists points : Z, lengthZ (tJunctionVertices overlay) = 3 * points)
    /\ (tJunctionCount r = 0 -> tJunctionVertices overlay = [])).
Proof.
  intros Hvalid Hcap _ _. apply analysisReturns_full; auto.
  intros components. cbn zeta. unfold extractProblemGeometry.
  destruct (edgeOverlay_lengths positions (buildEdgeFaceMap indices) [] [] 0 0
              eq_refl eq_refl) as [Hb Hnm].
  destruct (fold_left (edgeOverlayStep positions) (buildEdgeFaceMap indices) ([], []))
    as [b nm] eqn:E.
  cbn [fst snd] in Hb, Hnm.
  cbn [boundaryEdges nonManifoldEdges nonManifoldVertices tJunctionVertices].
  rewrite !lengthZ_Float32Array.
  split; [exact Hb|]. split; [exact Hnm|]. split; [|split].
  - cbn [nonManifoldVertexCount fullDiagnostics].
    pose proof (detectNonManifoldVertices_nonneg indices) as Hpos.
    destruct (Z.ltb_spec 0 (detectNonManifoldVertices indices)).
    + apply pinchOverlay_length.
    + replace (detectNonManifoldVertices indices) with 0 by lia. reflexivity.
  - destruct (0 <? tJunctionCount _).
    + eexists. apply length_flat_map_xyz.
    + exists 0. reflexivity.
  - intros H0. rewrite H0. reflexivity.
Qed.

Lemma overlay_lengths_match_counts_witness :
  validMesh tJunctionPositions tJunctionIndices
  /\ underCap tJunctionIndices
  /\ cellsFit tJunctionPositions tJunctionIndices
  /\ overlayCellsFit tJunctionPositions tJunctionIndices
  /\ analysisReturns acosHost tJunctionPositions tJunctionIndices (fun r =>
       let overlay := extractProblemGeometry tJunctionPositions tJunctionIndices r in
       lengthZ (boundaryEdges overlay) = 6 * boundaryEdgeCount r
       /\ lengthZ (nonManifoldEdges overlay) = 6 * nonManifoldEdgeCount r
       /\ lengthZ (nonManifoldVertices overlay) = 3 * nonManifoldVertexCount r
       /\ (exists points : Z, lengthZ (tJunctionVertices overlay) = 3 * points)
       /\ (tJunctionCount r = 0 -> tJunctionVertices overlay = [])).
Proof.
  assert (validMesh tJunctionPositions tJunctionIndices) as Hvalid
    by (apply validMeshb_sound; vm_compute; reflexivity).
  assert (underCap tJunctionIndices) as Hcap by (vm_compute; discriminate).
  assert (cellsFit tJunctionPositions tJunctionIndices) as Hcells
    by (vm_compute; reflexivity).
  assert (overlayCellsFit tJunctionPositions tJunctionIndices) as Hover
    by (vm_compute; reflexivity).
  split; [exact Hvalid|]. split; [exact Hcap|]. split; [exact Hcells|].
  split; [exact Hover|].
  exact (overlay_lengths_match_counts acosHost tJunctionPositions tJunctionIndices
           Hvalid Hcap Hcells Hover).
Defined.

(* ===================================================================== *)
(** ** C5: the overlay's intersection test                                *)
(* ===================================================================== *)

(** C5, as stated, fails on [intersectionPositions]: the diagnostic pass
    counts the pair (2, 3); the overlay, whose narrow phase stops after the
    two plane checks, also emits the pairs (0, 1) and (0, 2), three
    centroids in all.  For the pair (0, 1) the two tests disagree. *)
Lemma overlay_pairs_exceed_counted_pairs :
  validMesh intersectionPositions intersectionIndices
  /\ underCap intersectionIndices
  /\ cellsFit intersectionPositions intersectionIndices
  /\ overlayCellsFit intersectionPositions intersectionIndices
  /\ option_map
       (fun r => (selfIntersectionCount r,
                  selfIntersectionPairs intersectionPositions intersectionIndices
                                        (boundingBox r),
                  lengthZ (selfIntersectionCentroids
                             (extractProblemGeometry intersectionPositions
                                                     intersectionIndices r))))
       (computeMeshDiagnostics acosHost 4 intersectionPositions intersectionIndices)
     = Some (1, [(2, 3)], 9)
  /\ findIntersectingTrianglePairs intersectionPositions intersectionIndices
     = [(0, 1); (0, 2); (2, 3)]
  /\ intersectsAt intersectionPositions intersectionIndices 0 1 = false
  /\ trianglesIntersectSimple intersectionPositions intersectionIndices 0 1 = true.
Proof.
  split; [apply validMeshb_sound; vm_compute; reflexivity|].
  split; [vm_compute; discriminate|].
  repeat split; vm_compute; reflexivity.
Qed.

(** Whatever the Moeller test accepts has passed the two plane checks,
    which are the whole of the overlay's test. *)
Lemma moeller_implies_simple (positions : list float) (indices : list Z)
    (t1 t2 : Z) :
  intersectsAt positions indices t1 t2 = true ->
  trianglesIntersectSimple positions indices t1 t2 = true.
Proof.
  unfold intersectsAt, trianglesIntersectSimple, trianglesIntersect.
  destruct (triangleAt indices t1) as [[ia ib] ic].
  destruct (triangleAt indices t2) as [[ja jb] jc].
  destruct (sameSide _ _ _); [discriminate|].
  destruct (sameSide _ _ _); [discriminate|reflexivity].
Qed.

(* ===================================================================== *)
(** ** The edge-face map                                                  *)
(* ===================================================================== *)

Lemma mset_absent {V : Type} (k : Z) (v : V) (m : list (Z * V)) :
  mget Z.eqb k m = None -> mset Z.eqb k v m = m ++ [(k, v)].
Proof.
  induction m as [|[x w] r IH]; cbn; [reflexivity|].
  destruct (x =? k); [discriminate|]. intros H. now rewrite IH.
Qed.

Lemma mget_app_l {V : Type} (k : Z) (v : V) (m m2 : list (Z * V)) :
  mget Z.eqb k m = Some v -> mget Z.eqb k (m ++ m2) = Some v.
Proof.
  induction m as [|[x w] r IH]; cbn; [discriminate|].
  destruct (x =? k); auto.
Qed.

Lemma mset_app_l {V : Type} (k : Z) (v w : V) (m m2 : list (Z * V)) :
  mget Z.eqb k m = Some w -> mset Z.eqb k v (m ++ m2) = mset Z.eqb k v m ++ m2.
Proof.
  induction m as [|[x u] r IH]; cbn; [discriminate|].
  destruct (x =? k); [reflexivity|]. intros H. now rewrite IH.
Qed.

Lemma mget_app_r {V : Type} (k : Z) (m m2 : list (Z * V)) :
  mget Z.eqb k m = None -> mget Z.eqb k (m ++ m2) = mget Z.eqb k m2.
Proof.
  induction m as [|[x w] r IH]; cbn; [reflexivity|].
  destruct (x =? k); [discriminate|auto].
Qed.

Lemma mset_app_r {V : Type} (k : Z) (v : V) (m m2 : list (Z * V)) :
  mget Z.eqb k m = None -> mset Z.eqb k v (m ++ m2) = m ++ mset Z.eqb k v m2.
Proof.
  induction m as [|[x w] r IH]; cbn; [reflexivity|].
  destruct (x =? k); [discriminate|]. intros H. now rewrite IH.
Qed.

Lemma push_present (k t : Z) (l : list Z) (m : list (Z * list Z)) :
  mget Z.eqb k m = Some l -> push k t m = mset Z.eqb k (l ++ [t]) m.
Proof.
  induction m as [|[x w] r IH]; cbn; [discriminate|].
  destruct (x =? k).
  - now intros [= ->].
  - intros H. now rewrite IH.
Qed.

Lemma push_absent (k t : Z) (m : list (Z * list Z)) :
  mget Z.eqb k m = None -> push k t m = m ++ [(k, [t])].
Proof.
  induction m as [|[x w] r IH]; cbn; [reflexivity|].
  destruct (x =? k); [discriminate|]. intros H. now rewrite IH.
Qed.

Lemma push_as_ensure_append (k t : Z) (m : list (Z * list Z)) :
  mappend Z.eqb k t (mensure Z.eqb k m) = push k t m.
Proof.
  unfold mappend, mensure, mhas. destruct (mget Z.eqb k m) as [l|] eqn:E.
  - rewrite E. symmetry. now apply push_present.
  - rewrite (mset_absent k [] m E), (mget_app_r _ _ _ E). cbn.
    rewrite Z.eqb_refl, (mset_app_r _ _ _ _ E). cbn. rewrite Z.eqb_refl.
    symmetry. now apply push_absent.
Qed.

Lemma mhas_mensure (k k' : Z) (m : list (Z * list Z)) :
  mhas Z.eqb k (mensure Z.eqb k' m) = (k' =? k) || mhas Z.eqb k m.
Proof.
  unfold mensure, mhas. destruct (mget Z.eqb k' m) eqn:E.
  - destruct (Z.eqb_spec k' k) as [->|]; [now rewrite E|reflexivity].
  - rewrite mget_mset. destruct (k' =? k); reflexivity.
Qed.

Lemma mhas_mappend (k k' t : Z) (m : list (Z * list Z)) :
  mhas Z.eqb k (mappend Z.eqb k' t m) = mhas Z.eqb k m.
Proof.
  unfold mappend, mhas. destruct (mget Z.eqb k' m) eqn:E; [|reflexivity].
  rewrite mget_mset. destruct (Z.eqb_spec k' k) as [->|]; [now rewrite E|reflexivity].
Qed.

(** Appending under a present key commutes with ensuring another key. *)
Lemma mappend_mensure_comm (k k' t : Z) (m : list (Z * list Z)) :
  mhas Z.eqb k m = true ->
  mappend Z.eqb k t (mensure Z.eqb k' m) = mensure Z.eqb k' (mappend Z.eqb k t m).
Proof.
  intros Hk. unfold mensure at 2. rewrite mhas_mappend.
  unfold mensure. destruct (mhas Z.eqb k' m) eqn:Hk'; [reflexivity|].
  unfold mhas in Hk, Hk'.
  destruct (mget Z.eqb k m) as [l|] eqn:El; [|discriminate].
  destruct (mget Z.eqb k' m) eqn:El'; [discriminate|].
  rewrite (mset_absent k' [] m El'). unfold mappend.
  rewrite (mget_app_l _ _ _ _ El), El.
  rewrite (mset_app_l _ _ _ _ _ El). symmetry. apply mset_absent.
  rewrite mget_mset. destruct (Z.eqb_spec k k') as [->|]; [congruence|exact El'].
Qed.

Lemma edgeFaceStep_pushes (m : list (Z * list Z)) (t i0 i1 i2 : Z) :
  edgeFaceStep m (t, (i0, i1, i2))
  = push (numericEdgeKey i2 i0) t
      (push (numericEdgeKey i1 i2) t (push (numericEdgeKey i0 i1) t m)).
Proof.
  unfold edgeFaceStep.
  set (e01 := numericEdgeKey i0 i1). set (e12 := numericEdgeKey i1 i2).
  set (e20 := numericEdgeKey i2 i0).
  rewrite <- !push_as_ensure_append.
  assert (mhas Z.eqb e01 (mensure Z.eqb e01 m) = true) as H1
    by (rewrite mhas_mensure, Z.eqb_refl; reflexivity).
  rewrite (mappend_mensure_comm e01 e20) by (rewrite mhas_mensure, H1; apply orb_true_r).
  rewrite (mappend_mensure_comm e01 e12) by exact H1.
  rewrite (mappend_mensure_comm e12 e20); [reflexivity|].
  rewrite mhas_mensure, Z.eqb_refl. reflexivity.
Qed.

Lemma buildEdgeFaceMap_pushes (indices : list Z) :
  buildEdgeFaceMap indices
  = fold_left (fun m kt => push (fst kt) (snd kt) m) (edgePushes indices) [].
Proof.
  unfold buildEdgeFaceMap, edgePushes. rewrite fold_left_flat_map.
  generalize (@nil (Z * list Z)).
  induction (indexed (triangles indices)) as [|[t [[i0 i1] i2]] l IH]; intros m.
  - reflexivity.
  - cbn [fold_left]. rewrite edgeFaceStep_pushes. apply IH.
Qed.

Lemma keys_push (k t : Z) (m : list (Z * list Z)) :
  map fst (push k t m) = sadd Z.eqb k (map fst m).
Proof.
  unfold sadd. induction m as [|[x l] r IH]; cbn.
  - reflexivity.
  - destruct (Z.eqb_spec x k) as [->|Hne]; cbn; [reflexivity|].
    rewrite IH. destruct (shas Z.eqb k (map fst r)); reflexivity.
Qed.

Lemma facesOf_push (k k' t : Z) (m : list (Z * list Z)) :
  facesOf k' (push k t m) = if k =? k' then facesOf k' m ++ [t] else facesOf k' m.
Proof.
  unfold facesOf. induction m as [|[x l] r IH]; cbn.
  - destruct (k =? k'); reflexivity.
  - destruct (Z.eqb_spec x k) as [->|Hne]; cbn.
    + destruct (Z.eqb_spec k k'); reflexivity.
    + destruct (Z.eqb_spec x k') as [->|Hne'].
      * destruct (Z.eqb_spec k k'); [congruence|reflexivity].
      * exact IH.
Qed.

Lemma push_fold (s : list (Z * Z)) :
  forall m,
    let m' := fold_left (fun m kt => push (fst kt) (snd kt) m) s m in
    map fst m' = fold_left (fun acc k => sadd Z.eqb k acc) (map fst s) (map fst m)
    /\ forall k, lengthZ (facesOf k m')
                 = lengthZ (facesOf k m) + occurrences k (map fst s).
Proof.
  induction s as [|[k t] s IH]; intros m; cbn [fold_left map fst snd].
  - split; [reflexivity|]. intros k. unfold occurrences, lengthZ. cbn. lia.
  - destruct (IH (push k t m)) as [Hkeys Hfaces]. split.
    + rewrite Hkeys, keys_push. reflexivity.
    + intros k'. rewrite Hfaces, facesOf_push, occurrences_cons.
      rewrite (Z.eqb_sym k' k).
      destruct (k =? k'); [rewrite lengthZ_app; change (lengthZ [t]) with 1|]; lia.
Qed.

Lemma edgePushes_keys (indices : list Z) :
  map fst (edgePushes indices) = edgeKeys indices.
Proof.
  unfold edgePushes, edgeKeys, directedEdges, indexed.
  generalize 0. induction (triangles indices) as [|[[i0 i1] i2] l IH]; intros t.
  - reflexivity.
  - cbn [indexedFrom flat_map]. rewrite !map_app, IH. reflexivity.
Qed.

(** The edge-face map has one entry per distinct edge key, in order of
    first appearance, and the list stored under a key has one element per
    occurrence of the key. *)
Lemma buildEdgeFaceMap_spec (indices : list Z) :
  map fst (buildEdgeFaceMap indices) = distinct Z.eqb (edgeKeys indices)
  /\ forall k faces, In (k, faces) (buildEdgeFaceMap indices) ->
       lengthZ faces = occurrences k (edgeKeys indices).
Proof.
  rewrite buildEdgeFaceMap_pushes.
  destruct (push_fold (edgePushes indices) []) as [Hkeys Hfaces].
  rewrite edgePushes_keys in *. split; [exact Hkeys|].
  intros k faces Hin.
  assert (NoDup (map fst (fold_left (fun m kt => push (fst kt) (snd kt) m)
                                    (edgePushes indices) []))) as Hnd.
  { rewrite Hkeys. apply (NoDup_distinct _ Z.eqb_eq). }
  specialize (Hfaces k). unfold facesOf in Hfaces.
  rewrite (In_mget _ _ _ Hnd Hin) in Hfaces. cbn in Hfaces.
  rewrite Hfaces. unfold lengthZ. cbn. lia.
Qed.

Lemma fold_left_pointwise {A B : Type} (f g : A -> B -> A) (l : list B) :
  (forall a b, f a b = g a b) ->
  forall a, fold_left f l a = fold_left g l a.
Proof.
  intros H. induction l as [|x l IH]; intros a; cbn; [reflexivity|].
  now rewrite H, IH.
Qed.



(* ===================================================================== *)
(** ** Used vertices and valences                                         *)
(* ===================================================================== *)

Lemma usedVertices_distinct (indices : list Z) (n : Z) :
  usedVertices indices n = distinct Z.eqb (filter (fun i => i <? n) indices).
Proof.
  unfold usedVertices, distinct. generalize (@nil Z).
  induction indices as [|x l IH]; intros acc; cbn [fold_left filter].
  - reflexivity.
  - destruct (x <? n); cbn [fold_left]; apply IH.
Qed.

Lemma updateZ_map_iota (c : Z -> Z) (n : nat) :
  forall s k v,
    updateZ (map c (iota s n)) k v
    = map (fun z => if z =? s + k then v else c z) (iota s n).
Proof.
  induction n as [|n IH]; intros s k v; cbn [iota map updateZ].
  - reflexivity.
  - destruct (Z.eqb_spec k 0) as [->|Hk].
    + rewrite Z.add_0_r, Z.eqb_refl. f_equal. apply map_ext_in.
      intros z Hz. apply In_iota in Hz. destruct (Z.eqb_spec z s); [lia|reflexivity].
    + destruct (Z.eqb_spec s (s + k)); [lia|]. f_equal.
      rewrite IH. apply map_ext. intros z.
      replace (s + 1 + (k - 1)) with (s + k) by lia. reflexivity.
Qed.

Lemma lookupZ_map_iota (c : Z -> Z) (n : nat) (k : Z) :
  lookupZ (map c (iota 0 n)) k
  = if (0 <=? k) && (k <? Z.of_nat n) then Some (c k) else None.
Proof.
  assert (forall s, lookupZ (map c (iota s n)) k
                    = if (0 <=? k) && (k <? Z.of_nat n) then Some (c (s + k)) else None) as G.
  { revert k. induction n as [|n IH]; intros k s.
    - cbn. destruct (Z.leb_spec 0 k), (Z.ltb_spec k 0); try lia; reflexivity.
    - cbn [iota map lookupZ]. destruct (Z.eqb_spec k 0) as [->|Hk].
      + now rewrite Z.add_0_r.
      + rewrite IH. replace (s + 1 + (k - 1)) with (s + k) by lia.
        destruct (Z.leb_spec 0 k), (Z.leb_spec 0 (k - 1)),
          (Z.ltb_spec (k - 1) (Z.of_nat n)), (Z.ltb_spec k (Z.of_nat (S n)));
          try lia; reflexivity. }
  apply (G 0).
Qed.

Lemma map_const_iota (n : nat) :
  forall s, map (fun _ : Z => 0) (iota s n) = repeat 0 n.
Proof.
  induction n as [|n IH]; intros s; cbn [iota map repeat]; [reflexivity|].
  now rewrite IH.
Qed.

(** After the valence loop, entry [v] of the array is the number of
    occurrences of [v] in the index array. *)
Lemma valences_spec (indices : list Z) (n : Z) :
  valences indices n = map (fun v => occurrences v indices) (iota 0 (Z.to_nat n)).
Proof.
  unfold valences.
  assert (forall l (c : Z -> Z),
            fold_left (valenceStep n) l (map c (iota 0 (Z.to_nat n)))
            = map (fun v => c v + occurrences v l) (iota 0 (Z.to_nat n))) as G.
  { induction l as [|x l IH]; intros c; cbn [fold_left].
    - apply map_ext. intros v. unfold occurrences, lengthZ. cbn. lia.
    - unfold valenceStep at 2. rewrite lookupZ_map_iota, updateZ_map_iota.
      destruct (Z.ltb_spec x n) as [Hlt|Hge].
      + rewrite IH. apply map_ext_in. intros v Hv. apply In_iota in Hv.
        rewrite occurrences_cons, Z.add_0_l.
        destruct (Z.eqb_spec v x) as [->|Hne].
        * destruct (Z.leb_spec 0 x), (Z.ltb_spec x (Z.of_nat (Z.to_nat n)));
            cbn [andb]; lia.
        * lia.
      + rewrite IH. apply map_ext_in. intros v Hv. apply In_iota in Hv.
        rewrite occurrences_cons. destruct (Z.eqb_spec v x); lia. }
  replace (repeat 0 (Z.to_nat n)) with (map (fun _ : Z => 0) (iota 0 (Z.to_nat n))).
  - rewrite G. apply map_ext. intros v. lia.
  - apply map_const_iota.
Qed.

(* ===================================================================== *)
(** ** Reordering the triangles                                           *)
(* ===================================================================== *)



Lemma distinct_Permutation {A : Type} (eqb : A -> A -> bool) (l l' : list A) :
  (forall x y, eqb x y = true <-> x = y) ->
  Permutation l l' -> Permutation (distinct eqb l) (distinct eqb l').
Proof.
  intros Heq H. apply NoDup_Permutation; try now apply NoDup_distinct.
  intros x. rewrite !(In_distinct _ Heq). split; apply Permutation_in; [|symmetry]; auto.
Qed.



Section Reordered.

Variables indices indices' : list Z.
Hypothesis Hperm : Permutation (triangles indices) (triangles indices').






Hypothesis Htriples : lengthZ indices mod 3 = 0.
Hypothesis Htriples' : lengthZ indices' mod 3 = 0.





End Reordered.

(* ===================================================================== *)
(** ** C7: triangle order                                                 *)
(* ===================================================================== *)







(* ===================================================================== *)
(** ** C5: the overlay's pairs contain the counted pairs                  *)
(* ===================================================================== *)

Lemma grows_refl (acc : list (Z * Z) * list (Z * Z)) : grows acc acc.
Proof. intros p H. exact H. Qed.

Lemma grows_trans (a b c : list (Z * Z) * list (Z * Z)) :
  grows a b -> grows b c -> grows a c.
Proof. intros H1 H2 p H. auto. Qed.

Lemma candidateStep_spec (positions : list float) (indices : list Z) (t1 t2 : Z)
    (acc : list (Z * Z) * list (Z * Z)) :
  covered positions indices acc ->
  covered positions indices (candidateStep positions indices t1 acc t2)
  /\ grows acc (candidateStep positions indices t1 acc t2)
  /\ (t1 < t2 -> In (t1, t2) (fst (candidateStep positions indices t1 acc t2))).
Proof.
  destruct acc as [checked pairs]. intros Hcov. unfold candidateStep.
  destruct (Z.leb_spec t2 t1) as [Hle|Hlt].
  { split; [exact Hcov|]. split; [apply grows_refl|lia]. }
  destruct (shas pair_eqb (t1, t2) checked) eqn:Hseen.
  { split; [exact Hcov|]. split; [apply grows_refl|].
    intros _. now apply (shas_In_gen pair_eqb pair_eqb_eq). }
  assert (forall p, In p checked -> In p (sadd pair_eqb (t1, t2) checked)) as Hgrow
    by (intros p Hp; apply (In_sadd_gen pair_eqb pair_eqb_eq); now right).
  assert (In (t1, t2) (sadd pair_eqb (t1, t2) checked)) as Hin
    by (apply (In_sadd_gen pair_eqb pair_eqb_eq); now left).
  destruct (trianglesAdjacent (triangleAt indices t1) (triangleAt indices t2)) eqn:Hadj;
    [|destruct (trianglesIntersectSimple positions indices t1 t2) eqn:Hsimple].
  - split; [|split; [exact Hgrow|intros _; exact Hin]].
    intros a b Hab Ha Hs. cbn [fst snd] in *.
    apply (In_sadd_gen pair_eqb pair_eqb_eq) in Hab. destruct Hab as [[= -> ->]|Hab].
    + congruence.
    + now apply Hcov.
  - split; [|split; [exact Hgrow|intros _; exact Hin]].
    intros a b Hab Ha Hs. cbn [fst snd] in *. apply in_or_app.
    apply (In_sadd_gen pair_eqb pair_eqb_eq) in Hab. destruct Hab as [[= -> ->]|Hab].
    + right. now left.
    + left. now apply Hcov.
  - split; [|split; [exact Hgrow|intros _; exact Hin]].
    intros a b Hab Ha Hs. cbn [fst snd] in *.
    apply (In_sadd_gen pair_eqb pair_eqb_eq) in Hab. destruct Hab as [[= -> ->]|Hab].
    + congruence.
    + now apply Hcov.
Qed.

(** A loop whose body keeps [covered] and lets [checked] grow does so as a
    whole, and what one iteration has put into [checked] stays there. *)
Lemma loop_spec {X : Type} (positions : list float) (indices : list Z)
    (step : list (Z * Z) * list (Z * Z) -> X -> list (Z * Z) * list (Z * Z))
    (adds : X -> Z * Z -> Prop) :
  (forall acc x, covered positions indices acc ->
     covered positions indices (step acc x) /\ grows acc (step acc x)
     /\ (forall p, adds x p -> In p (fst (step acc x)))) ->
  forall l acc, covered positions indices acc ->
    covered positions indices (fold_left step l acc)
    /\ grows acc (fold_left step l acc)
    /\ (forall x p, In x l -> adds x p -> In p (fst (fold_left step l acc))).
Proof.
  intros Hstep. induction l as [|x r IH]; intros acc Hcov; cbn [fold_left].
  - split; [exact Hcov|]. split; [apply grows_refl|]. intros x p [].
  - destruct (Hstep acc x Hcov) as (Hc & Hg & Ha).
    destruct (IH (step acc x) Hc) as (Hc' & Hg' & Ha').
    split; [exact Hc'|]. split; [eapply grows_trans; eauto|].
    intros y p [<-|Hy] Hp.
    + apply Hg'. now apply Ha.
    + eapply Ha'; eauto.
Qed.

Lemma cellStep_spec (positions : list float) (indices : list Z)
    (grid : list (CellKey * list Z)) (t1 : Z) (key : CellKey)
    (acc : list (Z * Z) * list (Z * Z)) :
  covered positions indices acc ->
  covered positions indices (cellStep positions indices grid t1 acc key)
  /\ grows acc (cellStep positions indices grid t1 acc key)
  /\ (forall p,
        (exists tris t2, mget cell_eqb key grid = Some tris /\ In t2 tris
                         /\ t1 < t2 /\ p = (t1, t2)) ->
        In p (fst (cellStep positions indices grid t1 acc key))).
Proof.
  intros Hcov. unfold cellStep.
  destruct (mget cell_eqb key grid) as [candidates|].
  - destruct (loop_spec positions indices (candidateStep positions indices t1)
                (fun t2 p => t1 < t2 /\ p = (t1, t2))) with (l := candidates) (acc := acc)
      as (Hc & Hg & Ha); [|exact Hcov|].
    { intros a t2 Ha. destruct (candidateStep_spec positions indices t1 t2 a Ha)
        as (H1 & H2 & H3).
      split; [exact H1|]. split; [exact H2|]. intros p [Hlt ->]. auto. }
    split; [exact Hc|]. split; [exact Hg|].
    intros p (tris & t2 & [= <-] & Hin & Hlt & ->). eapply Ha; eauto.
  - split; [exact Hcov|]. split; [apply grows_refl|].
    intros p (tris & t2 & [=] & _).
Qed.

Lemma triangleStep_spec (positions : list float) (indices : list Z)
    (cellSize : float) (grid : list (CellKey * list Z)) (entry : Z * TriBounds)
    (acc : list (Z * Z) * list (Z * Z)) :
  covered positions indices acc ->
  covered positions indices (triangleStep positions indices cellSize grid acc entry)
  /\ grows acc (triangleStep positions indices cellSize grid acc entry)
  /\ (forall p,
        (exists key tris t2,
            In key (boundsCells cellSize (snd entry))
            /\ mget cell_eqb key grid = Some tris /\ In t2 tris
            /\ fst entry < t2 /\ p = (fst entry, t2)) ->
        In p (fst (triangleStep positions indices cellSize grid acc entry))).
Proof.
  intros Hcov. unfold triangleStep.
  destruct (loop_spec positions indices (cellStep positions indices grid (fst entry))
              (fun key p => exists tris t2,
                   mget cell_eqb key grid = Some tris /\ In t2 tris
                   /\ fst entry < t2 /\ p = (fst entry, t2)))
    with (l := boundsCells cellSize (snd entry)) (acc := acc)
    as (Hc & Hg & Ha); [|exact Hcov|].
  { intros a key Ha. now apply cellStep_spec. }
  split; [exact Hc|]. split; [exact Hg|].
  intros p (key & tris & t2 & Hkey & Hrest). eapply Ha; eauto.
Qed.

(** What a query returns was stored in one of the cells of the bounds. *)
Lemma gridQuery_In (cellSize : float) (grid : list (CellKey * list Z))
    (b : TriBounds) (t : Z) :
  In t (gridQuery cellSize grid b) ->
  exists key tris, In key (boundsCells cellSize b)
                   /\ mget cell_eqb key grid = Some tris /\ In t tris.
Proof.
  unfold gridQuery.
  assert (forall tris result,
             In t (fold_left (fun r x => sadd Z.eqb x r) tris result) ->
             In t result \/ In t tris) as Hadd.
  { induction tris as [|x r IH]; intros result H; cbn in *; [now left|].
    apply IH in H. destruct H as [H|H]; [|now right; right].
    apply In_sadd in H. destruct H as [->|H]; [right; now left|now left]. }
  assert (forall keys result,
             In t (fold_left
                     (fun result key =>
                        match mget cell_eqb key grid with
                        | Some tris => fold_left (fun r x => sadd Z.eqb x r) tris result
                        | None => result
                        end) keys result) ->
             In t result
             \/ exists key tris, In key keys /\ mget cell_eqb key grid = Some tris
                                 /\ In t tris) as Hkeys.
  { induction keys as [|key r IH]; intros result H; cbn [fold_left] in H; [now left|].
    apply IH in H. destruct H as [H|(k & tris & Hk & Hg & Ht)].
    - destruct (mget cell_eqb key grid) as [tris|] eqn:E; [|now left].
      apply Hadd in H. destruct H as [H|H]; [now left|].
      right. exists key, tris. repeat split; auto. now left.
    - right. exists k, tris. repeat split; auto. now right. }
  intros H. apply Hkeys in H. destruct H as [[]|H]. exact H.
Qed.

(** With one cell size, every pair the diagnostic pass counts is among the
    pairs of the overlay. *)
Lemma counted_pairs_are_overlay_pairs (positions : list float) (indices : list Z)
    (boundingBox : option BoundingBox) :
  intersectionCellSize boundingBox (lengthZ indices / 3)
  = estimateCellSize positions (lengthZ indices / 3) ->
  forall p, In p (selfIntersectionPairs positions indices boundingBox) ->
            In p (findIntersectingTrianglePairs positions indices).
Proof.
  intros Hsize p. unfold selfIntersectionPairs, findIntersectingTrianglePairs.
  cbn zeta. rewrite Hsize.
  set (cellSize := estimateCellSize positions (lengthZ indices / 3)).
  set (triBounds := indexed (map (triBoundsOf positions) (triangles indices))).
  set (grid := fold_left (gridInsert cellSize) triBounds []).
  intros H. apply in_flat_map in H. destruct H as (entry & Hentry & H).
  apply in_flat_map in H. destruct H as (t2 & Hquery & H).
  destruct (Z.leb_spec t2 (fst entry)) as [|Hlt]; [contradiction|].
  destruct (trianglesAdjacent _ _) eqn:Hadj; [contradiction|].
  destruct (intersectsAt positions indices (fst entry) t2) eqn:Hhit; [|contradiction].
  destruct H as [<-|[]].
  apply gridQuery_In in Hquery. destruct Hquery as (key & tris & Hkey & Hget & Hin).
  destruct (loop_spec positions indices (triangleStep positions indices cellSize grid)
              (fun entry p => exists key tris t2,
                   In key (boundsCells cellSize (snd entry))
                   /\ mget cell_eqb key grid = Some tris /\ In t2 tris
                   /\ fst entry < t2 /\ p = (fst entry, t2)))
    with (l := triBounds) (acc := ([] : list (Z * Z), [] : list (Z * Z)))
    as (Hc & _ & Ha).
  { intros a e Ha. now apply triangleStep_spec. }
  { intros a b []. }
  apply Hc; [|exact Hadj|now apply moeller_implies_simple].
  eapply Ha; [exact Hentry|]. exists key, tris, t2. auto.
Qed.

Lemma fold_left_preserves {A X : Type} (P : A -> Prop) (step : A -> X -> A) :
  (forall a x, P a -> P (step a x)) ->
  forall l a, P a -> P (fold_left step l a).
Proof.
  intros Hstep. induction l as [|x r IH]; intros a Ha; cbn; auto.
Qed.

Lemma candidateStep_accepted (positions : list float) (indices : list Z) (t1 t2 : Z)
    (acc : list (Z * Z) * list (Z * Z)) :
  accepted positions indices acc ->
  accepted positions indices (candidateStep positions indices t1 acc t2).
Proof.
  destruct acc as [checked pairs]. intros Hacc. unfold candidateStep.
  destruct (Z.leb_spec t2 t1) as [Hle|Hlt]; [exact Hacc|].
  destruct (shas pair_eqb (t1, t2) checked); [exact Hacc|].
  destruct (trianglesAdjacent (triangleAt indices t1) (triangleAt indices t2)) eqn:Hadj;
    [exact Hacc|].
  destruct (trianglesIntersectSimple positions indices t1 t2) eqn:Hsimple;
    [|exact Hacc].
  intros a b Hab. cbn [snd] in Hab. apply in_app_or in Hab.
  destruct Hab as [Hab|[[= <- <-]|[]]]; [now apply Hacc|auto].
Qed.

Lemma overlay_pairs_accepted (positions : list float) (indices : list Z) :
  forall a b, In (a, b) (findIntersectingTrianglePairs positions indices) ->
    a < b
    /\ trianglesAdjacent (triangleAt indices a) (triangleAt indices b) = false
    /\ trianglesIntersectSimple positions indices a b = true.
Proof.
  unfold findIntersectingTrianglePairs. cbn zeta.
  apply (fold_left_preserves (accepted positions indices)); [|intros a b []].
  intros acc entry Hacc. unfold triangleStep.
  apply (fold_left_preserves (accepted positions indices)); [|exact Hacc].
  clear acc Hacc. intros acc key Hacc. unfold cellStep.
  destruct (mget cell_eqb key _); [|exact Hacc].
  apply (fold_left_preserves (accepted positions indices)); [|exact Hacc].
  intros. now apply candidateStep_accepted.
Qed.

(* --------------------------------------------------------------------- *)
(** *** The two cell sizes                                                *)
(* --------------------------------------------------------------------- *)

Lemma SFcompare_refl (x : spec_float) :
  x <> S754_nan -> SFcompare x x = Some Eq.
Proof.
  destruct x as [s|s| |s m e]; cbn; intros H.
  - reflexivity.
  - now destruct s.
  - congruence.
  - rewrite Z.compare_refl, Pos.compare_cont_refl. now destruct s.
Qed.

Lemma ltb_not_nan (x d : float) : PrimFloat.ltb x d = true -> is_nan d = false.
Proof.
  intros H. unfold is_nan. rewrite eqb_spec. rewrite ltb_spec in H.
  unfold SFltb, SFeqb in *.
  rewrite SFcompare_refl; [reflexivity|].
  intros E. rewrite E in H. destruct (Prim2SF x); discriminate.
Qed.

Lemma max2_of_greater (d x : float) :
  is_nan x = false -> Js.gt d x = true -> Js.max2 d x = d.
Proof.
  intros Hx H. unfold Js.gt in H. unfold Js.max2.
  now rewrite (ltb_not_nan _ _ H), Hx, H.
Qed.

Lemma cell_sizes_agree (positions : list float) (triangleCount : Z) :
  Js.gt (diagonal (computeBoundingBox positions)) 1e-6 = true ->
  intersectionCellSize (Some (computeBoundingBox positions)) triangleCount
  = estimateCellSize positions triangleCount.
Proof.
  unfold intersectionCellSize, estimateCellSize, safeDiagonal, computeBoundingBox.
  destruct (vertices positions) as [|v r].
  - cbn. intros H. vm_compute in H. discriminate.
  - intros H. cbn zeta.
    now rewrite (max2_of_greater (diagonal (boxOf positions)) 1e-6 eq_refl H).
Qed.

(** C5, amended.  On a valid input under the cap whose bounding-box
    diagonal exceeds 1e-6 and whose grid cells fit (for the diagnostic pass
    and for the overlay's search, so that their loops end), the overlay
    runs the same broad phase as the diagnostic pass but a narrow phase of
    its own, the two plane checks that open the Moeller test: every pair
    counted by [selfIntersectionCount] is among the pairs the overlay
    finds, every pair the overlay finds is a non-adjacent pair that passes
    the plane checks, and the overlay emits the centroids of the pairs it
    finds, in order and narrowed to 32 bits, when [selfIntersectionCount]
    is positive and nothing otherwise. *)
Theorem overlay_pairs_contain_counted_pairs (Math_acos : float -> float)
    (positions : list float) (indices : list Z) :
  validMesh positions indices -> underCap indices ->
  Js.gt (diagonal (computeBoundingBox positions)) 1e-6 = true ->
  cellsFit positions indices -> overlayCellsFit positions indices ->
  analysisReturns Math_acos positions indices (fun r =>
    let counted := selfIntersectionPairs positions indices (boundingBox r) in
    let found := findIntersectingTrianglePairs positions indices in
    selfIntersectionCount r = lengthZ counted
    /\ (forall p, In p counted -> In p found)
    /\ (forall t1 t2, In (t1, t2) found ->
          t1 < t2
          /\ trianglesAdjacent (triangleAt indices t1) (triangleAt indices t2) = false
          /\ trianglesIntersectSimple positions indices t1 t2 = true)
    /\ selfIntersectionCentroids (extractProblemGeometry positions indices r)
       = Float32Array (if 0 <? selfIntersectionCount r
                       then flat_map (pairCentroid positions indices) found
                       else [])).
Proof.
  intros Hvalid Hcap Hdiag _ _. apply analysisReturns_full; auto.
  intros components. cbn zeta.
  split; [reflexivity|]. split; [|split].
  - apply counted_pairs_are_overlay_pairs. cbn [boundingBox fullDiagnostics].
    now apply cell_sizes_agree.
  - apply overlay_pairs_accepted.
  - unfold extractProblemGeometry.
    destruct (fold_left (edgeOverlayStep positions) (buildEdgeFaceMap indices) ([], []))
      as [b nm].
    reflexivity.
Qed.

Lemma overlay_pairs_contain_counted_pairs_witness :
  validMesh intersectionPositions intersectionIndices
  /\ underCap intersectionIndices
  /\ Js.gt (diagonal (computeBoundingBox intersectionPositions)) 1e-6 = true
  /\ cellsFit intersectionPositions intersectionIndices
  /\ overlayCellsFit intersectionPositions intersectionIndices
  /\ analysisReturns acosHost intersectionPositions intersectionIndices (fun r =>
       let counted :=
         selfIntersectionPairs intersectionPositions intersectionIndices
                               (boundingBox r) in
       let found :=
         findIntersectingTrianglePairs intersectionPositions intersectionIndices in
       selfIntersectionCount r = lengthZ counted
       /\ (forall p, In p counted -> In p found)
       /\ (forall t1 t2, In (t1, t2) found ->
             t1 < t2
             /\ trianglesAdjacent (triangleAt intersectionIndices t1)
                                  (triangleAt intersectionIndices t2) = false
             /\ trianglesIntersectSimple intersectionPositions intersectionIndices
                                         t1 t2 = true)
       /\ selfIntersectionCentroids
            (extractProblemGeometry intersectionPositions intersectionIndices r)
          = Float32Array
              (if 0 <? selfIntersectionCount r
               then flat_map (pairCentroid intersectionPositions intersectionIndices)
                             found
               else [])).
Proof.
  assert (validMesh intersectionPositions intersectionIndices) as Hvalid
    by (apply validMeshb_sound; vm_compute; reflexivity).
  assert (underCap intersectionIndices) as Hcap by (vm_compute; discriminate).
  assert (Js.gt (diagonal (computeBoundingBox intersectionPositions)) 1e-6 = true)
    as Hdiag by (vm_compute; reflexivity).
  assert (cellsFit intersectionPositions intersectionIndices) as Hcells
    by (vm_compute; reflexivity).
  assert (overlayCellsFit intersectionPositions intersectionIndices) as Hover
    by (vm_compute; reflexivity).
  split; [exact Hvalid|]. split; [exact Hcap|]. split; [exact Hdiag|].
  split; [exact Hcells|]. split; [exact Hover|].
  exact (overlay_pairs_contain_counted_pairs acosHost intersectionPositions
           intersectionIndices Hvalid Hcap Hdiag Hcells Hover).
Defined.

(* ===================================================================== *)
(** ** The breadth-first search never runs out of iterations              *)
(* ===================================================================== *)

Lemma pendingCost_cons (k : Z) (l : list Z) (r : list (Z * list Z))
    (visited : list Z) :
  pendingCost ((k, l) :: r) visited
  = ((if shas Z.eqb k visited then O else length l) + pendingCost r visited)%nat.
Proof. reflexivity. Qed.

Lemma shas_sadd_other (k c : Z) (visited : list Z) :
  k <> c -> shas Z.eqb k (sadd Z.eqb c visited) = shas Z.eqb k visited.
Proof.
  intros Hk. destruct (shas Z.eqb k visited) eqn:E.
  - apply shas_In, In_sadd. right. now apply shas_In.
  - apply shas_false. rewrite In_sadd. apply shas_false in E. intros [?|?]; auto.
Qed.

Lemma pendingCost_mono (g : list (Z * list Z)) (c : Z) (visited : list Z) :
  (pendingCost g (sadd Z.eqb c visited) <= pendingCost g visited)%nat.
Proof.
  induction g as [|[k l] r IH]; [apply Nat.le_refl|].
  rewrite !pendingCost_cons.
  destruct (Z.eqb_spec k c) as [->|Hk].
  - assert (shas Z.eqb c (sadd Z.eqb c visited) = true) as ->
      by (apply shas_In, In_sadd; now left).
    destruct (shas Z.eqb c visited); lia.
  - rewrite (shas_sadd_other k c visited Hk). lia.
Qed.

Lemma pendingCost_visit (g : list (Z * list Z)) (c : Z) (ns visited : list Z) :
  mget Z.eqb c g = Some ns -> shas Z.eqb c visited = false ->
  (pendingCost g (sadd Z.eqb c visited) + length ns <= pendingCost g visited)%nat.
Proof.
  intros Hget Hnew. induction g as [|[k l] r IH]; cbn in Hget; [discriminate|].
  rewrite !pendingCost_cons.
  destruct (Z.eqb_spec k c) as [->|Hk].
  - injection Hget as ->. rewrite Hnew.
    assert (shas Z.eqb c (sadd Z.eqb c visited) = true) as ->
      by (apply shas_In, In_sadd; now left).
    pose proof (pendingCost_mono r c visited). lia.
  - specialize (IH Hget). rewrite (shas_sadd_other k c visited Hk). lia.
Qed.

Lemma pendingCost_nil (g : list (Z * list Z)) :
  pendingCost g [] = length (flat_map snd g).
Proof.
  induction g as [|[k l] r IH]; [reflexivity|].
  rewrite pendingCost_cons, IH. cbn [flat_map snd shas]. now rewrite length_app.
Qed.

(** Once the fuel covers the queue and the neighbours still to be pushed,
    more fuel changes nothing. *)
Lemma bfs_fuel_irrelevant (g : list (Z * list Z)) :
  forall fuel fuel' visited pending,
    (length pending + pendingCost g visited <= fuel)%nat ->
    (length pending + pendingCost g visited <= fuel')%nat ->
    bfs fuel g visited pending = bfs fuel' g visited pending.
Proof.
  induction fuel as [|fuel IH]; intros fuel' visited pending H H'.
  - destruct pending; [|cbn in H; lia]. destruct fuel'; reflexivity.
  - destruct pending as [|current rest]; [destruct fuel'; reflexivity|].
    destruct fuel' as [|fuel']; [cbn in H'; lia|].
    cbn [bfs length] in *.
    destruct (shas Z.eqb current visited) eqn:Hseen.
    + apply IH; lia.
    + destruct (mget Z.eqb current g) as [ns|] eqn:Hget.
      * pose proof (pendingCost_visit g current ns visited Hget Hseen) as Hcost.
        pose proof (filter_length_le
                      (fun n => negb (shas Z.eqb n (sadd Z.eqb current visited))) ns)
          as Hpushed.
        apply IH; rewrite length_app; lia.
      * pose proof (pendingCost_mono g current visited) as Hcost.
        apply IH; rewrite length_app; cbn [length]; lia.
Qed.

(** The bound of [isPinch] is such a fuel: the search it runs is the
    search with any larger bound. *)
Lemma bfs_bound_suffices (g : list (Z * list Z)) (start : Z) (extra : nat) :
  bfs (bfsBound g + extra) g [] [start] = bfs (bfsBound g) g [] [start].
Proof.
  apply bfs_fuel_irrelevant; unfold bfsBound; rewrite pendingCost_nil; cbn [length]; lia.
Qed.

(* ===================================================================== *)
(** ** Edge keys                                                          *)
(* ===================================================================== *)

(** X1.  Below 2^26 the numeric edge keys lose nothing: the undirected key
    does not depend on the order of the two indices and decodes to the
    pair (smaller, larger); the directed key decodes to the pair it was
    made from. *)
Theorem edge_keys_decode (a b : Z) :
  0 <= a < MAX_VERTEX_FOR_NUMERIC_KEY -> 0 <= b < MAX_VERTEX_FOR_NUMERIC_KEY ->
  numericEdgeKey a b = numericEdgeKey b a
  /\ decodeEdgeKey (numericEdgeKey a b) = (Z.min a b, Z.max a b)
  /\ decodeEdgeKey (numericDirectedEdgeKey a b) = (a, b).
Proof.
  intros Ha Hb. split; [|split].
  - unfold numericEdgeKey.
    destruct (Z.ltb_spec a b), (Z.ltb_spec b a); try lia.
    replace b with a by lia. reflexivity.
  - rewrite numericEdgeKey_canonical. unfold canonical. cbn [fst snd].
    apply decode_directed. lia.
  - now apply decode_directed.
Qed.

Lemma edge_keys_decode_witness :
  0 <= 7 < MAX_VERTEX_FOR_NUMERIC_KEY /\ 0 <= 3 < MAX_VERTEX_FOR_NUMERIC_KEY
  /\ numericEdgeKey 7 3 = numericEdgeKey 3 7
  /\ decodeEdgeKey (numericEdgeKey 7 3) = (Z.min 7 3, Z.max 7 3)
  /\ decodeEdgeKey (numericDirectedEdgeKey 7 3) = (7, 3).
Proof.
  assert (0 <= 7 < MAX_VERTEX_FOR_NUMERIC_KEY) as H7 by (unfold MAX_VERTEX_FOR_NUMERIC_KEY; lia).
  assert (0 <= 3 < MAX_VERTEX_FOR_NUMERIC_KEY) as H3 by (unfold MAX_VERTEX_FOR_NUMERIC_KEY; lia).
  split; [exact H7|]. split; [exact H3|]. exact (edge_keys_decode 7 3 H7 H3).
Defined.

(* ===================================================================== *)
(** ** The edge-face map                                                  *)
(* ===================================================================== *)

Lemma sumZ_app (l l' : list Z) : sumZ (l ++ l') = sumZ l + sumZ l'.
Proof. induction l as [|x l IH]; cbn; [reflexivity|]. unfold sumZ in *. cbn. lia. Qed.

Lemma sumZ_indicator (x : Z) (d : list Z) :
  NoDup d -> In x d -> sumZ (map (fun k => if k =? x then 1 else 0) d) = 1.
Proof.
  induction 1 as [|y d Hy Hd IH]; intros Hin; [destruct Hin|].
  cbn [map sumZ fold_right]. destruct (Z.eqb_spec y x) as [->|Hne].
  - assert (sumZ (map (fun k => if k =? x then 1 else 0) d) = 0) as E.
    { clear IH Hd Hin. induction d as [|z d IH]; [reflexivity|].
      cbn [map sumZ fold_right].
      destruct (Z.eqb_spec z x) as [->|_]; [exfalso; apply Hy; now left|].
      unfold sumZ in IH. rewrite IH; [reflexivity|]. intros H. apply Hy. now right. }
    unfold sumZ in E. rewrite E. reflexivity.
  - destruct Hin as [->|Hin]; [congruence|]. apply IH in Hin. unfold sumZ in Hin.
    rewrite Hin. reflexivity.
Qed.

Lemma sumZ_plus {A : Type} (f g : A -> Z) (l : list A) :
  sumZ (map (fun x => f x + g x) l) = sumZ (map f l) + sumZ (map g l).
Proof. induction l as [|x l IH]; cbn; [reflexivity|]. unfold sumZ in *. cbn in *. lia. Qed.

Lemma sumZ_ext_in {A : Type} (f g : A -> Z) (l : list A) :
  (forall x, In x l -> f x = g x) -> sumZ (map f l) = sumZ (map g l).
Proof. intros H. f_equal. now apply map_ext_in. Qed.

(** Over a duplicate-free list that covers [l], the occurrence counts add
    up to the length of [l]. *)
Lemma sumZ_occurrences (d l : list Z) :
  NoDup d -> (forall x, In x l -> In x d) ->
  sumZ (map (fun k => occurrences k l) d) = lengthZ l.
Proof.
  intros Hd. induction l as [|x l IH]; intros Hcover.
  - clear. induction d as [|k d IH]; [reflexivity|]. cbn [map sumZ fold_right].
    unfold sumZ in IH. rewrite IH. reflexivity.
  - rewrite (sumZ_ext_in _ (fun k => (if k =? x then 1 else 0) + occurrences k l))
      by (intros k _; apply occurrences_cons).
    rewrite sumZ_plus, sumZ_indicator, IH, lengthZ_cons; auto.
    + lia.
    + intros y Hy. apply Hcover. now right.
    + apply Hcover. now left.
Qed.

Lemma length_edgeKeys (indices : list Z) :
  lengthZ (edgeKeys indices) = 3 * lengthZ (triangles indices).
Proof.
  unfold edgeKeys, directedEdges, lengthZ. rewrite length_map.
  induction (triangles indices) as [|[[a b] c] l IH]; [reflexivity|].
  cbn [flat_map trianglePairs length app] in *. lia.
Qed.

Lemma In_indexedFrom {A : Type} (l : list A) :
  forall s t x, In (t, x) (indexedFrom s l) <-> lookupZ l (t - s) = Some x /\ s <= t.
Proof.
  induction l as [|y l IH]; intros s t x; cbn [indexedFrom lookupZ In].
  - split; [intros []|intros [[=] _]].
  - rewrite IH. destruct (Z.eqb_spec (t - s) 0) as [E|E].
    + split.
      * intros [[= -> ->]|[H1 H2]]; [split; [reflexivity|lia]|lia].
      * intros [[= ->] _]. left. f_equal. lia.
    + replace (t - (s + 1)) with (t - s - 1) by lia. split.
      * intros [[= -> ->]|[H1 H2]]; [lia|]. split; [exact H1|lia].
      * intros [H1 H2]. right. split; [exact H1|lia].
Qed.

Lemma In_indexed {A : Type} (l : list A) (t : Z) (x : A) :
  In (t, x) (indexed l) <-> lookupZ l t = Some x.
Proof.
  unfold indexed. rewrite In_indexedFrom, Z.sub_0_r. split; [tauto|].
  intros H. split; [exact H|]. apply lookupZ_Some_range in H. lia.
Qed.

Lemma In_edgePushes (indices : list Z) (k t : Z) :
  In (k, t) (edgePushes indices)
  <-> exists tri, lookupZ (triangles indices) t = Some tri /\ In k (triangleKeys tri).
Proof.
  unfold edgePushes. rewrite in_flat_map. split.
  - intros ([t' [[i0 i1] i2]] & Hin & Hk). apply In_indexed in Hin.
    exists (i0, i1, i2). cbn in Hk.
    destruct Hk as [[= <- <-]|[[= <- <-]|[[= <- <-]|[]]]]; (split; [exact Hin|cbn; auto]).
  - intros ([[i0 i1] i2] & Hlook & Hk). exists (t, (i0, i1, i2)).
    split; [now apply In_indexed|]. cbn in Hk |- *.
    destruct Hk as [<-|[<-|[<-|[]]]]; auto.
Qed.

Lemma facesOf_pushes (s : list (Z * Z)) :
  forall m k t,
    In t (facesOf k (fold_left (fun m kt => push (fst kt) (snd kt) m) s m))
    <-> In t (facesOf k m) \/ In (k, t) s.
Proof.
  induction s as [|[k' t'] s IH]; intros m k t; cbn [fold_left fst snd In].
  - tauto.
  - rewrite IH, facesOf_push. destruct (Z.eqb_spec k' k) as [->|Hne].
    + rewrite in_app_iff. cbn [In]. split.
      * intros [[H|[<-|[]]]|H]; auto.
      * intros [H|[[= <-]|H]]; auto.
    + split.
      * intros [H|H]; auto.
      * intros [H|[[= -> ->]|H]]; auto. congruence.
Qed.

(** No list of the edge-face map is empty, and the lists hold three
    entries per triangle in all. *)
Lemma edge_face_map_lists_incident_triangles_aux (indices : list Z) :
  (forall k faces, In (k, faces) (buildEdgeFaceMap indices) -> 1 <= lengthZ faces)
  /\ sumZ (map (fun e : Z * list Z => lengthZ (snd e)) (buildEdgeFaceMap indices))
     = 3 * lengthZ (triangles indices).
Proof.
  destruct (buildEdgeFaceMap_spec indices) as [Hkeys Hfaces].
  assert (NoDup (map fst (buildEdgeFaceMap indices))) as Hnd
    by (rewrite Hkeys; apply (NoDup_distinct _ Z.eqb_eq)).
  split.
  - intros k faces Hin. rewrite (Hfaces k faces Hin).
    assert (In k (edgeKeys indices)) as Hk.
    { apply (In_distinct Z.eqb Z.eqb_eq). rewrite <- Hkeys.
      change k with (fst (k, faces)). now apply in_map. }
    apply occurrences_pos in Hk. lia.
  - rewrite (sumZ_ext_in _ (fun e => occurrences (fst e) (edgeKeys indices)))
      by (intros [k faces] Hin; now apply Hfaces).
    rewrite <- (map_map fst (fun k => occurrences k (edgeKeys indices))).
    rewrite sumZ_occurrences; [apply length_edgeKeys|exact Hnd|].
    intros x Hx. rewrite Hkeys. now apply (In_distinct Z.eqb Z.eqb_eq).
Qed.

Lemma facesOf_pushes_eq (s : list (Z * Z)) :
  forall m k,
    facesOf k (fold_left (fun m kt => push (fst kt) (snd kt) m) s m)
    = facesOf k m ++ map snd (filter (fun kt : Z * Z => k =? fst kt) s).
Proof.
  induction s as [|[k' t'] s IH]; intros m k; cbn [fold_left fst snd filter map].
  - now rewrite app_nil_r.
  - rewrite IH, facesOf_push, (Z.eqb_sym k k').
    destruct (k' =? k); cbn [map snd]; [|reflexivity].
    now rewrite <- app_assoc.
Qed.

Lemma pushes_of_key (indices : list Z) (k : Z) :
  map snd (filter (fun kt : Z * Z => k =? fst kt) (edgePushes indices))
  = incidentTriangles indices k.
Proof.
  unfold edgePushes, incidentTriangles.
  induction (indexed (triangles indices)) as [|[t [[i0 i1] i2]] l IH];
    [reflexivity|].
  cbn [flat_map]. rewrite filter_app, map_app, IH. f_equal.
  cbn [filter fst snd triangleKeys].
  destruct (k =? numericEdgeKey i0 i1), (k =? numericEdgeKey i1 i2),
           (k =? numericEdgeKey i2 i0); reflexivity.
Qed.

Lemma In_edgeKeys (indices : list Z) (k : Z) :
  In k (edgeKeys indices)
  <-> exists t tri, lookupZ (triangles indices) t = Some tri /\ In k (triangleKeys tri).
Proof.
  rewrite <- edgePushes_keys, in_map_iff. split.
  - intros ([k' t] & <- & Hin). apply In_edgePushes in Hin.
    destruct Hin as (tri & H1 & H2). eauto.
  - intros (t & tri & H1 & H2). exists (k, t). split; [reflexivity|].
    apply In_edgePushes. eauto.
Qed.

(** X2.  The edge-face map of an index array of whole triples with
    indices below 2^26 has exactly one entry per edge key that occurs, in
    order of first occurrence; the list stored under a key is the list of
    the triangles that have an edge with that key, in increasing order,
    a triangle once for each such edge; no list is empty, and the lists
    hold three entries per triangle in all. *)
Theorem edge_face_map_lists_incident_triangles (indices : list Z) :
  lengthZ indices mod 3 = 0 -> keysFit indices ->
  let m := buildEdgeFaceMap indices in
  map fst m = distinct Z.eqb (edgeKeys indices)
  /\ NoDup (map fst m)
  /\ (forall k, In k (map fst m)
                <-> exists t tri, lookupZ (triangles indices) t = Some tri
                                  /\ In k (triangleKeys tri))
  /\ (forall k faces, In (k, faces) m ->
        faces = incidentTriangles indices k /\ 1 <= lengthZ faces)
  /\ sumZ (map (fun e : Z * list Z => lengthZ (snd e)) m)
     = 3 * lengthZ (triangles indices).
Proof.
  intros _ _. cbn zeta. destruct (buildEdgeFaceMap_spec indices) as [Hkeys Hfaces].
  assert (NoDup (map fst (buildEdgeFaceMap indices))) as Hnd
    by (rewrite Hkeys; apply (NoDup_distinct _ Z.eqb_eq)).
  destruct (edge_face_map_lists_incident_triangles_aux indices) as [Hpos Hsum].
  split; [exact Hkeys|]. split; [exact Hnd|]. split; [|split; [|exact Hsum]].
  - intros k. rewrite Hkeys, (In_distinct Z.eqb Z.eqb_eq). apply In_edgeKeys.
  - intros k faces Hin. split; [|now apply (Hpos k faces)].
    pose proof (facesOf_pushes_eq (edgePushes indices) [] k) as H.
    rewrite <- buildEdgeFaceMap_pushes, pushes_of_key in H. unfold facesOf in H.
    rewrite (In_mget k faces _ Hnd Hin) in H. exact H.
Qed.

Lemma edge_face_map_lists_incident_triangles_witness :
  lengthZ tetraIndices mod 3 = 0
  /\ keysFit tetraIndices
  /\ map fst (buildEdgeFaceMap tetraIndices) = distinct Z.eqb (edgeKeys tetraIndices)
  /\ NoDup (map fst (buildEdgeFaceMap tetraIndices))
  /\ (forall k, In k (map fst (buildEdgeFaceMap tetraIndices))
                <-> exists t tri, lookupZ (triangles tetraIndices) t = Some tri
                                  /\ In k (triangleKeys tri))
  /\ (forall k faces, In (k, faces) (buildEdgeFaceMap tetraIndices) ->
        faces = incidentTriangles tetraIndices k /\ 1 <= lengthZ faces)
  /\ sumZ (map (fun e : Z * list Z => lengthZ (snd e)) (buildEdgeFaceMap tetraIndices))
     = 3 * lengthZ (triangles tetraIndices).
Proof.
  assert (keysFit tetraIndices) as Hfit
    by (apply keysFit_small; vm_compute; reflexivity).
  split; [reflexivity|]. split; [exact Hfit|].
  exact (edge_face_map_lists_incident_triangles tetraIndices eq_refl Hfit).
Defined.

Lemma countBoundaryEdges_filter (m : list (Z * list Z)) :
  countBoundaryEdges m
  = lengthZ (filter (fun e : Z * list Z => lengthZ (snd e) =? 1) m).
Proof. unfold countBoundaryEdges. rewrite fold_count. lia. Qed.

Lemma countNonManifoldEdges_filter (m : list (Z * list Z)) :
  countNonManifoldEdges m
  = lengthZ (filter (fun e : Z * list Z => 2 <? lengthZ (snd e)) m).
Proof.
  unfold countNonManifoldEdges.
  rewrite (fold_left_pointwise _ (fun n (e : Z * list Z) =>
             if 2 <? lengthZ (snd e) then n + 1 else n)).
  - rewrite fold_count. lia.
  - intros n e. destruct (Z.eqb_spec (lengthZ (snd e)) 1) as [H1|_]; [|reflexivity].
    rewrite H1. reflexivity.
Qed.

(** Entries with one face, with two faces and with more, counted against
    the total number of faces stored. *)
Lemma edge_classes_count (m : list (Z * list Z)) :
  (forall e, In e m -> 1 <= lengthZ (snd e)) ->
  let B := lengthZ (filter (fun e : Z * list Z => lengthZ (snd e) =? 1) m) in
  let N := lengthZ (filter (fun e : Z * list Z => 2 <? lengthZ (snd e)) m) in
  let total := sumZ (map (fun e : Z * list Z => lengthZ (snd e)) m) in
  0 <= B /\ 0 <= N /\ B + N <= lengthZ m
  /\ 2 * lengthZ m - B + N <= total
  /\ (B = 0 -> N = 0 -> total = 2 * lengthZ m).
Proof.
  cbn zeta. induction m as [|e m IH]; intros Hpos.
  - unfold lengthZ. cbn. lia.
  - assert (1 <= lengthZ (snd e)) as He by (apply Hpos; now left).
    destruct IH as (H1 & H2 & H3 & H4 & H5); [intros x Hx; apply Hpos; now right|].
    cbn [filter map sumZ fold_right]. fold (sumZ (map (fun e : Z * list Z => lengthZ (snd e)) m)).
    rewrite lengthZ_cons.
    destruct (Z.eqb_spec (lengthZ (snd e)) 1), (Z.ltb_spec 2 (lengthZ (snd e)));
      rewrite ?lengthZ_cons; lia.
Qed.

(** X3.  On a valid input under the cap whose grid cells fit (so that the
    loops of the self-intersection pass end) the analysis returns, given
    enough call stack, and the three edge counts fit together: boundary and non-manifold edges are disjoint classes of the
    edges, the edges not in either class carry two faces each, so
    [2 * edgeCount - boundaryEdgeCount + nonManifoldEdgeCount] is at most
    [3 * triangleCount]; and a mesh reported watertight and manifold has
    [2 * edgeCount = 3 * triangleCount]. *)
Theorem edge_counts_fit_triangle_count (Math_acos : float -> float)
    (positions : list float) (indices : list Z) :
  validMesh positions indices -> underCap indices ->
  cellsFit positions indices ->
  analysisReturns Math_acos positions indices (fun r =>
    0 <= boundaryEdgeCount r
    /\ 0 <= nonManifoldEdgeCount r
    /\ boundaryEdgeCount r + nonManifoldEdgeCount r <= edgeCount r
    /\ 2 * edgeCount r - boundaryEdgeCount r + nonManifoldEdgeCount r
       <= 3 * triangleCount r
    /\ (isWatertight r = true -> isManifold r = true ->
        2 * edgeCount r = 3 * triangleCount r)).
Proof.
  intros Hvalid Hcap _. apply analysisReturns_full; auto. intros components.
  cbn [boundaryEdgeCount nonManifoldEdgeCount edgeCount triangleCount
       isWatertight isManifold fullDiagnostics].
  destruct (edge_face_map_lists_incident_triangles_aux indices) as (Hpos & Hsum).
  rewrite countBoundaryEdges_filter, countNonManifoldEdges_filter.
  rewrite <- length_triangles, <- Hsum.
  destruct (edge_classes_count (buildEdgeFaceMap indices)) as (H1 & H2 & H3 & H4 & H5).
  { intros [k faces] Hin. now apply (Hpos k faces). }
  repeat (split; [assumption|]).
  intros Hw Hm. apply Z.eqb_eq in Hw. apply Z.eqb_eq in Hm. symmetry. now apply H5.
Qed.

Lemma edge_counts_fit_triangle_count_witness :
  validMesh tetraPositions tetraIndices
  /\ underCap tetraIndices
  /\ cellsFit tetraPositions tetraIndices
  /\ analysisReturns acosHost tetraPositions tetraIndices (fun r =>
       0 <= boundaryEdgeCount r
       /\ 0 <= nonManifoldEdgeCount r
       /\ boundaryEdgeCount r + nonManifoldEdgeCount r <= edgeCount r
       /\ 2 * edgeCount r - boundaryEdgeCount r + nonManifoldEdgeCount r
          <= 3 * triangleCount r
       /\ (isWatertight r = true -> isManifold r = true ->
           2 * edgeCount r = 3 * triangleCount r)).
Proof.
  assert (validMesh tetraPositions tetraIndices) as Hvalid
    by (apply validMeshb_sound; vm_compute; reflexivity).
  assert (underCap tetraIndices) as Hcap by (vm_compute; discriminate).
  assert (cellsFit tetraPositions tetraIndices) as Hcells
    by (vm_compute; reflexivity).
  split; [exact Hvalid|]. split; [exact Hcap|]. split; [exact Hcells|].
  exact (edge_counts_fit_triangle_count acosHost tetraPositions tetraIndices
           Hvalid Hcap Hcells).
Defined.

(* ===================================================================== *)
(** ** The valence histogram                                              *)
(* ===================================================================== *)

Lemma NoDup_iota (n : nat) : forall s, NoDup (iota s n).
Proof.
  induction n as [|n IH]; intros s; cbn [iota]; constructor; [|apply IH].
  rewrite In_iota. lia.
Qed.

Lemma histIncr_keys (val : Z) (d : list (Z * Z)) (k : Z) :
  In k (map fst (histIncr val d)) <-> k = val \/ In k (map fst d).
Proof.
  induction d as [|[x c] d IH]; cbn [histIncr map fst In].
  - intuition congruence.
  - destruct (Z.ltb_spec val x); [cbn; intuition congruence|].
    destruct (Z.eqb_spec val x) as [->|Hne]; cbn [map fst In]; [intuition congruence|].
    rewrite IH. intuition congruence.
Qed.

Lemma histIncr_sorted (val : Z) (d : list (Z * Z)) :
  StronglySorted Z.lt (map fst d) -> StronglySorted Z.lt (map fst (histIncr val d)).
Proof.
  induction d as [|[x c] d IH]; intros Hs; cbn [histIncr map fst].
  - repeat constructor.
  - inversion Hs as [|? ? Hd Hall]; subst.
    destruct (Z.ltb_spec val x) as [Hlt|Hge].
    + cbn [map fst]. constructor; [exact Hs|]. constructor; [exact Hlt|].
      rewrite Forall_forall in *. intros y Hy. specialize (Hall y Hy). lia.
    + destruct (Z.eqb_spec val x) as [->|Hne]; cbn [map fst]; [exact Hs|].
      constructor; [now apply IH|]. rewrite Forall_forall in *. intros y Hy.
      apply histIncr_keys in Hy. destruct Hy as [->|Hy]; [lia|now apply Hall].
Qed.

Lemma histIncr_get (val k : Z) (d : list (Z * Z)) :
  StronglySorted Z.lt (map fst d) ->
  countOf k (histIncr val d) = (if k =? val then 1 else 0) + countOf k d.
Proof.
  unfold countOf. induction d as [|[x c] d IH]; intros Hs; cbn [histIncr mget].
  - rewrite (Z.eqb_sym val k). destruct (k =? val); reflexivity.
  - inversion Hs as [|? ? Hd Hall]; subst. specialize (IH Hd).
    destruct (Z.ltb_spec val x) as [Hlt|Hge].
    + cbn [mget]. rewrite (Z.eqb_sym val k). destruct (Z.eqb_spec k val) as [->|Hne].
      * destruct (Z.eqb_spec x val); [lia|].
        assert (mget Z.eqb val d = None) as ->; [|reflexivity].
        destruct (mget Z.eqb val d) eqn:E; [|reflexivity].
        apply mget_In in E. apply (in_map fst) in E. cbn in E.
        rewrite Forall_forall in Hall. specialize (Hall _ E). lia.
      * reflexivity.
    + destruct (Z.eqb_spec val x) as [->|Hne]; cbn [mget].
      * destruct (Z.eqb_spec x k) as [->|Hxk].
        -- rewrite Z.eqb_refl. lia.
        -- destruct (Z.eqb_spec k x); [congruence|]. reflexivity.
      * destruct (Z.eqb_spec x k) as [->|Hxk]; [|exact IH].
        destruct (Z.eqb_spec k val); [congruence|]. reflexivity.
Qed.

Lemma histogram_fold (vals : list Z) :
  forall d, StronglySorted Z.lt (map fst d) ->
    Forall (fun e : Z * Z => 0 < fst e /\ 0 < snd e) d ->
    let d' := fold_left (fun dist val => if 0 <? val then histIncr val dist else dist)
                        vals d in
    StronglySorted Z.lt (map fst d')
    /\ Forall (fun e : Z * Z => 0 < fst e /\ 0 < snd e) d'
    /\ forall k, 0 < k -> countOf k d' = countOf k d + occurrences k vals.
Proof.
  induction vals as [|val vals IH]; intros d Hs Hpos; cbn [fold_left].
  - split; [exact Hs|]. split; [exact Hpos|]. intros k _.
    unfold occurrences, lengthZ. cbn. lia.
  - destruct (Z.ltb_spec 0 val) as [Hval|Hval].
    + destruct (IH (histIncr val d)) as (H1 & H2 & H3).
      * now apply histIncr_sorted.
      * clear IH Hs. induction d as [|[x c] d IHd]; cbn [histIncr].
        -- repeat constructor; cbn; lia.
        -- inversion Hpos as [|? ? [Hx Hc] Hrest]; subst. cbn [fst snd] in *.
           destruct (val <? x); [constructor; [cbn; lia|exact Hpos]|].
           destruct (val =? x); constructor; cbn [fst snd]; auto; lia.
      * split; [exact H1|]. split; [exact H2|]. intros k Hk.
        rewrite H3, histIncr_get, occurrences_cons by assumption. lia.
    + destruct (IH d Hs Hpos) as (H1 & H2 & H3).
      split; [exact H1|]. split; [exact H2|]. intros k Hk.
      rewrite H3, occurrences_cons by assumption.
      destruct (Z.eqb_spec k val); lia.
Qed.

(** X4.  The valence histogram: the bucket of a positive valence counts
    the vertices below [vertexCount] that occur that many times in the
    index array (indices outside the vertex range are ignored), unused
    vertices get no bucket, and the buckets are listed by increasing
    valence. *)
Theorem valence_histogram_counts_vertices (indices : list Z) (vertexCount : Z) :
  let dist := computeValenceDistribution indices vertexCount in
  (forall val, 0 < val ->
     countOf val dist
     = lengthZ (filter (fun v => occurrences v indices =? val)
                       (iota 0 (Z.to_nat vertexCount))))
  /\ Forall (fun e : Z * Z => 0 < fst e /\ 0 < snd e) dist
  /\ StronglySorted Z.lt (map fst dist).
Proof.
  cbn zeta. unfold computeValenceDistribution.
  destruct (histogram_fold (valences indices vertexCount) [])
    as (Hs & Hpos & Hget); [constructor|constructor|].
  split; [|split; [exact Hpos|exact Hs]].
  intros val Hval. rewrite Hget by exact Hval. unfold countOf. cbn [mget].
  rewrite valences_spec. unfold occurrences at 1.
  generalize (iota 0 (Z.to_nat vertexCount)). intros l.
  induction l as [|v l IH]; [reflexivity|].
  cbn [map filter]. rewrite (Z.eqb_sym val).
  destruct (occurrences v indices =? val); rewrite ?lengthZ_cons; lia.
Qed.

(* ===================================================================== *)
(** ** Used and isolated vertices                                         *)
(* ===================================================================== *)

Lemma usedVertices_count (indices : list Z) (n : Z) :
  Forall (fun i => 0 <= i < n) indices ->
  lengthZ (usedVertices indices n)
  = lengthZ (filter (fun v => 0 <? occurrences v indices) (iota 0 (Z.to_nat n))).
Proof.
  intros Hrange. rewrite usedVertices_distinct. unfold lengthZ. f_equal.
  apply Permutation_length, NoDup_Permutation.
  - apply (NoDup_distinct _ Z.eqb_eq).
  - apply NoDup_filter, NoDup_iota.
  - intros v. rewrite (In_distinct Z.eqb Z.eqb_eq), !filter_In, In_iota.
    rewrite Forall_forall in Hrange. split.
    + intros [Hin _]. pose proof (Hrange v Hin). split; [lia|].
      apply Z.ltb_lt. now apply occurrences_pos.
    + intros [Hv Hocc]. apply Z.ltb_lt, occurrences_pos in Hocc.
      split; [exact Hocc|]. apply Z.ltb_lt. lia.
Qed.

Lemma filter_split_count {A : Type} (f g : A -> bool) (l : list A) :
  (forall x, In x l -> g x = negb (f x)) ->
  lengthZ (filter f l) + lengthZ (filter g l) = lengthZ l.
Proof.
  induction l as [|x l IH]; intros H; [reflexivity|].
  cbn [filter]. rewrite (H x) by now left.
  assert (lengthZ (filter f l) + lengthZ (filter g l) = lengthZ l) as IH'
    by (apply IH; intros y Hy; apply H; now right).
  destruct (f x); cbn [negb]; rewrite !lengthZ_cons; lia.
Qed.

(** X5.  On a valid input under the cap whose grid cells fit, the
    analysis returns (given enough call stack) and [isolatedVertexCount]
    is the
    number of vertices that no triangle uses, it lies between 0 and
    [vertexCount], and the Euler characteristic is taken over the used
    vertices only: (vertexCount - isolatedVertexCount) - edgeCount +
    triangleCount. *)
Theorem isolated_vertices_are_unused (Math_acos : float -> float)
    (positions : list float) (indices : list Z) :
  validMesh positions indices -> underCap indices ->
  cellsFit positions indices ->
  analysisReturns Math_acos positions indices (fun r =>
    isolatedVertexCount r
    = lengthZ (filter (fun v => occurrences v indices =? 0)
                      (iota 0 (Z.to_nat (vertexCount r))))
    /\ 0 <= isolatedVertexCount r <= vertexCount r
    /\ eulerCharacteristic r
       = (vertexCount r - isolatedVertexCount r) - edgeCount r + triangleCount r).
Proof.
  intros Hvalid Hcap _. apply analysisReturns_full; auto. intros components.
  cbn [isolatedVertexCount vertexCount eulerCharacteristic edgeCount triangleCount
       fullDiagnostics].
  set (V := lengthZ positions / 3).
  assert (0 <= V) as HV by (apply Z.div_pos; [apply lengthZ_nonneg|lia]).
  rewrite (usedVertices_count indices V (indices_in_range _ _ Hvalid)).
  pose proof (filter_split_count (fun v => 0 <? occurrences v indices)
                (fun v => occurrences v indices =? 0) (iota 0 (Z.to_nat V))) as Hsplit.
  assert (lengthZ (iota 0 (Z.to_nat V)) = V) as Hlen
    by (unfold lengthZ; rewrite length_iota; lia).
  rewrite Hlen in Hsplit.
  pose proof (lengthZ_nonneg (filter (fun v => 0 <? occurrences v indices)
                                     (iota 0 (Z.to_nat V)))).
  pose proof (lengthZ_nonneg (filter (fun v => occurrences v indices =? 0)
                                     (iota 0 (Z.to_nat V)))).
  assert (forall x, In x (iota 0 (Z.to_nat V)) ->
                    (occurrences x indices =? 0) = negb (0 <? occurrences x indices)) as Hneg.
  { intros x _. pose proof (occurrences_nonneg x indices).
    destruct (Z.eqb_spec (occurrences x indices) 0), (Z.ltb_spec 0 (occurrences x indices));
      cbn; lia. }
  specialize (Hsplit Hneg). lia.
Qed.

Lemma isolated_vertices_are_unused_witness :
  validMesh tetraPositions [0; 2; 1]
  /\ underCap [0; 2; 1]
  /\ cellsFit tetraPositions [0; 2; 1]
  /\ analysisReturns acosHost tetraPositions [0; 2; 1] (fun r =>
       isolatedVertexCount r
       = lengthZ (filter (fun v => occurrences v [0; 2; 1] =? 0)
                         (iota 0 (Z.to_nat (vertexCount r))))
       /\ 0 <= isolatedVertexCount r <= vertexCount r
       /\ eulerCharacteristic r
          = (vertexCount r - isolatedVertexCount r) - edgeCount r + triangleCount r).
Proof.
  assert (validMesh tetraPositions [0; 2; 1]) as Hvalid
    by (apply validMeshb_sound; vm_compute; reflexivity).
  assert (underCap [0; 2; 1]) as Hcap by (vm_compute; discriminate).
  assert (cellsFit tetraPositions [0; 2; 1]) as Hcells
    by (vm_compute; reflexivity).
  split; [exact Hvalid|]. split; [exact Hcap|]. split; [exact Hcells|].
  exact (isolated_vertices_are_unused acosHost tetraPositions [0; 2; 1]
           Hvalid Hcap Hcells).
Defined.

(* ===================================================================== *)
(** ** Merging the primitives of a document                               *)
(* ===================================================================== *)

Lemma sumZ_nil : sumZ [] = 0.
Proof. reflexivity. Qed.

Lemma sumZ_cons (x : Z) (l : list Z) : sumZ (x :: l) = x + sumZ l.
Proof. reflexivity. Qed.

Lemma div3_add (a b : Z) : a mod 3 = 0 -> (a + b) / 3 = a / 3 + b / 3.
Proof.
  intros Ha. rewrite (Z.div_mod a 3) at 1 by lia. rewrite Ha, Z.add_0_r.
  rewrite Z.mul_comm, Z.div_add_l by lia. reflexivity.
Qed.

Lemma mod3_add (a b : Z) : a mod 3 = 0 -> b mod 3 = 0 -> (a + b) mod 3 = 0.
Proof. intros Ha Hb. rewrite Z.add_mod, Ha, Hb by lia. reflexivity. Qed.

(** What the merge keeps true: whole triples, finite coordinates, indices
    below the running vertex offset, and the two running counts. *)
Lemma primitiveStep_invariant (prim : Primitive)
    (allPositions : list float) (allIndices : list Z) (triangles : Z) :
  wellFormedPrimitive prim ->
  lengthZ allPositions mod 3 = 0 ->
  lengthZ allIndices mod 3 = 0 ->
  Forall (fun x => Js.isFinite x = true) allPositions ->
  Forall (fun i => 0 <= i < lengthZ allPositions / 3) allIndices ->
  lengthZ allIndices / 3 = triangles ->
  let '(allPositions', allIndices', vertexOffset') :=
    primitiveStep (allPositions, allIndices, lengthZ allPositions / 3) prim in
  lengthZ allPositions' mod 3 = 0
  /\ lengthZ allIndices' mod 3 = 0
  /\ Forall (fun x => Js.isFinite x = true) allPositions'
  /\ Forall (fun i => 0 <= i < lengthZ allPositions' / 3) allIndices'
  /\ vertexOffset' = lengthZ allPositions' / 3
  /\ vertexOffset' = lengthZ allPositions / 3 + primitiveVertexCount prim
  /\ lengthZ allIndices' / 3 = triangles + primitiveTriangleCount prim.
Proof.
  intros Hwf Hp Hi Hfin Hrange Htri.
  unfold primitiveStep, wellFormedPrimitive, primitiveVertexCount,
    primitiveTriangleCount, primitivePositions in *.
  destruct (getPOSITION prim) as [[[positions|]]|]; cbn [getArray] in *;
    try (repeat split; auto; lia).
  destruct Hwf as (Hp' & Hfin' & _ & Hidx).
  assert (lengthZ (allPositions ++ positions) / 3
          = lengthZ allPositions / 3 + lengthZ positions / 3) as Hlen
    by (rewrite lengthZ_app; now apply div3_add).
  assert (0 <= lengthZ positions / 3) as Hpos
    by (apply Z.div_pos; [apply lengthZ_nonneg|lia]).
  assert (0 <= lengthZ allPositions / 3) as Hoff
    by (apply Z.div_pos; [apply lengthZ_nonneg|lia]).
  assert (Forall (fun i => 0 <= i < lengthZ (allPositions ++ positions) / 3) allIndices)
    as Hrange'.
  { rewrite Forall_forall in *. intros i Hin. specialize (Hrange i Hin). lia. }
  split; [rewrite lengthZ_app; now apply mod3_add|].
  destruct (getIndices prim) as [[[indices|]]|]; cbn [getArray] in *.
  - destruct Hidx as [Hi' Hr'].
    split; [rewrite lengthZ_app; apply mod3_add; auto;
            unfold lengthZ; now rewrite length_map|].
    split; [apply Forall_app; auto|]. split.
    + apply Forall_app. split; [exact Hrange'|]. rewrite Forall_forall in *.
      intros j Hj. apply in_map_iff in Hj. destruct Hj as (i & <- & Hin).
      specialize (Hr' i Hin). lia.
    + split; [lia|]. split; [reflexivity|].
      rewrite lengthZ_app, div3_add by exact Hi.
      unfold lengthZ at 2. rewrite length_map. fold (lengthZ indices). lia.
  - split; [exact Hi|]. split; [apply Forall_app; auto|].
    split; [exact Hrange'|]. split; [lia|]. split; [reflexivity|]. lia.
  - assert (lengthZ (map (fun i => lengthZ allPositions / 3 + i)
                         (iota 0 (Z.to_nat (lengthZ positions / 3))))
            = lengthZ positions / 3) as Hgen
      by (unfold lengthZ at 1; rewrite length_map, length_iota; lia).
    split; [rewrite lengthZ_app, Hgen; now apply mod3_add|].
    split; [apply Forall_app; auto|]. split.
    + apply Forall_app. split; [exact Hrange'|]. rewrite Forall_forall.
      intros j Hj. apply in_map_iff in Hj. destruct Hj as (i & <- & Hin).
      apply In_iota in Hin. lia.
    + split; [lia|]. split; [reflexivity|].
      rewrite lengthZ_app, div3_add, Hgen by exact Hi. lia.
Qed.

Lemma mergePrimitives_invariant (prims : list Primitive) :
  forall (allPositions : list float) (allIndices : list Z) (triangles : Z),
    Forall wellFormedPrimitive prims ->
    lengthZ allPositions mod 3 = 0 ->
    lengthZ allIndices mod 3 = 0 ->
    Forall (fun x => Js.isFinite x = true) allPositions ->
    Forall (fun i => 0 <= i < lengthZ allPositions / 3) allIndices ->
    lengthZ allIndices / 3 = triangles ->
    let '(allPositions', allIndices', vertexOffset') :=
      fold_left primitiveStep prims
                (allPositions, allIndices, lengthZ allPositions / 3) in
    lengthZ allPositions' mod 3 = 0
    /\ lengthZ allIndices' mod 3 = 0
    /\ Forall (fun x => Js.isFinite x = true) allPositions'
    /\ Forall (fun i => 0 <= i < lengthZ allPositions' / 3) allIndices'
    /\ vertexOffset' = lengthZ allPositions' / 3
    /\ vertexOffset'
       = lengthZ allPositions / 3 + sumZ (map primitiveVertexCount prims)
    /\ lengthZ allIndices' / 3
       = triangles + sumZ (map primitiveTriangleCount prims).
Proof.
  induction prims as [|prim prims IH];
    intros allPositions allIndices triangles Hwf Hp Hi Hfin Hrange Htri.
  - cbn [fold_left map]. rewrite sumZ_nil. repeat split; auto; lia.
  - inversion Hwf as [|? ? Hprim Hrest]; subst. cbn [fold_left map].
    pose proof (primitiveStep_invariant prim allPositions allIndices
                  (lengthZ allIndices / 3) Hprim Hp Hi Hfin Hrange eq_refl) as Hstep.
    destruct (primitiveStep (allPositions, allIndices, lengthZ allPositions / 3) prim)
      as [[p1 i1] o1].
    destruct Hstep as (H1 & H2 & H3 & H4 & H5 & H6 & H7). subst o1.
    specialize (IH p1 i1 (lengthZ i1 / 3) Hrest H1 H2 H3 H4 eq_refl).
    destruct (fold_left primitiveStep prims (p1, i1, lengthZ p1 / 3)) as [[p2 i2] o2].
    destruct IH as (G1 & G2 & G3 & G4 & G5 & G6 & G7).
    rewrite !sumZ_cons. repeat split; auto; lia.
Qed.

Lemma mergeDocument_flat (document : Document) :
  forall acc,
    fold_left (fun acc mesh => fold_left primitiveStep mesh acc) document acc
    = fold_left primitiveStep (concat document) acc.
Proof.
  induction document as [|mesh document IH]; intros acc; cbn [fold_left concat].
  - reflexivity.
  - now rewrite IH, fold_left_app.
Qed.

(** The loop over the primitives appends the merged arrays. *)
Lemma mergePrimitives_merged (prims : list Primitive) :
  forall (allPositions : list float) (allIndices : list Z) (vertexOffset : Z),
    fold_left primitiveStep prims (allPositions, allIndices, vertexOffset)
    = (allPositions ++ fst (mergedFrom vertexOffset prims),
       allIndices ++ snd (mergedFrom vertexOffset prims),
       vertexOffset + sumZ (map primitiveVertexCount prims)).
Proof.
  induction prims as [|prim prims IH]; intros allPositions allIndices vertexOffset.
  - cbn. rewrite !app_nil_r, Z.add_0_r. reflexivity.
  - cbn [fold_left map mergedFrom]. rewrite sumZ_cons.
    unfold primitiveStep at 2, primitiveVertexCount at 1, shiftedIndices,
      primitivePositions.
    destruct (getPOSITION prim) as [[[positions|]]|]; cbn [getArray fst snd].
    + destruct (getIndices prim) as [[[indices|]]|]; cbn [getArray];
        rewrite IH, <- !app_assoc, Z.add_assoc; reflexivity.
    + rewrite IH. reflexivity.
    + rewrite IH. reflexivity.
Qed.

Lemma merged_binary32 (prims : list Primitive) :
  forall offset,
    Forall wellFormedPrimitive prims ->
    Forall (fun x => Js.fround x = x) (fst (mergedFrom offset prims)).
Proof.
  induction prims as [|prim prims IH]; intros offset Hwf; cbn [mergedFrom].
  - constructor.
  - inversion Hwf as [|? ? Hprim Hrest]; subst. unfold wellFormedPrimitive in Hprim.
    destruct (primitivePositions prim) as [positions|]; [|now apply IH].
    cbn [fst]. apply Forall_app. split; [tauto|now apply IH].
Qed.

Lemma Float32Array_binary32 (numbers : list float) :
  Forall (fun x => Js.fround x = x) numbers -> Float32Array numbers = numbers.
Proof.
  unfold Float32Array. induction 1 as [|x l Hx _ IH]; cbn [map]; congruence.
Qed.

(** X6.  A document whose primitives are well formed (whole triples of
    finite binary32 coordinates, indices into the primitive's own
    vertices, fewer than 2^32 position entries and no more triangles than
    the cap in all) is analysed as the merged mesh: the position arrays
    one after the other, and every primitive's indices shifted by the
    number of vertices of the primitives before it.  A primitive without
    positions contributes nothing and a primitive without indices one
    index per vertex.  The merged mesh is a valid input under the cap,
    with the sum of the primitives' vertex counts as its vertex count and
    the sum of their triangle counts as its triangle count. *)
Theorem document_merges_into_valid_mesh (Math_acos : float -> float)
    (document : Document) :
  Forall wellFormedPrimitive (concat document) ->
  3 * sumZ (map primitiveVertexCount (concat document)) < 4294967296 ->
  sumZ (map primitiveTriangleCount (concat document)) <= 5592405 ->
  let positions := fst (mergedFrom 0 (concat document)) in
  let indices := snd (mergedFrom 0 (concat document)) in
  (forall stack,
      computeDiagnosticsFromDocument Math_acos stack document
      = computeMeshDiagnostics Math_acos stack positions indices)
  /\ validMesh positions indices
  /\ underCap indices
  /\ lengthZ positions / 3 = sumZ (map primitiveVertexCount (concat document))
  /\ lengthZ indices / 3 = sumZ (map primitiveTriangleCount (concat document)).
Proof.
  intros Hwf Hfit Hcap. cbn zeta.
  pose proof (mergePrimitives_invariant (concat document) [] [] 0 Hwf
                eq_refl eq_refl (Forall_nil _) (Forall_nil _) eq_refl) as Hinv.
  change (lengthZ (@nil float) / 3) with 0 in Hinv.
  rewrite mergePrimitives_merged in Hinv. cbn [app] in Hinv.
  destruct Hinv as (H1 & H2 & H3 & H4 & H5 & H6 & H7).
  split; [|split; [|split; [|split]]].
  - intros stack. unfold computeDiagnosticsFromDocument, mergeDocument.
    rewrite mergeDocument_flat, mergePrimitives_merged. cbn [app].
    now rewrite (Float32Array_binary32 _ (merged_binary32 _ 0 Hwf)).
  - constructor; auto.
    pose proof (Z.div_mod (lengthZ (fst (mergedFrom 0 (concat document)))) 3). lia.
  - unfold underCap. lia.
  - lia.
  - lia.
Qed.

Lemma document_merges_into_valid_mesh_witness :
  Forall wellFormedPrimitive (concat sampleDocument)
  /\ 3 * sumZ (map primitiveVertexCount (concat sampleDocument)) < 4294967296
  /\ sumZ (map primitiveTriangleCount (concat sampleDocument)) <= 5592405
  /\ (forall stack,
         computeDiagnosticsFromDocument acosHost stack sampleDocument
         = computeMeshDiagnostics acosHost stack
             (fst (mergedFrom 0 (concat sampleDocument)))
             (snd (mergedFrom 0 (concat sampleDocument))))
  /\ validMesh (fst (mergedFrom 0 (concat sampleDocument)))
              (snd (mergedFrom 0 (concat sampleDocument)))
  /\ underCap (snd (mergedFrom 0 (concat sampleDocument)))
  /\ lengthZ (fst (mergedFrom 0 (concat sampleDocument))) / 3
     = sumZ (map primitiveVertexCount (concat sampleDocument))
  /\ lengthZ (snd (mergedFrom 0 (concat sampleDocument))) / 3
     = sumZ (map primitiveTriangleCount (concat sampleDocument)).
Proof.
  assert (Forall wellFormedPrimitive (concat sampleDocument)) as Hwf.
  { repeat constructor; cbn; lia. }
  assert (3 * sumZ (map primitiveVertexCount (concat sampleDocument)) < 4294967296)
    as Hfit by (vm_compute; reflexivity).
  assert (sumZ (map primitiveTriangleCount (concat sampleDocument)) <= 5592405)
    as Hcap by (vm_compute; discriminate).
  split; [exact Hwf|]. split; [exact Hfit|]. split; [exact Hcap|].
  exact (document_merges_into_valid_mesh acosHost sampleDocument Hwf Hfit Hcap).
Defined.

(* ===================================================================== *)
(** ** Comparisons of binary64 values                                     *)
(* ===================================================================== *)

Ltac settle_comparison :=
  repeat split; intros H;
  first [discriminate | reflexivity | lia | congruence
        | (injection H; intros; subst; first [lia | reflexivity | congruence])].

Lemma SFcompare_key (x y : spec_float) :
  x <> S754_nan -> y <> S754_nan ->
  (SFcompare x y = Some Lt <-> keyLt (floatKey x) (floatKey y))
  /\ (SFcompare x y = Some Gt <-> keyLt (floatKey y) (floatKey x))
  /\ (SFcompare x y = Some Eq <-> floatKey x = floatKey y).
Proof.
  intros Hx Hy.
  destruct x as [s1|s1| |s1 m1 e1], y as [s2|s2| |s2 m2 e2]; try congruence;
    cbn [SFcompare floatKey];
    repeat match goal with s : bool |- _ => destruct s end;
    cbn [keyLt]; try settle_comparison.
  - destruct (Z.compare_spec e1 e2) as [->|He|He]; try settle_comparison.
    rewrite Pos.compare_cont_spec. cbn [Pos.switch_Eq].
    destruct (Pos.compare_spec m1 m2) as [->|Hm|Hm]; cbn [CompOpp]; settle_comparison.
  - destruct (Z.compare_spec e1 e2) as [->|He|He]; try settle_comparison.
    rewrite Pos.compare_cont_spec. cbn [Pos.switch_Eq].
    destruct (Pos.compare_spec m1 m2) as [->|Hm|Hm]; settle_comparison.
Qed.

Lemma is_nan_spec (x : float) : is_nan x = false <-> Prim2SF x <> S754_nan.
Proof.
  unfold is_nan. rewrite eqb_spec. unfold SFeqb. split.
  - intros H E. rewrite E in H. discriminate.
  - intros H. now rewrite SFcompare_refl.
Qed.

Lemma ltb_fless (x y : float) :
  PrimFloat.ltb x y = true <-> is_nan x = false /\ is_nan y = false /\ fless x y.
Proof.
  rewrite ltb_spec, !is_nan_spec. unfold SFltb, fless, keyOf. split.
  - intros H.
    assert (Prim2SF x <> S754_nan) as Hx
      by (intros E; rewrite E in H; discriminate).
    assert (Prim2SF y <> S754_nan) as Hy
      by (intros E; rewrite E in H; destruct (Prim2SF x); discriminate).
    split; [exact Hx|]. split; [exact Hy|].
    apply (SFcompare_key _ _ Hx Hy).
    destruct (SFcompare (Prim2SF x) (Prim2SF y)) as [[| |]|]; congruence.
  - intros (Hx & Hy & H). apply (SFcompare_key _ _ Hx Hy) in H. now rewrite H.
Qed.

Lemma leb_fleq (x y : float) :
  PrimFloat.leb x y = true <-> is_nan x = false /\ is_nan y = false /\ fleq x y.
Proof.
  rewrite leb_spec, !is_nan_spec. unfold SFleb, fleq, keyOf. split.
  - intros H.
    assert (Prim2SF x <> S754_nan) as Hx
      by (intros E; rewrite E in H; discriminate).
    assert (Prim2SF y <> S754_nan) as Hy
      by (intros E; rewrite E in H; destruct (Prim2SF x); discriminate).
    split; [exact Hx|]. split; [exact Hy|]. intros Hgt.
    apply (SFcompare_key _ _ Hx Hy) in Hgt. rewrite Hgt in H. discriminate.
  - intros (Hx & Hy & H).
    destruct (SFcompare_key _ _ Hx Hy) as (_ & Hgt & _).
    destruct (SFcompare (Prim2SF x) (Prim2SF y)) as [[| |]|] eqn:E; try reflexivity.
    + exfalso. apply H, Hgt. reflexivity.
    + destruct (Prim2SF x), (Prim2SF y); cbn in E; congruence.
Qed.

Lemma ltb_false_fleq (x y : float) :
  is_nan x = false -> is_nan y = false ->
  PrimFloat.ltb x y = false -> fleq y x.
Proof.
  intros Hx Hy H Hlt. enough (PrimFloat.ltb x y = true) by congruence.
  apply ltb_fless. auto.
Qed.

Ltac key_order :=
  unfold fleq, fless, keyLt in *;
  repeat match goal with
         | |- context [keyOf ?x] =>
             let a := fresh "a" in let b := fresh "b" in let c := fresh "c" in
             destruct (keyOf x) as [[a b] c]
         | H : context [keyOf ?x] |- _ =>
             let a := fresh "a" in let b := fresh "b" in let c := fresh "c" in
             destruct (keyOf x) as [[a b] c]
         end;
  lia.

Lemma fleq_refl (x : float) : fleq x x.
Proof. key_order. Qed.

Lemma fleq_trans (x y z : float) : fleq x y -> fleq y z -> fleq x z.
Proof. intros H1 H2. key_order. Qed.

Lemma fless_fleq (x y : float) : fless x y -> fleq x y.
Proof. intros H. key_order. Qed.

Lemma fless_trans (x y z : float) : fless x y -> fless y z -> fless x z.
Proof. intros H1 H2. key_order. Qed.

Lemma fless_fleq_trans (x y z : float) : fless x y -> fleq y z -> fless x z.
Proof. intros H1 H2. key_order. Qed.

Lemma fleq_fless_trans (x y z : float) : fleq x y -> fless y z -> fless x z.
Proof. intros H1 H2. key_order. Qed.

Lemma fless_irrefl (x : float) : ~ fless x x.
Proof. intros H. key_order. Qed.

Lemma fless_not_fleq (x y : float) : fless x y -> ~ fleq y x.
Proof. intros H1 H2. key_order. Qed.

Lemma isFinite_not_nan (x : float) : Js.isFinite x = true -> is_nan x = false.
Proof.
  unfold Js.isFinite. intros H. apply andb_prop in H. destruct H as [H _].
  now apply negb_true_iff in H.
Qed.

(* ===================================================================== *)
(** ** The bounding box                                                   *)
(* ===================================================================== *)

Lemma In_vertices (positions : list float) (x y z : float) :
  In (x, y, z) (vertices positions) ->
  In x positions /\ In y positions /\ In z positions.
Proof.
  revert x y z.
  assert (forall n (l : list float), (length l <= n)%nat ->
          forall x y z, In (x, y, z) (vertices l) -> In x l /\ In y l /\ In z l) as G.
  { induction n as [|n IH]; intros l Hl x y z H.
    - destruct l; [destruct H|cbn in Hl; lia].
    - destruct l as [|a [|b [|c rest]]]; simpl in H; try contradiction.
      destruct H as [H|H].
      + injection H as -> -> ->. cbn. tauto.
      + apply IH in H; [|cbn in Hl; lia]. cbn. tauto. }
  intros x y z. apply (G (length positions)). lia.
Qed.

Lemma isFinite_between_infinities (x : float) :
  Js.isFinite x = true -> fless neg_infinity x /\ fless x infinity.
Proof.
  unfold Js.isFinite, is_infinity. intros H. apply andb_prop in H.
  destruct H as [Hnan Hinf]. apply negb_true_iff in Hnan, Hinf.
  apply is_nan_spec in Hnan. rewrite eqb_spec, abs_spec in Hinf.
  unfold fless, keyOf.
  replace (Prim2SF infinity) with (S754_infinity false) in * by reflexivity.
  replace (Prim2SF neg_infinity) with (S754_infinity true) by reflexivity.
  destruct (Prim2SF x) as [s|s| |s m e]; cbn in *; try congruence;
    try destruct s; cbn; lia.
Qed.

Lemma stepMin_fold (xs : list float) :
  forall m, is_nan m = false -> Forall (fun x => is_nan x = false) xs ->
    let r := fold_left stepMin xs m in
    is_nan r = false /\ fleq r m /\ (forall x, In x xs -> fleq r x)
    /\ (r = m \/ In r xs).
Proof.
  induction xs as [|x xs IH]; intros m Hm Hxs; cbn [fold_left].
  - split; [exact Hm|]. split; [apply fleq_refl|]. split; [intros x []|now left].
  - inversion Hxs as [|? ? Hx Hrest]; subst.
    assert (is_nan (stepMin m x) = false /\ fleq (stepMin m x) m
            /\ fleq (stepMin m x) x /\ (stepMin m x = m \/ stepMin m x = x))
      as (Hn & H1 & H2 & H3).
    { unfold stepMin. destruct (PrimFloat.ltb x m) eqn:E.
      - apply ltb_fless in E. destruct E as (_ & _ & E).
        repeat split; auto using fleq_refl, fless_fleq.
      - repeat split; auto using fleq_refl. now apply ltb_false_fleq. }
    destruct (IH (stepMin m x) Hn Hrest) as (G0 & G1 & G2 & G3).
    split; [exact G0|]. split; [eapply fleq_trans; eauto|]. split.
    + intros y [<-|Hy]; [eapply fleq_trans; eauto|now apply G2].
    + destruct G3 as [G3|G3]; [|right; now right].
      rewrite G3. destruct H3 as [->| ->]; [now left|right; now left].
Qed.

Lemma stepMax_fold (xs : list float) :
  forall m, is_nan m = false -> Forall (fun x => is_nan x = false) xs ->
    let r := fold_left stepMax xs m in
    is_nan r = false /\ fleq m r /\ (forall x, In x xs -> fleq x r)
    /\ (r = m \/ In r xs).
Proof.
  induction xs as [|x xs IH]; intros m Hm Hxs; cbn [fold_left].
  - split; [exact Hm|]. split; [apply fleq_refl|]. split; [intros x []|now left].
  - inversion Hxs as [|? ? Hx Hrest]; subst.
    assert (is_nan (stepMax m x) = false /\ fleq m (stepMax m x)
            /\ fleq x (stepMax m x) /\ (stepMax m x = m \/ stepMax m x = x))
      as (Hn & H1 & H2 & H3).
    { unfold stepMax, Js.gt. destruct (PrimFloat.ltb m x) eqn:E.
      - apply ltb_fless in E. destruct E as (_ & _ & E).
        repeat split; auto using fleq_refl, fless_fleq.
      - repeat split; auto using fleq_refl. now apply ltb_false_fleq. }
    destruct (IH (stepMax m x) Hn Hrest) as (G0 & G1 & G2 & G3).
    split; [exact G0|]. split; [eapply fleq_trans; eauto|]. split.
    + intros y [<-|Hy]; [eapply fleq_trans; eauto|now apply G2].
    + destruct G3 as [G3|G3]; [|right; now right].
      rewrite G3. destruct H3 as [->| ->]; [now left|right; now left].
Qed.

(** The scan keeps six independent running bounds. *)
Lemma boundsStep_fold (vs : list (float * float * float)) :
  forall lo hi,
    fold_left boundsStep vs (lo, hi)
    = (mkVec3 (fold_left stepMin (map xOf vs) (vx lo))
              (fold_left stepMin (map yOf vs) (vy lo))
              (fold_left stepMin (map zOf vs) (vz lo)),
       mkVec3 (fold_left stepMax (map xOf vs) (vx hi))
              (fold_left stepMax (map yOf vs) (vy hi))
              (fold_left stepMax (map zOf vs) (vz hi))).
Proof.
  induction vs as [|[[x y] z] vs IH]; intros lo hi; cbn [fold_left map].
  - destruct lo, hi. reflexivity.
  - cbn [boundsStep]. rewrite IH. reflexivity.
Qed.

Lemma first_bound_is_attained (step : float -> float -> float)
    (m0 : float) (xs : list float) :
  xs <> [] ->
  (forall x, In x xs -> step m0 x = x) ->
  (forall m x, step m x = m \/ step m x = x) ->
  In (fold_left step xs m0) xs.
Proof.
  intros Hne Hfirst Hstep. destruct xs as [|x xs]; [congruence|].
  cbn [fold_left]. rewrite (Hfirst x) by now left.
  clear Hne Hfirst. revert x. induction xs as [|y xs IH]; intros x; cbn [fold_left].
  - now left.
  - destruct (Hstep x y) as [E|E]; rewrite E.
    + destruct (IH x) as [H|H]; [now left|right; now right].
    + right. apply IH.
Qed.

Lemma coordinates_finite (positions : list float) (proj : float * float * float -> float) :
  (proj = xOf \/ proj = yOf \/ proj = zOf) ->
  Forall (fun c => Js.isFinite c = true) positions ->
  Forall (fun c => Js.isFinite c = true) (map proj (vertices positions)).
Proof.
  intros Hproj Hfin. rewrite Forall_forall in *. intros c Hc.
  apply in_map_iff in Hc. destruct Hc as ([[x y] z] & <- & Hin).
  apply In_vertices in Hin. destruct Hin as (Hx & Hy & Hz).
  destruct Hproj as [->|[->| ->]]; cbn; auto.
Qed.

Lemma lower_bound_scan (xs : list float) :
  Forall (fun c => Js.isFinite c = true) xs -> xs <> [] ->
  let r := fold_left stepMin xs infinity in
  (forall x, In x xs -> PrimFloat.leb r x = true) /\ In r xs.
Proof.
  intros Hfin Hne. cbn zeta.
  assert (Forall (fun x => is_nan x = false) xs) as Hnan.
  { rewrite Forall_forall in *. intros x Hx. apply isFinite_not_nan. auto. }
  destruct (stepMin_fold xs infinity eq_refl Hnan) as (H0 & _ & H2 & _).
  split.
  - intros x Hx. apply leb_fleq. split; [exact H0|]. split; [|now apply H2].
    rewrite Forall_forall in Hnan. auto.
  - apply first_bound_is_attained; [exact Hne| |].
    + intros x Hx. unfold stepMin. rewrite Forall_forall in Hfin.
      destruct (isFinite_between_infinities x (Hfin x Hx)) as [_ Hlt].
      assert (PrimFloat.ltb x infinity = true) as ->; [|reflexivity].
      apply ltb_fless. split; [apply isFinite_not_nan; auto|]. split; [reflexivity|exact Hlt].
    + intros m x. unfold stepMin. destruct (PrimFloat.ltb x m); auto.
Qed.

Lemma upper_bound_scan (xs : list float) :
  Forall (fun c => Js.isFinite c = true) xs -> xs <> [] ->
  let r := fold_left stepMax xs neg_infinity in
  (forall x, In x xs -> PrimFloat.leb x r = true) /\ In r xs.
Proof.
  intros Hfin Hne. cbn zeta.
  assert (Forall (fun x => is_nan x = false) xs) as Hnan.
  { rewrite Forall_forall in *. intros x Hx. apply isFinite_not_nan. auto. }
  destruct (stepMax_fold xs neg_infinity eq_refl Hnan) as (H0 & _ & H2 & _).
  split.
  - intros x Hx. apply leb_fleq. split; [|split; [exact H0|now apply H2]].
    rewrite Forall_forall in Hnan. auto.
  - apply first_bound_is_attained; [exact Hne| |].
    + intros x Hx. unfold stepMax, Js.gt. rewrite Forall_forall in Hfin.
      destruct (isFinite_between_infinities x (Hfin x Hx)) as [Hlt _].
      assert (PrimFloat.ltb neg_infinity x = true) as ->; [|reflexivity].
      apply ltb_fless. split; [reflexivity|]. split; [apply isFinite_not_nan; auto|exact Hlt].
    + intros m x. unfold stepMax. destruct (Js.gt x m); auto.
Qed.

(** X7.  The bounding box of finite positions (whole triples, at least
    one vertex) is the smallest axis-aligned box around them: every vertex lies between
    [min] and [max] on each axis, and each of the six bounds is the
    coordinate of some vertex. *)
Theorem bounding_box_is_tight (positions : list float) :
  lengthZ positions mod 3 = 0 ->
  Forall (fun c => Js.isFinite c = true) positions ->
  vertices positions <> [] ->
  let b := computeBoundingBox positions in
  let vs := vertices positions in
  (forall p, In p vs ->
     PrimFloat.leb (vx (bmin b)) (xOf p) = true
     /\ PrimFloat.leb (xOf p) (vx (bmax b)) = true
     /\ PrimFloat.leb (vy (bmin b)) (yOf p) = true
     /\ PrimFloat.leb (yOf p) (vy (bmax b)) = true
     /\ PrimFloat.leb (vz (bmin b)) (zOf p) = true
     /\ PrimFloat.leb (zOf p) (vz (bmax b)) = true)
  /\ In (vx (bmin b)) (map xOf vs) /\ In (vx (bmax b)) (map xOf vs)
  /\ In (vy (bmin b)) (map yOf vs) /\ In (vy (bmax b)) (map yOf vs)
  /\ In (vz (bmin b)) (map zOf vs) /\ In (vz (bmax b)) (map zOf vs).
Proof.
  intros _ Hfin Hne. cbn zeta.
  assert (computeBoundingBox positions = boxOf positions) as ->
    by (unfold computeBoundingBox; destruct (vertices positions); [congruence|reflexivity]).
  unfold boxOf. rewrite boundsStep_fold. cbn [bmin bmax vx vy vz].
  assert (forall proj : float * float * float -> float,
             map proj (vertices positions) <> []) as Hmap
    by (intros proj; destruct (vertices positions); [congruence|discriminate]).
  pose proof (lower_bound_scan _ (coordinates_finite positions xOf (or_introl eq_refl) Hfin)
                (Hmap xOf)) as [Lx Ax].
  pose proof (lower_bound_scan _
                (coordinates_finite positions yOf (or_intror (or_introl eq_refl)) Hfin)
                (Hmap yOf)) as [Ly Ay].
  pose proof (lower_bound_scan _
                (coordinates_finite positions zOf (or_intror (or_intror eq_refl)) Hfin)
                (Hmap zOf)) as [Lz Az].
  pose proof (upper_bound_scan _ (coordinates_finite positions xOf (or_introl eq_refl) Hfin)
                (Hmap xOf)) as [Ux Bx].
  pose proof (upper_bound_scan _
                (coordinates_finite positions yOf (or_intror (or_introl eq_refl)) Hfin)
                (Hmap yOf)) as [Uy By].
  pose proof (upper_bound_scan _
                (coordinates_finite positions zOf (or_intror (or_intror eq_refl)) Hfin)
                (Hmap zOf)) as [Uz Bz].
  split; [|repeat split; assumption].
  intros p Hp.
  repeat split; first [apply Lx | apply Ux | apply Ly | apply Uy | apply Lz | apply Uz];
    now apply in_map.
Qed.

Lemma bounding_box_is_tight_witness :
  lengthZ tetraPositions mod 3 = 0
  /\ Forall (fun c => Js.isFinite c = true) tetraPositions
  /\ vertices tetraPositions <> []
  /\ let b := computeBoundingBox tetraPositions in
     let vs := vertices tetraPositions in
     (forall p, In p vs ->
        PrimFloat.leb (vx (bmin b)) (xOf p) = true
        /\ PrimFloat.leb (xOf p) (vx (bmax b)) = true
        /\ PrimFloat.leb (vy (bmin b)) (yOf p) = true
        /\ PrimFloat.leb (yOf p) (vy (bmax b)) = true
        /\ PrimFloat.leb (vz (bmin b)) (zOf p) = true
        /\ PrimFloat.leb (zOf p) (vz (bmax b)) = true)
     /\ In (vx (bmin b)) (map xOf vs) /\ In (vx (bmax b)) (map xOf vs)
     /\ In (vy (bmin b)) (map yOf vs) /\ In (vy (bmax b)) (map yOf vs)
     /\ In (vz (bmin b)) (map zOf vs) /\ In (vz (bmax b)) (map zOf vs).
Proof.
  assert (Forall (fun c => Js.isFinite c = true) tetraPositions) as Hfin
    by (repeat constructor).
  assert (vertices tetraPositions <> []) as Hne by discriminate.
  split; [reflexivity|]. split; [exact Hfin|]. split; [exact Hne|].
  exact (bounding_box_is_tight tetraPositions eq_refl Hfin Hne).
Defined.

(* ===================================================================== *)
(** ** Math.min, Math.max and clamp                                       *)
(* ===================================================================== *)

Lemma min2_spec (a b : float) :
  is_nan a = false -> is_nan b = false ->
  is_nan (Js.min2 a b) = false
  /\ fleq (Js.min2 a b) a /\ fleq (Js.min2 a b) b
  /\ (Js.min2 a b = a \/ Js.min2 a b = b).
Proof.
  intros Ha Hb. unfold Js.min2. rewrite Ha, Hb. cbn [orb].
  destruct (PrimFloat.ltb a b) eqn:E1.
  { apply ltb_fless in E1. destruct E1 as (_ & _ & E1).
    repeat split; auto using fleq_refl, fless_fleq. }
  destruct (PrimFloat.ltb b a) eqn:E2.
  { apply ltb_fless in E2. destruct E2 as (_ & _ & E2).
    repeat split; auto using fleq_refl, fless_fleq. }
  pose proof (ltb_false_fleq a b Ha Hb E1). pose proof (ltb_false_fleq b a Hb Ha E2).
  destruct (Js.is_neg_zero a); repeat split; auto using fleq_refl.
Qed.

Lemma max2_spec (a b : float) :
  is_nan a = false -> is_nan b = false ->
  is_nan (Js.max2 a b) = false
  /\ fleq a (Js.max2 a b) /\ fleq b (Js.max2 a b)
  /\ (Js.max2 a b = a \/ Js.max2 a b = b).
Proof.
  intros Ha Hb. unfold Js.max2. rewrite Ha, Hb. cbn [orb].
  destruct (PrimFloat.ltb b a) eqn:E1.
  { apply ltb_fless in E1. destruct E1 as (_ & _ & E1).
    repeat split; auto using fleq_refl, fless_fleq. }
  destruct (PrimFloat.ltb a b) eqn:E2.
  { apply ltb_fless in E2. destruct E2 as (_ & _ & E2).
    repeat split; auto using fleq_refl, fless_fleq. }
  pose proof (ltb_false_fleq a b Ha Hb E2). pose proof (ltb_false_fleq b a Hb Ha E1).
  destruct (Js.is_neg_zero a); repeat split; auto using fleq_refl.
Qed.

(** X8.  [clamp(value, min, max)] with [min <= max] and a value that is
    not NaN returns a number between [min] and [max], and returns the
    value itself when it lies strictly between them. *)
Theorem clamp_stays_in_range (value lo hi : float) :
  is_nan value = false -> PrimFloat.leb lo hi = true ->
  let r := MathUtils.clamp value lo hi in
  PrimFloat.leb lo r = true /\ PrimFloat.leb r hi = true
  /\ (PrimFloat.ltb lo value = true -> PrimFloat.ltb value hi = true -> r = value).
Proof.
  intros Hv Hle. cbn zeta. unfold MathUtils.clamp.
  apply leb_fleq in Hle. destruct Hle as (Hlo & Hhi & Hle).
  destruct (min2_spec hi value Hhi Hv) as (Hm & Hm1 & Hm2 & Hm3).
  destruct (max2_spec lo (Js.min2 hi value) Hlo Hm) as (Hr & Hr1 & Hr2 & Hr3).
  split; [apply leb_fleq; auto|]. split.
  - apply leb_fleq. split; [exact Hr|]. split; [exact Hhi|].
    destruct Hr3 as [->| ->]; assumption.
  - intros H1 H2.
    assert (Js.min2 hi value = value) as E.
    { unfold Js.min2. rewrite Hhi, Hv. cbn [orb].
      apply ltb_fless in H2. destruct H2 as (_ & _ & H2).
      destruct (PrimFloat.ltb hi value) eqn:E1.
      - apply ltb_fless in E1. destruct E1 as (_ & _ & E1).
        exfalso. eapply fless_irrefl, fless_trans; eauto.
      - assert (PrimFloat.ltb value hi = true) as -> by (apply ltb_fless; auto).
        reflexivity. }
    rewrite E. unfold Js.max2. rewrite Hlo, Hv. cbn [orb].
    destruct (PrimFloat.ltb value lo) eqn:E1; [|now rewrite H1].
    apply ltb_fless in E1, H1. destruct E1 as (_ & _ & E1). destruct H1 as (_ & _ & H1).
    exfalso. eapply fless_irrefl, fless_trans; eauto.
Qed.

Lemma clamp_stays_in_range_witness :
  is_nan 0.5%float = false /\ PrimFloat.leb 0%float 1%float = true
  /\ let r := MathUtils.clamp 0.5%float 0%float 1%float in
     PrimFloat.leb 0%float r = true /\ PrimFloat.leb r 1%float = true
     /\ (PrimFloat.ltb 0%float 0.5%float = true -> PrimFloat.ltb 0.5%float 1%float = true ->
         r = 0.5%float).
Proof.
  split; [reflexivity|]. split; [reflexivity|].
  exact (clamp_stays_in_range 0.5%float 0%float 1%float eq_refl eq_refl).
Defined.

(** X9.  On an array of whole triples the bounding box of math-utils and
    the bounding box the diagnostics compute are the same record. *)
Theorem bounding_boxes_agree (positions : list float) :
  lengthZ positions mod 3 = 0 ->
  MathUtils.computeBoundingBox positions = computeBoundingBox positions.
Proof.
  intros Htriples. unfold MathUtils.computeBoundingBox, computeBoundingBox.
  destruct positions as [|x [|y [|z rest]]];
    try (unfold lengthZ in Htriples; cbn in Htriples; discriminate).
  - reflexivity.
  - rewrite !lengthZ_cons. pose proof (lengthZ_nonneg rest).
    destruct (Z.ltb_spec (lengthZ rest + 1 + 1 + 1) 3); [lia|reflexivity].
Qed.

Lemma bounding_boxes_agree_witness :
  lengthZ tetraPositions mod 3 = 0
  /\ MathUtils.computeBoundingBox tetraPositions = computeBoundingBox tetraPositions.
Proof.
  split; [reflexivity|]. exact (bounding_boxes_agree tetraPositions eq_refl).
Defined.

(* ===================================================================== *)
(** ** Dihedral angles                                                    *)
(* ===================================================================== *)

Lemma sharp_is_not_coplanar (angle : float) :
  PrimFloat.ltb angle 30 = true -> Js.gt angle 170 = false.
Proof.
  intros H. unfold Js.gt. destruct (PrimFloat.ltb 170 angle) eqn:E; [|reflexivity].
  apply ltb_fless in H, E. destruct H as (_ & _ & H). destruct E as (_ & _ & E).
  pose proof (fless_trans _ _ _ E H) as Habs.
  unfold fless, keyOf in Habs. vm_compute in Habs. intuition discriminate.
Qed.

Lemma dihedralStep_invariant (Math_acos : float -> float)
    (faceNormals : list (float * float * float)) (e : Z * list Z)
    (angles : list float) (sharp coplanar n : Z) :
  0 <= sharp -> 0 <= coplanar -> sharp + coplanar <= lengthZ angles ->
  lengthZ angles <= n ->
  let '(angles', sharp', coplanar') :=
    dihedralStep Math_acos faceNormals (angles, sharp, coplanar) e in
  0 <= sharp' /\ 0 <= coplanar'
  /\ sharp' + coplanar' <= lengthZ angles'
  /\ lengthZ angles' <= n + (if lengthZ (snd e) =? 2 then 1 else 0).
Proof.
  intros Hs Hc Hsum Hn. unfold dihedralStep.
  assert (0 <= (if lengthZ (snd e) =? 2 then 1 else 0)) as Hflag
    by (destruct (lengthZ (snd e) =? 2); lia).
  destruct (snd e) as [|t1 [|t2 [|t3 rest]]]; try (repeat split; lia).
  destruct (dihedralAngle Math_acos faceNormals t1 t2) as [angle|];
    [|repeat split; lia].
  change (lengthZ [t1; t2] =? 2) with true. cbn iota.
  rewrite lengthZ_app. change (lengthZ [angle]) with 1.
  pose proof (sharp_is_not_coplanar angle) as Hexcl.
  destruct (PrimFloat.ltb angle 30); [rewrite Hexcl by reflexivity|];
    try destruct (Js.gt angle 170); repeat split; lia.
Qed.

Lemma dihedralStep_counts (Math_acos : float -> float)
    (faceNormals : list (float * float * float)) (m : list (Z * list Z)) :
  forall angles sharp coplanar n,
    0 <= sharp -> 0 <= coplanar -> sharp + coplanar <= lengthZ angles ->
    lengthZ angles <= n ->
    let '(angles', sharp', coplanar') :=
      fold_left (dihedralStep Math_acos faceNormals) m (angles, sharp, coplanar) in
    0 <= sharp' /\ 0 <= coplanar'
    /\ sharp' + coplanar' <= lengthZ angles'
    /\ lengthZ angles'
       <= n + lengthZ (filter (fun e : Z * list Z => lengthZ (snd e) =? 2) m).
Proof.
  induction m as [|e m IH]; intros angles sharp coplanar n Hs Hc Hsum Hn;
    cbn [fold_left filter].
  - change (lengthZ (@nil (Z * list Z))) with 0. repeat split; lia.
  - pose proof (dihedralStep_invariant Math_acos faceNormals e angles sharp coplanar n
                  Hs Hc Hsum Hn) as Hstep.
    destruct (dihedralStep Math_acos faceNormals (angles, sharp, coplanar) e)
      as [[a1 s1] c1].
    destruct Hstep as (H1 & H2 & H3 & H4).
    specialize (IH a1 s1 c1 _ H1 H2 H3 H4).
    destruct (fold_left (dihedralStep Math_acos faceNormals) m (a1, s1, c1))
      as [[a2 s2] c2].
    destruct IH as (G1 & G2 & G3 & G4).
    destruct (lengthZ (snd e) =? 2); rewrite ?lengthZ_cons; repeat split; lia.
Qed.

Lemma two_face_edges (m : list (Z * list Z)) :
  (forall e, In e m -> 1 <= lengthZ (snd e)) ->
  lengthZ (filter (fun e : Z * list Z => lengthZ (snd e) =? 2) m)
  = lengthZ m
    - lengthZ (filter (fun e : Z * list Z => lengthZ (snd e) =? 1) m)
    - lengthZ (filter (fun e : Z * list Z => 2 <? lengthZ (snd e)) m).
Proof.
  induction m as [|e m IH]; intros Hpos; [reflexivity|].
  assert (1 <= lengthZ (snd e)) as He by (apply Hpos; now left).
  specialize (IH (fun x Hx => Hpos x (or_intror Hx))).
  cbn [filter].
  destruct (Z.eqb_spec (lengthZ (snd e)) 2), (Z.eqb_spec (lengthZ (snd e)) 1),
    (Z.ltb_spec 2 (lengthZ (snd e))); rewrite ?lengthZ_cons; lia.
Qed.

(** X10.  On a valid input under the cap whose grid cells fit, the
    analysis returns (given enough call stack) and, whatever the host's
    [Math.acos], dihedral angles are measured only across edges with
    exactly two faces and no edge is both sharp and coplanar:
    [sharpEdgeCount + coplanarEdgeCount] is at most
    [edgeCount - boundaryEdgeCount - nonManifoldEdgeCount], both counts
    are non-negative, and both are 0 when [dihedralAngleStats] is
    absent. *)
Theorem dihedral_counts_only_interior_edges (Math_acos : float -> float)
    (positions : list float) (indices : list Z) :
  validMesh positions indices -> underCap indices ->
  cellsFit positions indices ->
  analysisReturns Math_acos positions indices (fun r =>
    0 <= sharpEdgeCount r /\ 0 <= coplanarEdgeCount r
    /\ sharpEdgeCount r + coplanarEdgeCount r
       <= edgeCount r - boundaryEdgeCount r - nonManifoldEdgeCount r
    /\ (dihedralAngleStats r = None ->
        sharpEdgeCount r = 0 /\ coplanarEdgeCount r = 0)).
Proof.
  intros Hvalid Hcap _. apply analysisReturns_full; auto. intros components.
  cbn [sharpEdgeCount coplanarEdgeCount edgeCount boundaryEdgeCount
       nonManifoldEdgeCount dihedralAngleStats fullDiagnostics].
  rewrite countBoundaryEdges_filter, countNonManifoldEdges_filter.
  destruct (edge_face_map_lists_incident_triangles_aux indices) as (Hpos & _).
  rewrite <- two_face_edges by (intros [k faces] Hin; now apply (Hpos k faces)).
  unfold computeDihedralAngles.
  pose proof (dihedralStep_counts Math_acos
                (map (computeFaceNormal positions) (triangles indices))
                (buildEdgeFaceMap indices) [] 0 0 0) as H.
  destruct (fold_left _ (buildEdgeFaceMap indices) ([], 0, 0)) as [[angles sharp] coplanar].
  cbn [dr_sharpEdgeCount dr_coplanarEdgeCount dr_dihedralAngleStats].
  destruct H as (H1 & H2 & H3 & H4);
    [lia|lia|unfold lengthZ; cbn; lia|unfold lengthZ; cbn; lia|].
  split; [exact H1|]. split; [exact H2|]. split; [lia|].
  intros Hnone. destruct angles as [|a angles]; [|discriminate].
  change (lengthZ (@nil float)) with 0 in H3. lia.
Qed.

Lemma dihedral_counts_only_interior_edges_witness :
  validMesh tetraPositions tetraIndices
  /\ underCap tetraIndices
  /\ cellsFit tetraPositions tetraIndices
  /\ analysisReturns acosHost tetraPositions tetraIndices (fun r =>
       0 <= sharpEdgeCount r /\ 0 <= coplanarEdgeCount r
       /\ sharpEdgeCount r + coplanarEdgeCount r
          <= edgeCount r - boundaryEdgeCount r - nonManifoldEdgeCount r
       /\ (dihedralAngleStats r = None ->
           sharpEdgeCount r = 0 /\ coplanarEdgeCount r = 0)).
Proof.
  assert (validMesh tetraPositions tetraIndices) as Hvalid
    by (apply validMeshb_sound; vm_compute; reflexivity).
  assert (underCap tetraIndices) as Hcap by (vm_compute; discriminate).
  assert (cellsFit tetraPositions tetraIndices) as Hcells
    by (vm_compute; reflexivity).
  split; [exact Hvalid|]. split; [exact Hcap|]. split; [exact Hcells|].
  exact (dihedral_counts_only_interior_edges acosHost tetraPositions tetraIndices
           Hvalid Hcap Hcells).
Defined.

(* ===================================================================== *)
(** ** The spatial hash grid                                              *)
(* ===================================================================== *)

Lemma int_eqb_eq (a b : Js.int) : Js.int_eqb a b = true <-> a = b.
Proof.
  destruct a as [|s|x], b as [|t|y]; cbn; try (split; [discriminate|congruence]).
  - tauto.
  - rewrite Bool.eqb_true_iff. split; congruence.
  - rewrite Z.eqb_eq. split; congruence.
Qed.

Lemma cell_eqb_eq (a b : CellKey) : cell_eqb a b = true <-> a = b.
Proof.
  destruct a as [[ax ay] az], b as [[bx by_] bz]. unfold cell_eqb.
  rewrite !andb_true_iff, !int_eqb_eq. split; [intros [[-> ->] ->]|intros [= -> -> ->]]; auto.
Qed.

Section MapFacts.

Context {K T : Type}.
Variable eqb : K -> K -> bool.
Hypothesis eqb_eq : forall x y, eqb x y = true <-> x = y.

Lemma eqb_refl_gen (k : K) : eqb k k = true.
Proof. now apply eqb_eq. Qed.

Lemma mget_mset_gen (k k' : K) (v : list T) (m : list (K * list T)) :
  mget eqb k' (mset eqb k v m) = if eqb k k' then Some v else mget eqb k' m.
Proof.
  induction m as [|[x w] r IH]; cbn [mset mget].
  - reflexivity.
  - destruct (eqb x k) eqn:E1.
    + apply eqb_eq in E1. subst x. cbn [mget]. destruct (eqb k k'); reflexivity.
    + cbn [mget]. rewrite IH. destruct (eqb x k') eqn:E2; [|reflexivity].
      apply eqb_eq in E2. subst x. destruct (eqb k k') eqn:E3; [|reflexivity].
      apply eqb_eq in E3. subst k'. rewrite eqb_refl_gen in E1. discriminate.
Qed.

Lemma valuesOf_mensure (k k' : K) (m : list (K * list T)) :
  valuesOf eqb k' (mensure eqb k m) = valuesOf eqb k' m.
Proof.
  unfold mensure, mhas, valuesOf. destruct (mget eqb k m) eqn:E; [reflexivity|].
  rewrite mget_mset_gen. destruct (eqb k k') eqn:E1; [|reflexivity].
  apply eqb_eq in E1. subst k'. now rewrite E.
Qed.

Lemma mhas_mensure_gen (k : K) (m : list (K * list T)) :
  exists l, mget eqb k (mensure eqb k m) = Some l.
Proof.
  unfold mensure, mhas. destruct (mget eqb k m) as [l|] eqn:E.
  - exists l. exact E.
  - exists []. now rewrite mget_mset_gen, eqb_refl_gen.
Qed.

(** [if (!m.has(k)) m.set(k, []); m.get(k).push(t)] adds [t] at the end of
    the array under [k] and touches no other array. *)
Lemma valuesOf_push (k k' : K) (t : T) (m : list (K * list T)) :
  valuesOf eqb k' (mappend eqb k t (mensure eqb k m))
  = if eqb k k' then valuesOf eqb k' m ++ [t] else valuesOf eqb k' m.
Proof.
  destruct (mhas_mensure_gen k m) as [l Hl].
  unfold mappend. rewrite Hl. unfold valuesOf at 1. rewrite mget_mset_gen.
  destruct (eqb k k') eqn:E.
  - apply eqb_eq in E. subst k'. rewrite <- (valuesOf_mensure k k m).
    unfold valuesOf. now rewrite Hl.
  - fold (valuesOf eqb k' (mensure eqb k m)). apply valuesOf_mensure.
Qed.

End MapFacts.

Lemma gridInsert_values (cellSize : float) (entry : Z * TriBounds) (key : CellKey)
    (t : Z) :
  forall grid,
    In t (valuesOf cell_eqb key (gridInsert cellSize grid entry))
    <-> In t (valuesOf cell_eqb key grid)
        \/ (t = fst entry /\ In key (boundsCells cellSize (snd entry))).
Proof.
  unfold gridInsert. induction (boundsCells cellSize (snd entry)) as [|c cells IH];
    intros grid; cbn [fold_left In].
  - tauto.
  - rewrite IH, (valuesOf_push cell_eqb cell_eqb_eq).
    destruct (cell_eqb c key) eqn:E.
    + apply cell_eqb_eq in E. subst c. rewrite in_app_iff. cbn [In]. intuition congruence.
    + assert (c <> key) by (intros ->; rewrite (proj2 (cell_eqb_eq key key) eq_refl) in E;
                            discriminate).
      intuition congruence.
Qed.

Lemma grid_values (cellSize : float) (entries : list (Z * TriBounds)) (key : CellKey)
    (t : Z) :
  forall grid,
    In t (valuesOf cell_eqb key (fold_left (gridInsert cellSize) entries grid))
    <-> In t (valuesOf cell_eqb key grid)
        \/ exists b, In (t, b) entries /\ In key (boundsCells cellSize b).
Proof.
  induction entries as [|[t' b'] entries IH]; intros grid; cbn [fold_left In].
  - split; [now left|]. intros [H|(b & [] & _)]. exact H.
  - rewrite IH, gridInsert_values. cbn [fst snd]. split.
    + intros [[H|[-> H]]|(b & Hin & Hkey)]; eauto 6.
    + intros [H|(b & [[= -> ->]|Hin] & Hkey)]; eauto 6.
Qed.

Lemma gridQuery_spec (cellSize : float) (grid : list (CellKey * list Z))
    (q : TriBounds) :
  NoDup (gridQuery cellSize grid q)
  /\ forall t, In t (gridQuery cellSize grid q)
               <-> exists key, In key (boundsCells cellSize q)
                               /\ In t (valuesOf cell_eqb key grid).
Proof.
  unfold gridQuery.
  assert (forall tris result,
             let r := fold_left (fun r x => sadd Z.eqb x r) tris result in
             (NoDup result -> NoDup r)
             /\ forall t, In t r <-> In t result \/ In t tris) as Hadd.
  { induction tris as [|x tris IH]; intros result; cbn [fold_left In].
    - split; [auto|]. intros t. tauto.
    - destruct (IH (sadd Z.eqb x result)) as [IH1 IH2]. split.
      + intros Hnd. now apply IH1, NoDup_sadd.
      + intros t. rewrite IH2, In_sadd. intuition congruence. }
  assert (forall keys result,
             let r := fold_left
                        (fun result key =>
                           match mget cell_eqb key grid with
                           | Some tris => fold_left (fun r x => sadd Z.eqb x r) tris result
                           | None => result
                           end) keys result in
             (NoDup result -> NoDup r)
             /\ forall t, In t r
                          <-> In t result
                              \/ exists key, In key keys
                                             /\ In t (valuesOf cell_eqb key grid)) as Hkeys.
  { induction keys as [|key keys IH]; intros result; cbn [fold_left In].
    - split; [auto|]. intros t. split; [now left|]. intros [H|(k & [] & _)]. exact H.
    - unfold valuesOf in *. destruct (mget cell_eqb key grid) as [tris|] eqn:E.
      + destruct (Hadd tris result) as [A1 A2].
        destruct (IH (fold_left (fun r x => sadd Z.eqb x r) tris result)) as [IH1 IH2].
        split; [auto|]. intros t. rewrite IH2, A2. split.
        * intros [[H|H]|(k & Hk & Ht)]; eauto.
          right. exists key. rewrite E. auto.
        * intros [H|(k & [<-|Hk] & Ht)]; eauto. rewrite E in Ht. auto.
      + destruct (IH result) as [IH1 IH2]. split; [auto|]. intros t. rewrite IH2. split.
        * intros [H|(k & Hk & Ht)]; eauto.
        * intros [H|(k & [<-|Hk] & Ht)]; eauto. rewrite E in Ht. destruct Ht. }
  destruct (Hkeys (boundsCells cellSize q) []) as [H1 H2].
  split; [apply H1; constructor|]. intros t. rewrite H2. cbn [In]. tauto.
Qed.

(** X11.  The spatial hash grid, for bounds whose cells fit (so that the
    loops of [insert] and [query] end): a query over given bounds returns,
    each once, exactly the inserted entries whose cell range has a cell in
    common with the cell range of the query. *)
Theorem grid_query_returns_entries_sharing_a_cell (cellSize : float)
    (entries : list (Z * TriBounds)) (q : TriBounds) :
  Forall (fun entry => boundsFit cellSize (snd entry) = true) entries ->
  boundsFit cellSize q = true ->
  let grid := fold_left (gridInsert cellSize) entries [] in
  NoDup (gridQuery cellSize grid q)
  /\ forall t, In t (gridQuery cellSize grid q)
               <-> exists b, In (t, b) entries /\ shareCell cellSize b q.
Proof.
  intros _ _. cbn zeta.
  destruct (gridQuery_spec cellSize (fold_left (gridInsert cellSize) entries []) q)
    as [Hnd Hin].
  split; [exact Hnd|]. intros t. rewrite Hin. unfold shareCell. split.
  - intros (key & Hq & Ht). apply grid_values in Ht.
    destruct Ht as [[]|(b & Hb & Hkey)]. eauto.
  - intros (b & Hb & key & Hkey & Hq). exists key. split; [exact Hq|].
    apply grid_values. eauto.
Qed.

Lemma grid_query_returns_entries_sharing_a_cell_witness :
  Forall (fun entry => boundsFit 1 (snd entry) = true) sampleEntries
  /\ boundsFit 1 sampleQuery = true
  /\ NoDup (gridQuery 1 (fold_left (gridInsert 1) sampleEntries []) sampleQuery)
  /\ forall t, In t (gridQuery 1 (fold_left (gridInsert 1) sampleEntries [])
                               sampleQuery)
               <-> exists b, In (t, b) sampleEntries /\ shareCell 1 b sampleQuery.
Proof.
  assert (Forall (fun entry : Z * TriBounds => boundsFit 1 (snd entry) = true)
            sampleEntries) as Hfit by (repeat constructor).
  assert (boundsFit 1 sampleQuery = true) as Hq by reflexivity.
  split; [exact Hfit|]. split; [exact Hq|].
  exact (grid_query_returns_entries_sharing_a_cell 1 sampleEntries sampleQuery
           Hfit Hq).
Defined.

(* ===================================================================== *)
(** ** The pairs of the self-intersection pass                            *)
(* ===================================================================== *)

Lemma lookupZ_map {A B : Type} (f : A -> B) (l : list A) :
  forall k, lookupZ (map f l) k = option_map f (lookupZ l k).
Proof.
  induction l as [|x l IH]; intros k; cbn; [reflexivity|].
  destruct (k =? 0); [reflexivity|apply IH].
Qed.

Lemma keys_indexedFrom {A : Type} (l : list A) :
  forall s, map fst (indexedFrom s l) = iota s (length l).
Proof.
  induction l as [|x l IH]; intros s; cbn; [reflexivity|]. now rewrite IH.
Qed.

Lemma triangleAt_lookup (indices : list Z) (t : Z) (tri : Z * Z * Z) :
  lookupZ (triangles indices) t = Some tri -> triangleAt indices t = tri.
Proof. unfold triangleAt. now intros ->. Qed.

Lemma In_triBounds (positions : list float) (indices : list Z) (t : Z) (b : TriBounds) :
  In (t, b) (indexed (map (triBoundsOf positions) (triangles indices)))
  <-> 0 <= t < lengthZ indices / 3
      /\ b = triBoundsOf positions (triangleAt indices t).
Proof.
  rewrite In_indexed, lookupZ_map, <- length_triangles. split.
  - intros H. destruct (lookupZ (triangles indices) t) as [tri|] eqn:E; [|discriminate].
    injection H as <-. split; [eapply lookupZ_Some_range; eauto|].
    now rewrite (triangleAt_lookup _ _ _ E).
  - intros [Hr ->]. destruct (lookupZ_in_range _ _ Hr) as [tri E].
    now rewrite E, (triangleAt_lookup _ _ _ E).
Qed.

Lemma NoDup_flat_map_keyed {A B C : Type} (key : A -> C) (proj : B -> C)
    (g : A -> list B) (l : list A) :
  NoDup (map key l) ->
  (forall x y, In x l -> In y (g x) -> proj y = key x) ->
  (forall x, In x l -> NoDup (g x)) ->
  NoDup (flat_map g l).
Proof.
  induction l as [|x l IH]; intros Hnd Hkey Hg; cbn [flat_map]; [constructor|].
  inversion Hnd as [|? ? Hx Hl]; subst.
  apply NoDup_app.
  - apply Hg. now left.
  - apply IH; auto. intros; apply Hkey; auto. now right.
    intros; apply Hg. now right.
  - intros y Hy Hy'. apply in_flat_map in Hy'. destruct Hy' as (x' & Hx' & Hy').
    apply Hx. rewrite <- (Hkey x y) by (auto; now left).
    rewrite (Hkey x' y) by (auto; now right). now apply in_map.
Qed.

Lemma NoDup_flat_map_single {A B : Type} (p : A -> bool) (f : A -> B) (l : list A) :
  (forall x y, f x = f y -> x = y) -> NoDup l ->
  NoDup (flat_map (fun x => if p x then [f x] else []) l).
Proof.
  intros Hinj. induction 1 as [|x l Hx Hl IH]; cbn [flat_map]; [constructor|].
  destruct (p x); cbn [app]; [|exact IH]. constructor; [|exact IH].
  intros H. apply in_flat_map in H. destruct H as (y & Hy & H).
  destruct (p y); [|destruct H]. destruct H as [H|[]].
  apply Hinj in H. now subst.
Qed.

Lemma shareCell_sym (cellSize : float) (b q : TriBounds) :
  shareCell cellSize b q <-> shareCell cellSize q b.
Proof. unfold shareCell. split; intros (key & H1 & H2); eauto. Qed.

(** X12.  On an index array of whole triples whose grid cells fit (so
    that the loops of the grid end), the self-intersection pass counts
    each pair once, and counts the pair [(t1, t2)] exactly when [t1 < t2]
    are triangles whose bounds share a grid cell, that do not share two
    vertices, and that the triangle-triangle test reports as
    intersecting. *)
Theorem self_intersections_count_each_pair_once (positions : list float)
    (indices : list Z) (boundingBox : option BoundingBox) :
  lengthZ indices mod 3 = 0 ->
  gridFits (intersectionCellSize boundingBox (lengthZ indices / 3))
           positions indices = true ->
  let triangleCount := lengthZ indices / 3 in
  let cellSize := intersectionCellSize boundingBox triangleCount in
  let boundsAt := fun t => triBoundsOf positions (triangleAt indices t) in
  let pairs := selfIntersectionPairs positions indices boundingBox in
  detectSelfIntersections positions indices boundingBox = lengthZ pairs
  /\ NoDup pairs
  /\ forall t1 t2,
       In (t1, t2) pairs
       <-> 0 <= t1 < t2 /\ t2 < triangleCount
           /\ shareCell cellSize (boundsAt t1) (boundsAt t2)
           /\ trianglesAdjacent (triangleAt indices t1) (triangleAt indices t2) = false
           /\ intersectsAt positions indices t1 t2 = true.
Proof.
  intros _ _. cbn zeta. split; [reflexivity|]. unfold selfIntersectionPairs. cbn zeta.
  set (cellSize := intersectionCellSize boundingBox (lengthZ indices / 3)).
  set (triBounds := indexed (map (triBoundsOf positions) (triangles indices))).
  set (grid := fold_left (gridInsert cellSize) triBounds []).
  assert (forall q, NoDup (gridQuery cellSize grid q)
                    /\ forall t, In t (gridQuery cellSize grid q)
                                 <-> exists b, In (t, b) triBounds /\ shareCell cellSize b q)
    as Hquery.
  { intros q. destruct (gridQuery_spec cellSize grid q) as [Hnd Hin].
    split; [exact Hnd|]. intros t. rewrite Hin. unfold shareCell. split.
    - intros (key & Hq & Ht). apply grid_values in Ht.
      destruct Ht as [[]|(b & Hb & Hkey)]. eauto.
    - intros (b & Hb & key & Hkey & Hq). exists key. split; [exact Hq|].
      apply grid_values. eauto. }
  split.
  - apply (NoDup_flat_map_keyed fst fst).
    + unfold triBounds, indexed. rewrite keys_indexedFrom. apply NoDup_iota.
    + intros entry y _ Hy. apply in_flat_map in Hy. destruct Hy as (t2 & _ & Hy).
      destruct (t2 <=? fst entry); [destruct Hy|].
      destruct (trianglesAdjacent _ _); [destruct Hy|].
      destruct (intersectsAt _ _ _ _); [|destruct Hy].
      destruct Hy as [<-|[]]. reflexivity.
    + intros entry _.
      pose proof (NoDup_flat_map_single
               (fun t2 => negb (t2 <=? fst entry)
                          && negb (trianglesAdjacent (triangleAt indices (fst entry))
                                                     (triangleAt indices t2))
                          && intersectsAt positions indices (fst entry) t2)
               (fun t2 => (fst entry, t2))
               (gridQuery cellSize grid (snd entry))) as Hnd.
      erewrite flat_map_ext; [apply Hnd|].
      * intros x y [= ->]. reflexivity.
      * apply Hquery.
      * intros t2. cbn beta.
        destruct (t2 <=? fst entry); [reflexivity|].
        destruct (trianglesAdjacent _ _); [reflexivity|].
        destruct (intersectsAt _ _ _ _); reflexivity.
  - intros t1 t2. rewrite in_flat_map. split.
    + intros ([t b] & Hentry & Hin). cbn [fst snd] in Hin.
      apply in_flat_map in Hin. destruct Hin as (c & Hc & Hin).
      destruct (Z.leb_spec c t) as [|Hlt]; [destruct Hin|].
      destruct (trianglesAdjacent _ _) eqn:Hadj; [destruct Hin|].
      destruct (intersectsAt positions indices t c) eqn:Hhit; [|destruct Hin].
      destruct Hin as [[= -> ->]|[]].
      apply In_triBounds in Hentry. destruct Hentry as [Ht1 ->].
      apply Hquery in Hc. destruct Hc as (b2 & Hb2 & Hshare).
      apply In_triBounds in Hb2. destruct Hb2 as [Ht2 ->].
      repeat split; try lia; auto. now apply shareCell_sym.
    + intros (H1 & H2 & Hshare & Hadj & Hhit).
      exists (t1, triBoundsOf positions (triangleAt indices t1)).
      split; [apply In_triBounds; split; [lia|reflexivity]|].
      cbn [fst snd]. apply in_flat_map. exists t2. split.
      * apply Hquery. exists (triBoundsOf positions (triangleAt indices t2)).
        split; [apply In_triBounds; split; [lia|reflexivity]|now apply shareCell_sym].
      * destruct (Z.leb_spec t2 t1); [lia|]. rewrite Hadj, Hhit. now left.
Qed.

Lemma self_intersections_count_each_pair_once_witness :
  lengthZ intersectionIndices mod 3 = 0
  /\ gridFits (intersectionCellSize (Some (computeBoundingBox intersectionPositions))
                                    (lengthZ intersectionIndices / 3))
              intersectionPositions intersectionIndices = true
  /\ detectSelfIntersections intersectionPositions intersectionIndices
       (Some (computeBoundingBox intersectionPositions))
     = lengthZ (selfIntersectionPairs intersectionPositions intersectionIndices
                  (Some (computeBoundingBox intersectionPositions)))
  /\ NoDup (selfIntersectionPairs intersectionPositions intersectionIndices
              (Some (computeBoundingBox intersectionPositions)))
  /\ forall t1 t2,
       In (t1, t2) (selfIntersectionPairs intersectionPositions intersectionIndices
                      (Some (computeBoundingBox intersectionPositions)))
       <-> 0 <= t1 < t2 /\ t2 < lengthZ intersectionIndices / 3
           /\ shareCell
                (intersectionCellSize (Some (computeBoundingBox intersectionPositions))
                                      (lengthZ intersectionIndices / 3))
                (triBoundsOf intersectionPositions (triangleAt intersectionIndices t1))
                (triBoundsOf intersectionPositions (triangleAt intersectionIndices t2))
           /\ trianglesAdjacent (triangleAt intersectionIndices t1)
                                (triangleAt intersectionIndices t2) = false
           /\ intersectsAt intersectionPositions intersectionIndices t1 t2 = true.
Proof.
  assert (gridFits (intersectionCellSize
                      (Some (computeBoundingBox intersectionPositions))
                      (lengthZ intersectionIndices / 3))
                   intersectionPositions intersectionIndices = true) as Hfit
    by (vm_compute; reflexivity).
  split; [reflexivity|]. split; [exact Hfit|].
  exact (self_intersections_count_each_pair_once intersectionPositions
           intersectionIndices (Some (computeBoundingBox intersectionPositions))
           eq_refl Hfit).
Defined.

(* ===================================================================== *)
(** ** The pairs of the overlay                                           *)
(* ===================================================================== *)

Lemma fold_left_preserves_in {A X : Type} (P : A -> Prop) (step : A -> X -> A)
    (l : list X) :
  (forall a x, In x l -> P a -> P (step a x)) ->
  forall a, P a -> P (fold_left step l a).
Proof.
  induction l as [|x l IH]; intros Hstep a Ha; cbn [fold_left]; [exact Ha|].
  apply IH; [intros; apply Hstep; auto; now right|]. apply Hstep; auto. now left.
Qed.

Lemma candidateStep_tidy (positions : list float) (indices : list Z) (t1 t2 : Z)
    (acc : list (Z * Z) * list (Z * Z)) :
  pairsTidy acc -> pairsTidy (candidateStep positions indices t1 acc t2).
Proof.
  destruct acc as [checked pairs]. unfold pairsTidy, candidateStep. cbn [fst snd].
  intros [Hnd Hsub].
  destruct (t2 <=? t1); [auto|].
  destruct (shas pair_eqb (t1, t2) checked) eqn:Hseen; [auto|].
  apply (shas_false_gen pair_eqb pair_eqb_eq) in Hseen.
  assert (forall p, In p pairs -> In p (sadd pair_eqb (t1, t2) checked)) as Hsub'
    by (intros p Hp; apply (In_sadd_gen pair_eqb pair_eqb_eq); right; auto).
  destruct (trianglesAdjacent _ _); cbn [fst snd]; [auto|].
  destruct (trianglesIntersectSimple _ _ _ _); cbn [fst snd]; [|auto].
  split.
  - apply NoDup_app; [exact Hnd|repeat constructor; auto|].
    intros p Hp [<-|[]]. auto.
  - intros p Hp. apply in_app_or in Hp. destruct Hp as [Hp|[<-|[]]]; [auto|].
    apply (In_sadd_gen pair_eqb pair_eqb_eq). now left.
Qed.

Lemma candidateStep_within (R : Z -> Z -> Prop) (positions : list float)
    (indices : list Z) (t1 t2 : Z) (acc : list (Z * Z) * list (Z * Z)) :
  (t1 < t2 -> R t1 t2) ->
  checkedWithin R acc -> checkedWithin R (candidateStep positions indices t1 acc t2).
Proof.
  destruct acc as [checked pairs]. unfold checkedWithin, candidateStep. cbn [fst].
  intros HR Hin. destruct (Z.leb_spec t2 t1); [auto|].
  destruct (shas pair_eqb (t1, t2) checked); [auto|].
  assert (forall a b, In (a, b) (sadd pair_eqb (t1, t2) checked) -> R a b) as Hnew.
  { intros a b Hab. apply (In_sadd_gen pair_eqb pair_eqb_eq) in Hab.
    destruct Hab as [[= -> ->]|Hab]; auto. }
  destruct (trianglesAdjacent _ _); cbn [fst]; [auto|].
  destruct (trianglesIntersectSimple _ _ _ _); cbn [fst]; auto.
Qed.

(** X13.  The pairs the overlay finds on arrays of whole triples whose
    grid cells fit (so that the loops over the cells end): no pair twice,
    and the pair [(t1, t2)] exactly when [t1 < t2] are triangles whose
    bounds share a cell of the overlay's grid, that do not share two
    vertices, and that pass the two plane checks of
    [trianglesIntersectSimple]. *)
Theorem overlay_finds_each_pair_once (positions : list float) (indices : list Z) :
  lengthZ positions mod 3 = 0 -> lengthZ indices mod 3 = 0 ->
  overlayCellsFit positions indices ->
  let triangleCount := lengthZ indices / 3 in
  let cellSize := estimateCellSize positions triangleCount in
  let boundsAt := fun t => triBoundsOf positions (triangleAt indices t) in
  let found := findIntersectingTrianglePairs positions indices in
  NoDup found
  /\ forall t1 t2,
       In (t1, t2) found
       <-> 0 <= t1 < t2 /\ t2 < triangleCount
           /\ shareCell cellSize (boundsAt t1) (boundsAt t2)
           /\ trianglesAdjacent (triangleAt indices t1) (triangleAt indices t2) = false
           /\ trianglesIntersectSimple positions indices t1 t2 = true.
Proof.
  intros _ _ _. cbn zeta. unfold findIntersectingTrianglePairs. cbn zeta.
  set (cellSize := estimateCellSize positions (lengthZ indices / 3)).
  set (triBounds := indexed (map (triBoundsOf positions) (triangles indices))).
  set (grid := fold_left (gridInsert cellSize) triBounds []).
  set (R := fun t1 t2 : Z =>
              0 <= t1 < t2 /\ t2 < lengthZ indices / 3
              /\ shareCell cellSize (triBoundsOf positions (triangleAt indices t1))
                           (triBoundsOf positions (triangleAt indices t2))).
  set (final := fold_left (triangleStep positions indices cellSize grid) triBounds ([], [])).
  assert (forall key t2, In t2 (valuesOf cell_eqb key grid)
                         <-> exists b, In (t2, b) triBounds
                                       /\ In key (boundsCells cellSize b)) as Hgrid.
  { intros key t2. unfold grid. rewrite grid_values. cbn [valuesOf mget In]. tauto. }
  assert (pairsTidy final) as [Hnd Hsub].
  { apply fold_left_preserves; [|split; [constructor|intros p []]].
    intros acc entry Hacc. unfold triangleStep.
    apply fold_left_preserves; [|exact Hacc]. clear acc Hacc.
    intros acc key Hacc. unfold cellStep. destruct (mget cell_eqb key grid); [|exact Hacc].
    apply fold_left_preserves; [|exact Hacc]. intros. now apply candidateStep_tidy. }
  assert (checkedWithin R final) as Hwithin.
  { apply fold_left_preserves_in; [|intros a b []].
    intros acc [t1 b1] Hentry Hacc. unfold triangleStep. cbn [fst snd].
    apply In_triBounds in Hentry. destruct Hentry as [Ht1 ->].
    apply fold_left_preserves_in; [|exact Hacc]. clear acc Hacc.
    intros acc key Hkey Hacc. unfold cellStep.
    destruct (mget cell_eqb key grid) as [candidates|] eqn:E; [|exact Hacc].
    apply fold_left_preserves_in; [|exact Hacc]. clear acc Hacc.
    intros acc t2 Ht2 Hacc. apply candidateStep_within; [|exact Hacc].
    intros Hlt. assert (In t2 (valuesOf cell_eqb key grid)) as Hv
      by (unfold valuesOf; now rewrite E).
    apply Hgrid in Hv. destruct Hv as (b2 & Hb2 & Hkey2).
    apply In_triBounds in Hb2. destruct Hb2 as [Hr2 ->].
    unfold R. repeat split; try lia. exists key. auto. }
  assert (accepted positions indices final) as Hacc.
  { apply (fold_left_preserves (accepted positions indices)); [|intros a b []].
    intros acc entry Ha. unfold triangleStep.
    apply (fold_left_preserves (accepted positions indices)); [|exact Ha].
    clear acc Ha. intros acc key Ha. unfold cellStep.
    destruct (mget cell_eqb key _); [|exact Ha].
    apply (fold_left_preserves (accepted positions indices)); [|exact Ha].
    intros. now apply candidateStep_accepted. }
  destruct (loop_spec positions indices (triangleStep positions indices cellSize grid)
              (fun entry p => exists key tris t2,
                   In key (boundsCells cellSize (snd entry))
                   /\ mget cell_eqb key grid = Some tris /\ In t2 tris
                   /\ fst entry < t2 /\ p = (fst entry, t2)))
    with (l := triBounds) (acc := ([] : list (Z * Z), [] : list (Z * Z)))
    as (Hcov & _ & Hadds).
  { intros a e Ha. now apply triangleStep_spec. }
  { intros a b []. }
  fold final in Hcov, Hadds.
  split; [exact Hnd|]. intros t1 t2. split.
  - intros Hin. destruct (Hacc t1 t2 Hin) as (Hlt & Hadj & Hsimple).
    destruct (Hwithin t1 t2 (Hsub _ Hin)) as (H1 & H2 & H3).
    repeat split; auto; lia.
  - intros (H1 & H2 & (key & Hk1 & Hk2) & Hadj & Hsimple).
    apply Hcov; [|exact Hadj|exact Hsimple].
    assert (In t2 (valuesOf cell_eqb key grid)) as Hv.
    { apply Hgrid. exists (triBoundsOf positions (triangleAt indices t2)).
      split; [apply In_triBounds; split; [lia|reflexivity]|exact Hk2]. }
    unfold valuesOf in Hv. destruct (mget cell_eqb key grid) as [tris|] eqn:E; [|destruct Hv].
    eapply (Hadds (t1, triBoundsOf positions (triangleAt indices t1))).
    + apply In_triBounds. split; [lia|reflexivity].
    + exists key, tris, t2. cbn [fst snd]. repeat split; auto; lia.
Qed.

Lemma overlay_finds_each_pair_once_witness :
  lengthZ intersectionPositions mod 3 = 0
  /\ lengthZ intersectionIndices mod 3 = 0
  /\ overlayCellsFit intersectionPositions intersectionIndices
  /\ NoDup (findIntersectingTrianglePairs intersectionPositions intersectionIndices)
  /\ forall t1 t2,
       In (t1, t2) (findIntersectingTrianglePairs intersectionPositions
                                                  intersectionIndices)
       <-> 0 <= t1 < t2 /\ t2 < lengthZ intersectionIndices / 3
           /\ shareCell
                (estimateCellSize intersectionPositions
                                  (lengthZ intersectionIndices / 3))
                (triBoundsOf intersectionPositions (triangleAt intersectionIndices t1))
                (triBoundsOf intersectionPositions (triangleAt intersectionIndices t2))
           /\ trianglesAdjacent (triangleAt intersectionIndices t1)
                                (triangleAt intersectionIndices t2) = false
           /\ trianglesIntersectSimple intersectionPositions intersectionIndices
                                       t1 t2 = true.
Proof.
  assert (overlayCellsFit intersectionPositions intersectionIndices) as Hfit
    by (vm_compute; reflexivity).
  split; [reflexivity|]. split; [reflexivity|]. split; [exact Hfit|].
  exact (overlay_finds_each_pair_once intersectionPositions intersectionIndices
           eq_refl eq_refl Hfit).
Defined.

(* ===================================================================== *)
(** ** Adjacent triangles                                                 *)
(* ===================================================================== *)

(** X14.  For two triangles whose own three vertices are distinct,
    [trianglesAdjacent] does not depend on which triangle comes first, and
    a triangle is adjacent to itself (so it is never tested against
    itself). *)
Theorem adjacency_is_symmetric (a0 a1 a2 b0 b1 b2 : Z) :
  a0 <> a1 -> a1 <> a2 -> a0 <> a2 -> b0 <> b1 -> b1 <> b2 -> b0 <> b2 ->
  trianglesAdjacent (a0, a1, a2) (b0, b1, b2)
  = trianglesAdjacent (b0, b1, b2) (a0, a1, a2)
  /\ trianglesAdjacent (a0, a1, a2) (a0, a1, a2) = true.
Proof.
  intros Ha01 Ha12 Ha02 Hb01 Hb12 Hb02. unfold trianglesAdjacent. split.
  - rewrite (Z.eqb_sym a0 b0), (Z.eqb_sym a0 b1), (Z.eqb_sym a0 b2),
      (Z.eqb_sym a1 b0), (Z.eqb_sym a1 b1), (Z.eqb_sym a1 b2),
      (Z.eqb_sym a2 b0), (Z.eqb_sym a2 b1), (Z.eqb_sym a2 b2).
    destruct (Z.eqb_spec b0 a0), (Z.eqb_spec b0 a1), (Z.eqb_spec b0 a2),
      (Z.eqb_spec b1 a0), (Z.eqb_spec b1 a1), (Z.eqb_spec b1 a2),
      (Z.eqb_spec b2 a0), (Z.eqb_spec b2 a1), (Z.eqb_spec b2 a2);
      try congruence; reflexivity.
  - rewrite !Z.eqb_refl. cbn [orb]. 
    destruct (a1 =? a0), (a2 =? a0), (a2 =? a1); reflexivity.
Qed.

Lemma adjacency_is_symmetric_witness :
  0 <> 1 /\ 1 <> 2 /\ 0 <> 2 /\ 2 <> 1 /\ 1 <> 3 /\ 2 <> 3
  /\ trianglesAdjacent (0, 1, 2) (2, 1, 3) = trianglesAdjacent (2, 1, 3) (0, 1, 2)
  /\ trianglesAdjacent (0, 1, 2) (0, 1, 2) = true.
Proof.
  assert (0 <> 1) as H01 by lia. assert (1 <> 2) as H12 by lia.
  assert (0 <> 2) as H02 by lia. assert (2 <> 1) as H21 by lia.
  assert (1 <> 3) as H13 by lia. assert (2 <> 3) as H23 by lia.
  repeat (split; [assumption|]).
  exact (adjacency_is_symmetric 0 1 2 2 1 3 H01 H12 H02 H21 H13 H23).
Defined.

(* ===================================================================== *)
(** ** Duplicate vertices                                                 *)
(* ===================================================================== *)

Lemma iota_snoc (n : nat) : forall s, iota s (S n) = iota s n ++ [s + Z.of_nat n].
Proof.
  induction n as [|n IH]; intros s.
  - cbn. now rewrite Z.add_0_r.
  - change (iota s (S (S n))) with (s :: iota (s + 1) (S n)). rewrite IH.
    cbn [iota app]. do 3 f_equal. lia.
Qed.

Lemma vertexAt_lookup (positions : list float) :
  forall i p, lookupZ (vertices positions) i = Some p -> vertexAt positions i = p.
Proof.
  assert (forall n (l : list float), (length l <= n)%nat ->
          forall i p, lookupZ (vertices l) i = Some p -> vertexAt l i = p) as G.
  { induction n as [|n IH]; intros l Hl i p H.
    - destruct l; [discriminate|cbn in Hl; lia].
    - destruct l as [|x [|y [|z rest]]]; try discriminate.
      cbn [vertices lookupZ] in H. destruct (Z.eqb_spec i 0) as [->|Hi].
      + injection H as <-. reflexivity.
      + assert (0 <= i - 1) as Hpos by (apply lookupZ_Some_range in H; lia).
        apply IH in H; [|cbn in Hl; lia]. rewrite <- H.
        unfold vertexAt, coord. cbn [lookupZ].
        destruct (Z.eqb_spec (i * 3) 0), (Z.eqb_spec (i * 3 - 1) 0),
          (Z.eqb_spec (i * 3 - 1 - 1) 0), (Z.eqb_spec (i * 3 + 1) 0),
          (Z.eqb_spec (i * 3 + 1 - 1) 0), (Z.eqb_spec (i * 3 + 1 - 1 - 1) 0),
          (Z.eqb_spec (i * 3 + 2) 0), (Z.eqb_spec (i * 3 + 2 - 1) 0),
          (Z.eqb_spec (i * 3 + 2 - 1 - 1) 0); try lia.
        replace (i * 3 - 1 - 1 - 1) with ((i - 1) * 3) by lia.
        replace (i * 3 + 1 - 1 - 1 - 1) with ((i - 1) * 3 + 1) by lia.
        replace (i * 3 + 2 - 1 - 1 - 1) with ((i - 1) * 3 + 2) by lia.
        reflexivity. }
  intros i p. apply (G (length positions)). lia.
Qed.

Lemma indexedFrom_lookup {A : Type} (f : Z -> A) (l : list A) :
  forall s, (forall i x, lookupZ l i = Some x -> f (s + i) = x) ->
            indexedFrom s l = map (fun i => (i, f i)) (iota s (length l)).
Proof.
  induction l as [|x l IH]; intros s H; cbn [indexedFrom length iota map]; [reflexivity|].
  rewrite <- (H 0 x) by reflexivity. rewrite Z.add_0_r. f_equal.
  apply IH. intros i y Hy. replace (s + 1 + i) with (s + (i + 1)) by lia.
  apply H. cbn [lookupZ]. pose proof (lookupZ_Some_range _ _ _ Hy).
  destruct (Z.eqb_spec (i + 1) 0); [lia|]. now replace (i + 1 - 1) with i by lia.
Qed.

Lemma indexed_vertices (positions : list float) :
  indexed (vertices positions)
  = map (fun i => (i, vertexAt positions i)) (iota 0 (length (vertices positions))).
Proof. apply indexedFrom_lookup. intros i p. apply vertexAt_lookup. Qed.

Lemma earlierInCell_snoc (positions : list float) (key : CellKey) (n : nat) :
  earlierInCell positions key (S n)
  = earlierInCell positions key n
    ++ (if cell_eqb (duplicateCell positions (Z.of_nat n)) key then [Z.of_nat n] else []).
Proof. unfold earlierInCell. rewrite iota_snoc, filter_app. reflexivity. Qed.

(** The grid after the first [n] vertices: under each key the earlier
    vertices of that cell, and no entry for an empty cell. *)
Lemma duplicateStep_invariant (positions : list float) (n : nat)
    (grid : list (CellKey * list Z)) (count : Z) :
  (forall key, mget cell_eqb key grid
               = match earlierInCell positions key n with
                 | [] => None
                 | l => Some l
                 end) ->
  exists grid',
    duplicateStep positions (grid, count)
                  (Z.of_nat n, vertexAt positions (Z.of_nat n))
    = (grid', if duplicatesEarlier positions (Z.of_nat n) then count + 1 else count)
    /\ forall key, mget cell_eqb key grid'
                   = match earlierInCell positions key (S n) with
                     | [] => None
                     | l => Some l
                     end.
Proof.
  intros Hinv. unfold duplicateStep.
  fold (duplicateCell positions (Z.of_nat n)).
  set (key0 := duplicateCell positions (Z.of_nat n)).
  assert (forall v key,
             mget cell_eqb key (mset cell_eqb key0 v grid)
             = if cell_eqb key0 key then Some v else mget cell_eqb key grid) as Hset
    by (intros; apply (mget_mset_gen cell_eqb cell_eqb_eq)).
  unfold duplicatesEarlier. rewrite Nat2Z.id. fold key0.
  rewrite (Hinv key0). destruct (earlierInCell positions key0 n) as [|j cell] eqn:E.
  - eexists. split; [reflexivity|]. intros key. rewrite Hset, earlierInCell_snoc.
    fold key0. destruct (cell_eqb key0 key) eqn:Ek.
    + apply cell_eqb_eq in Ek. subst key. now rewrite E.
    + rewrite app_nil_r. apply Hinv.
  - eexists. split; [reflexivity|]. intros key. rewrite Hset, earlierInCell_snoc.
    fold key0. destruct (cell_eqb key0 key) eqn:Ek.
    + apply cell_eqb_eq in Ek. subst key. now rewrite E.
    + rewrite app_nil_r. apply Hinv.
Qed.

Lemma duplicate_fold (positions : list float) (m : nat) :
  forall n grid count,
    (forall key, mget cell_eqb key grid
                 = match earlierInCell positions key n with
                   | [] => None
                   | l => Some l
                   end) ->
    snd (fold_left (duplicateStep positions)
                   (map (fun i => (i, vertexAt positions i)) (iota (Z.of_nat n) m))
                   (grid, count))
    = count + lengthZ (filter (duplicatesEarlier positions) (iota (Z.of_nat n) m)).
Proof.
  induction m as [|m IH]; intros n grid count Hinv; cbn [iota map fold_left filter].
  - unfold lengthZ. cbn. lia.
  - destruct (duplicateStep_invariant positions n grid count Hinv) as (grid' & -> & Hinv').
    replace (Z.of_nat n + 1) with (Z.of_nat (S n)) by lia.
    rewrite (IH (S n) grid' _ Hinv').
    destruct (duplicatesEarlier positions (Z.of_nat n)); rewrite ?lengthZ_cons; lia.
Qed.

(** X15.  [detectDuplicateVertices] counts vertex [i] exactly when some
    earlier vertex in the same cell of its grid (cell size 1e-5) is closer
    than the tolerance 1e-6; so the count is non-negative and below the
    number of vertices, and vertices within the tolerance but in
    different cells are not counted. *)
Theorem duplicates_are_counted_within_a_cell (positions : list float) :
  let vertexCount := length (vertices positions) in
  detectDuplicateVertices positions
  = lengthZ (filter (duplicatesEarlier positions) (iota 0 vertexCount))
  /\ 0 <= detectDuplicateVertices positions <= Z.max 0 (Z.of_nat vertexCount - 1).
Proof.
  cbn zeta. unfold detectDuplicateVertices. rewrite indexed_vertices.
  pose proof (duplicate_fold positions (length (vertices positions)) 0 [] 0
                (fun key => eq_refl)) as Hfold.
  change (Z.of_nat 0) with 0 in Hfold. rewrite Hfold, Z.add_0_l.
  split; [reflexivity|].
  split; [apply lengthZ_nonneg|].
  destruct (length (vertices positions)) as [|n]; [unfold lengthZ; cbn; lia|].
  cbn [iota filter]. change (duplicatesEarlier positions 0) with false.
  pose proof (filter_length_le (duplicatesEarlier positions) (iota (0 + 1) n)) as Hle.
  rewrite length_iota in Hle. unfold lengthZ. lia.
Qed.

(* ===================================================================== *)
(** ** Connected components                                               *)
(* ===================================================================== *)

Lemma joined_more (edges edges' : list (Z * Z)) (x y : Z) :
  (forall e, In e edges -> In e edges') -> joined edges x y -> joined edges' x y.
Proof.
  intros Hsub. induction 1; eauto using joined.
Qed.

(** Adding one pair joins exactly the class of one end with the class of
    the other. *)
Lemma joined_snoc (edges : list (Z * Z)) (a b x y : Z) :
  joined (edges ++ [(a, b)]) x y
  <-> joined edges x y
      \/ (joined edges x a /\ joined edges b y)
      \/ (joined edges x b /\ joined edges a y).
Proof.
  split.
  - induction 1 as [x|c d Hin|x y _ IH|x y z _ IH1 _ IH2].
    + left. constructor.
    + apply in_app_or in Hin. destruct Hin as [Hin|[[= <- <-]|[]]].
      * left. now constructor.
      * right. left. split; constructor.
    + destruct IH as [H|[[H1 H2]|[H1 H2]]]; eauto 6 using joined.
    + destruct IH1 as [H|[[H1 H2]|[H1 H2]]], IH2 as [G|[[G1 G2]|[G1 G2]]];
        eauto 8 using joined.
  - assert (forall u v, joined edges u v -> joined (edges ++ [(a, b)]) u v) as Hold
      by (intros u v; apply joined_more; intros e He; apply in_or_app; now left).
    assert (joined (edges ++ [(a, b)]) a b) as Hab
      by (constructor; apply in_or_app; right; now left).
    intros [H|[[H1 H2]|[H1 H2]]]; eauto 6 using joined.
Qed.

Lemma joined_nil (x y : Z) : joined [] x y -> x = y.
Proof. induction 1 as [x|a b []|x y _ IH|x y z _ IH1 _ IH2]; congruence. Qed.

Lemma joined_ends (edges : list (Z * Z)) (x y : Z) :
  joined edges x y ->
  x = y \/ ((exists e, In e edges /\ (fst e = x \/ snd e = x))
            /\ (exists e, In e edges /\ (fst e = y \/ snd e = y))).
Proof.
  induction 1 as [x|a b Hin|x y _ IH|x y z _ IH1 _ IH2].
  - now left.
  - right. split; exists (a, b); auto.
  - destruct IH as [->|[H1 H2]]; auto.
  - destruct IH1 as [->|[H1 H2]]; [exact IH2|].
    destruct IH2 as [<-|[G1 G2]]; auto.
Qed.

(** Linking the root [a] under the root [b] moves the class of [a] to
    [b] and leaves the other roots. *)
Lemma link_Rooted_exact (l : list Z) (a b : Z) :
  lookupZ l a = Some a -> lookupZ l b = Some b -> a <> b ->
  forall y s, Rooted l y s -> Rooted (updateZ l a b) y (if s =? a then b else s).
Proof.
  intros Ha Hb Hab y s Hys.
  assert (Rooted (updateZ l a b) b b) as Hbb.
  { constructor. rewrite lookupZ_updateZ_ne by congruence. exact Hb. }
  induction Hys as [y Hy|y z s Hy Hz _ IH].
  - destruct (Z.eqb_spec y a) as [->|Hne].
    + apply Rooted_step with (y := b); [|congruence|exact Hbb].
      apply lookupZ_updateZ_eq. eapply lookupZ_Some_range, Ha.
    + constructor. rewrite lookupZ_updateZ_ne by congruence. exact Hy.
  - apply Rooted_step with (y := z); [|exact Hz|exact IH].
    rewrite lookupZ_updateZ_ne; [exact Hy|]. intros <-. congruence.
Qed.

Lemma partitions_same_roots (l l' : list Z) (edges : list (Z * Z)) :
  lengthZ l' = lengthZ l -> forest l ->
  (forall y s, Rooted l y s -> Rooted l' y s) ->
  partitions l edges -> partitions l' edges.
Proof.
  intros Hlen Hf Hkeep Hp x y Hx Hy. rewrite Hlen in Hx, Hy.
  rewrite <- (Hp x y Hx Hy). split.
  - intros (r & H1 & H2).
    destruct (Hf x Hx) as [rx Hrx]. destruct (Hf y Hy) as [ry Hry].
    assert (r = rx) by (eapply Rooted_det; [exact H1|auto]).
    assert (r = ry) by (eapply Rooted_det; [exact H2|auto]).
    exists rx. split; [exact Hrx|congruence].
  - intros (r & H1 & H2). exists r. auto.
Qed.

Lemma union_classes (l : list Z) (edges : list (Z * Z)) (a b : Z) :
  lengthZ l <= 4294967296 -> forest l -> partitions l edges ->
  0 <= a < lengthZ l -> 0 <= b < lengthZ l ->
  exists depth l',
    lengthZ l' = lengthZ l /\ forest l' /\ partitions l' (edges ++ [(a, b)])
    /\ forall stack, (depth <= stack)%nat ->
         union stack (mkParent l Js.Undef) (Js.Num a) (Js.Num b)
         = Some (mkParent l' Js.Undef).
Proof.
  intros Hlen Hf Hp Ha Hb.
  destruct (Hf a Ha) as [ra Hra]. destruct (Hf b Hb) as [rb Hrb].
  destruct (find_Rooted l a ra Hlen Hra) as (d1 & l1 & Hl1 & Hk1 & Hf1).
  assert (lengthZ l1 <= 4294967296) as Hlen1 by lia.
  destruct (find_Rooted l1 b rb Hlen1 (Hk1 _ _ Hrb)) as (d2 & l2 & Hl2 & Hk2 & Hf2).
  assert (forall y s, Rooted l y s -> Rooted l2 y s) as Hkeep by auto.
  assert (lengthZ l2 = lengthZ l) as Hl by lia.
  assert (forest l2) as Hforest2.
  { intros x Hx. destruct (Hf x) as [r Hr]; [lia|]. exists r. auto. }
  pose proof (partitions_same_roots l l2 edges Hl Hf Hkeep Hp) as Hp2.
  assert (joined edges a ra) as Jra.
  { apply (Hp a ra Ha); [eapply Rooted_range, Hra|].
    exists ra. split; [exact Hra|]. constructor. eapply Rooted_is_root, Hra. }
  assert (joined edges b rb) as Jrb.
  { apply (Hp b rb Hb); [eapply Rooted_range, Hrb|].
    exists rb. split; [exact Hrb|]. constructor. eapply Rooted_is_root, Hrb. }
  destruct (Z.eq_dec ra rb) as [Heq|Hne].
  - exists (Nat.max d1 d2), l2. split; [lia|]. split; [exact Hforest2|]. split.
    + intros x y Hx Hy. rewrite (Hp2 x y Hx Hy), joined_snoc.
      assert (joined edges a b) as Jab
        by (subst rb; apply joined_trans with ra; [exact Jra|now apply joined_sym]).
      split; [auto|]. intros [H|[[H1 H2]|[H1 H2]]]; [exact H| |].
      * apply joined_trans with a; [exact H1|]. apply joined_trans with b; assumption.
      * apply joined_trans with b; [exact H1|].
        apply joined_trans with a; [now apply joined_sym|exact H2].
    + intros stack Hs. unfold union. rewrite Hf1, Hf2 by lia.
      cbn. rewrite Heq, Z.eqb_refl. reflexivity.
  - pose proof (Rooted_range _ _ _ (Hkeep _ _ Hrb)) as [_ Hrbin].
    pose proof (Rooted_is_root _ _ _ (Hkeep _ _ Hra)) as Hroota.
    pose proof (Rooted_is_root _ _ _ (Hkeep _ _ Hrb)) as Hrootb.
    pose proof (link_Rooted_exact l2 ra rb Hroota Hrootb Hne) as Hlink.
    exists (Nat.max d1 d2), (updateZ l2 ra rb). split; [|split; [|split]].
    + rewrite length_updateZ. lia.
    + intros x Hx. rewrite length_updateZ in Hx.
      destruct (Hforest2 x Hx) as [r Hr]. eexists. apply Hlink, Hr.
    + intros x y Hx Hy. rewrite length_updateZ in Hx, Hy. rewrite joined_snoc.
      destruct (Hforest2 x Hx) as [rx Hrx]. destruct (Hforest2 y Hy) as [ry Hry].
      pose proof (Hlink _ _ Hrx) as Hx'. pose proof (Hlink _ _ Hry) as Hy'.
      assert (joined edges x rx) as Jx.
      { apply (Hp2 x rx Hx); [eapply Rooted_range, Hrx|].
        exists rx. split; [exact Hrx|]. constructor. eapply Rooted_is_root, Hrx. }
      assert (joined edges y ry) as Jy.
      { apply (Hp2 y ry Hy); [eapply Rooted_range, Hry|].
        exists ry. split; [exact Hry|]. constructor. eapply Rooted_is_root, Hry. }
      assert (forall u v, joined edges u v ->
                          0 <= u < lengthZ l2 -> 0 <= v < lengthZ l2 ->
                          forall ru rv, Rooted l2 u ru -> Rooted l2 v rv -> ru = rv)
        as Hclass.
      { intros u v J Hu Hv ru rv Hru Hrv. apply (Hp2 u v Hu Hv) in J.
        destruct J as (r & H1 & H2).
        rewrite (Rooted_det _ _ _ _ Hru H1), (Rooted_det _ _ _ _ Hrv H2). reflexivity. }
      assert (0 <= a < lengthZ l2) as Ha2 by lia.
      assert (0 <= b < lengthZ l2) as Hb2 by lia.
      assert (0 <= x < lengthZ l2) as Hx2 by lia.
      assert (0 <= y < lengthZ l2) as Hy2 by lia.
      split.
      * intros (r & H1 & H2).
        rewrite (Rooted_det _ _ _ _ H1 Hx') in H2.
        pose proof (Rooted_det _ _ _ _ H2 Hy') as E.
        destruct (Z.eqb_spec rx ra) as [->|Nx], (Z.eqb_spec ry ra) as [->|Ny].
        -- left. apply joined_trans with ra; [exact Jx|now apply joined_sym].
        -- subst ry. right. left. split.
           ++ apply joined_trans with ra; [exact Jx|now apply joined_sym].
           ++ apply joined_trans with rb; [exact Jrb|now apply joined_sym].
        -- subst rx. right. right. split.
           ++ apply joined_trans with rb; [exact Jx|now apply joined_sym].
           ++ apply joined_trans with ra; [exact Jra|now apply joined_sym].
        -- subst ry. left. apply joined_trans with rx; [exact Jx|now apply joined_sym].
      * intros [J|[[J1 J2]|[J1 J2]]].
        -- rewrite (Hclass x y J Hx2 Hy2 rx ry Hrx Hry) in Hx'. eauto.
        -- pose proof (Hclass x a J1 Hx2 Ha2 rx ra Hrx (Hkeep _ _ Hra)) as ->.
           pose proof (Hclass b y J2 Hb2 Hy2 rb ry (Hkeep _ _ Hrb) Hry) as <-.
           rewrite Z.eqb_refl in Hx'.
           destruct (Z.eqb_spec rb ra); [congruence|]. eauto.
        -- pose proof (Hclass x b J1 Hx2 Hb2 rx rb Hrx (Hkeep _ _ Hrb)) as ->.
           pose proof (Hclass a y J2 Ha2 Hy2 ra ry (Hkeep _ _ Hra) Hry) as <-.
           rewrite Z.eqb_refl in Hy'.
           destruct (Z.eqb_spec rb ra); [congruence|]. eauto.
    + intros stack Hs. unfold union. rewrite Hf1, Hf2 by lia.
      cbn. destruct (Z.eqb_spec ra rb); [contradiction|].
      rewrite Z.mod_small by lia. reflexivity.
Qed.

Lemma unionTriangles_classes (tris : list (Z * Z * Z)) :
  forall l edges,
    lengthZ l <= 4294967296 -> forest l -> partitions l edges ->
    Forall (triangleInRange (lengthZ l)) tris ->
    exists depth l',
      lengthZ l' = lengthZ l /\ forest l'
      /\ partitions l' (edges ++ unionEdges tris)
      /\ forall stack, (depth <= stack)%nat ->
           unionTriangles stack (mkParent l Js.Undef) tris
           = Some (mkParent l' Js.Undef).
Proof.
  induction tris as [|[[i0 i1] i2] rest IH]; intros l edges Hlen Hf Hp Hall.
  - exists 0%nat, l. cbn [unionEdges flat_map]. rewrite app_nil_r.
    split; [reflexivity|]. split; [exact Hf|]. split; [exact Hp|]. reflexivity.
  - inversion Hall as [|? ? Htri Hrest]; subst.
    destruct Htri as (H0 & H1 & H2).
    destruct (union_classes l edges i0 i1 Hlen Hf Hp H0 H1)
      as (d1 & l1 & Hl1 & Hf1 & Hp1 & Hu1).
    destruct (union_classes l1 (edges ++ [(i0, i1)]) i1 i2)
      as (d2 & l2 & Hl2 & Hf2 & Hp2 & Hu2); try lia; auto.
    destruct (IH l2 ((edges ++ [(i0, i1)]) ++ [(i1, i2)]))
      as (d3 & l3 & Hl3 & Hf3 & Hp3 & Hu3); try lia; auto.
    { replace (lengthZ l2) with (lengthZ l) by lia. exact Hrest. }
    exists (Nat.max d1 (Nat.max d2 d3)), l3. split; [lia|]. split; [exact Hf3|]. split.
    + cbn [unionEdges flat_map]. fold (unionEdges rest).
      rewrite <- !app_assoc in Hp3. exact Hp3.
    + intros stack Hs. cbn [unionTriangles].
      rewrite Hu1, Hu2 by lia. apply Hu3. lia.
Qed.

Lemma partitions_iota (n : nat) : partitions (iota 0 n) [].
Proof.
  intros x y Hx Hy. unfold lengthZ in *. rewrite length_iota in *.
  assert (forall z, 0 <= z < Z.of_nat n -> Rooted (iota 0 n) z z) as Hroot
    by (intros z Hz; constructor; rewrite lookupZ_iota by lia; f_equal; lia).
  split.
  - intros (r & H1 & H2).
    pose proof (Rooted_det _ _ _ _ (Hroot x Hx) H1) as Ex.
    pose proof (Rooted_det _ _ _ _ (Hroot y Hy) H2) as Ey.
    replace y with x by congruence. constructor.
  - intros J. apply joined_nil in J. subst y. exists x. auto.
Qed.

Lemma sadd_Num (r : Z) (acc : list Z) :
  sadd Js.value_eqb (Js.Num r) (map Js.Num acc) = map Js.Num (sadd Z.eqb r acc).
Proof.
  unfold sadd.
  assert (shas Js.value_eqb (Js.Num r) (map Js.Num acc) = shas Z.eqb r acc) as ->
    by (induction acc as [|x acc IH]; cbn; [reflexivity|now rewrite IH]).
  destruct (shas Z.eqb r acc); [reflexivity|]. now rewrite map_app.
Qed.

Lemma collectRoots_classes (used : list Z) :
  forall l0 l acc,
    lengthZ l0 <= 4294967296 -> lengthZ l = lengthZ l0 -> forest l0 ->
    (forall y s, Rooted l0 y s -> Rooted l y s) ->
    Forall (fun v => 0 <= v < lengthZ l0) used ->
    exists depth rs,
      Forall2 (Rooted l0) used rs
      /\ forall stack, (depth <= stack)%nat ->
           collectRoots stack (mkParent l Js.Undef) used (map Js.Num acc)
           = Some (map Js.Num (fold_left (fun s r => sadd Z.eqb r s) rs acc)).
Proof.
  induction used as [|v rest IH]; intros l0 l acc Hlen Hl Hf Hkeep Hall.
  - exists 0%nat, []. split; [constructor|]. reflexivity.
  - inversion Hall as [|? ? Hv Hrest]; subst.
    destruct (Hf v Hv) as [r Hr].
    destruct (find_Rooted l v r) as (d1 & l1 & Hl1 & Hk1 & Hf1); [lia|auto|].
    destruct (IH l0 l1 (sadd Z.eqb r acc)) as (d2 & rs & Hrs & Hc); auto; try lia.
    exists (Nat.max d1 d2), (r :: rs). split; [now constructor|].
    intros stack Hs. cbn [collectRoots fold_left].
    rewrite Hf1 by lia. rewrite sadd_Num. apply Hc. lia.
Qed.

Lemma Forall2_In_r {A B : Type} (R : A -> B -> Prop) (l : list A) (rs : list B) :
  Forall2 R l rs -> forall r, In r rs -> exists v, In v l /\ R v r.
Proof.
  induction 1 as [|v r l rs Hvr _ IH]; intros r' Hin; [destruct Hin|].
  destruct Hin as [<-|Hin]; [exists v; split; [now left|exact Hvr]|].
  destruct (IH r' Hin) as (v' & Hv' & HR). exists v'. split; [now right|exact HR].
Qed.

Lemma Forall2_In_l {A B : Type} (R : A -> B -> Prop) (l : list A) (rs : list B) :
  Forall2 R l rs -> forall v, In v l -> exists r, In r rs /\ R v r.
Proof.
  induction 1 as [|v r l rs Hvr _ IH]; intros v' Hin; [destruct Hin|].
  destruct Hin as [<-|Hin]; [exists r; split; [now left|exact Hvr]|].
  destruct (IH v' Hin) as (r' & Hr' & HR). exists r'. split; [now right|exact HR].
Qed.

Lemma In_unionEdges (indices : list Z) (e : Z * Z) :
  In e (unionEdges (triangles indices)) -> In (fst e) indices /\ In (snd e) indices.
Proof.
  unfold unionEdges. intros H. apply in_flat_map in H.
  destruct H as ([[i0 i1] i2] & Htri & He). apply In_triangles in Htri.
  destruct Htri as (H0 & H1 & H2).
  destruct He as [<-|[<-|[]]]; cbn; auto.
Qed.

(** X16.  [connectedComponents] is the number of classes of used
    vertices under connection through triangles: on a valid input under
    the cap whose grid cells fit (so that the loops of the
    self-intersection pass end) the analysis returns, given enough call
    stack, and there are [connectedComponents]
    distinct used vertices, no two of them connected, such that every
    vertex of the index array is connected to one of them. *)
Theorem components_count_connectivity_classes (Math_acos : float -> float)
    (positions : list float) (indices : list Z) :
  validMesh positions indices -> underCap indices ->
  cellsFit positions indices ->
  exists depth, forall stack, (depth <= stack)%nat ->
    exists r reps,
      computeMeshDiagnostics Math_acos stack positions indices = Some r
      /\ connectedComponents r = lengthZ reps
      /\ NoDup reps
      /\ (forall rep, In rep reps -> In rep indices)
      /\ (forall v, In v indices -> exists rep, In rep reps /\ connected indices v rep)
      /\ (forall a b, In a reps -> In b reps -> connected indices a b -> a = b).
Proof.
  intros Hvalid Hcap _. destruct Hvalid as [Hp3 Hi3 Hfit Hfin Hrange].
  set (n := lengthZ positions / 3) in *.
  pose proof (lengthZ_nonneg positions) as Hpos.
  assert (0 <= n <= 4294967296) as Hn.
  { unfold n. split; [apply Z.div_pos; lia|]. apply Z.div_le_upper_bound; lia. }
  assert (lengthZ (iota 0 (Z.to_nat n)) = n) as Hlen
    by (unfold lengthZ; rewrite length_iota; lia).
  rewrite Forall_forall in Hrange.
  destruct (unionTriangles_classes (triangles indices) (iota 0 (Z.to_nat n)) [])
    as (d1 & l1 & Hl1 & Hf1 & Hp1 & Hu);
    [lia|apply forest_iota|apply partitions_iota| |].
  { rewrite Hlen. apply Forall_forall. intros [[a b] c] Hin.
    apply In_triangles in Hin. destruct Hin as (Ha & Hb & Hc). cbn. auto. }
  cbn [app] in Hp1.
  destruct (collectRoots_classes (usedVertices indices n) l1 l1 [])
    as (d2 & rs & Hrs & Hc); [lia|reflexivity|exact Hf1|auto| |].
  { apply Forall_forall. intros v Hv. apply In_usedVertices in Hv.
    destruct Hv as [Hv _]. specialize (Hrange v Hv). lia. }
  exists (Nat.max d1 d2). intros stack Hs.
  set (reps := distinct Z.eqb rs).
  assert (countComponents stack indices n = Some (lengthZ reps)) as Hcount.
  { unfold countComponents, initialParent. rewrite Hu by lia.
    change (@nil Js.value) with (map Js.Num []). rewrite Hc by lia.
    unfold lengthZ. now rewrite length_map. }
  exists (fullDiagnostics Math_acos positions indices (lengthZ reps)), reps.
  split; [now apply computeMeshDiagnostics_normal|].
  split; [reflexivity|]. split; [apply (NoDup_distinct _ Z.eqb_eq)|].
  assert (forall v rep, In v (usedVertices indices n) -> Rooted l1 v rep ->
                        connected indices v rep) as Hjoin.
  { intros v rep Hv Hroot. pose proof (Rooted_range _ _ _ Hroot) as [Hv1 Hr1].
    apply (Hp1 v rep Hv1 Hr1). exists rep. split; [exact Hroot|].
    constructor. eapply Rooted_is_root, Hroot. }
  split; [|split].
  - intros rep Hrep. apply (proj1 (In_distinct Z.eqb Z.eqb_eq rs rep)) in Hrep.
    destruct (Forall2_In_r _ _ _ Hrs rep Hrep) as (v & Hv & Hroot).
    pose proof (Hjoin v rep Hv Hroot) as J. apply joined_ends in J.
    apply In_usedVertices in Hv. destruct Hv as [Hv _].
    destruct J as [<-|[_ (e & He & Hend)]]; [exact Hv|].
    apply In_unionEdges in He. destruct Hend as [<-|<-]; tauto.
  - intros v Hv.
    assert (In v (usedVertices indices n)) as Hused
      by (apply In_usedVertices; split; [exact Hv|apply Hrange, Hv]).
    destruct (Forall2_In_l _ _ _ Hrs v Hused) as (rep & Hrep & Hroot).
    exists rep. split; [now apply (proj2 (In_distinct Z.eqb Z.eqb_eq rs rep))|auto].
  - intros a b Ha Hb J.
    apply (proj1 (In_distinct Z.eqb Z.eqb_eq rs a)) in Ha.
    apply (proj1 (In_distinct Z.eqb Z.eqb_eq rs b)) in Hb.
    destruct (Forall2_In_r _ _ _ Hrs a Ha) as (va & _ & Hra).
    destruct (Forall2_In_r _ _ _ Hrs b Hb) as (vb & _ & Hrb).
    assert (Rooted l1 a a) as Haa by (constructor; eapply Rooted_is_root, Hra).
    assert (Rooted l1 b b) as Hbb by (constructor; eapply Rooted_is_root, Hrb).
    pose proof (Rooted_range _ _ _ Haa) as [Ha1 _].
    pose proof (Rooted_range _ _ _ Hbb) as [Hb1 _].
    apply (Hp1 a b Ha1 Hb1) in J. destruct J as (r & H1 & H2).
    rewrite (Rooted_det _ _ _ _ Haa H1), (Rooted_det _ _ _ _ Hbb H2). reflexivity.
Qed.

Lemma components_count_connectivity_classes_witness :
  validMesh tetraPositions tetraIndices
  /\ underCap tetraIndices
  /\ cellsFit tetraPositions tetraIndices
  /\ exists depth, forall stack, (depth <= stack)%nat ->
       exists r reps,
         computeMeshDiagnostics acosHost stack tetraPositions tetraIndices = Some r
         /\ connectedComponents r = lengthZ reps
         /\ NoDup reps
         /\ (forall rep, In rep reps -> In rep tetraIndices)
         /\ (forall v, In v tetraIndices ->
               exists rep, In rep reps /\ connected tetraIndices v rep)
         /\ (forall a b, In a reps -> In b reps -> connected tetraIndices a b -> a = b).
Proof.
  assert (validMesh tetraPositions tetraIndices) as Hvalid
    by (apply validMeshb_sound; vm_compute; reflexivity).
  assert (underCap tetraIndices) as Hcap by (vm_compute; discriminate).
  assert (cellsFit tetraPositions tetraIndices) as Hcells
    by (vm_compute; reflexivity).
  split; [exact Hvalid|]. split; [exact Hcap|]. split; [exact Hcells|].
  exact (components_count_connectivity_classes acosHost tetraPositions tetraIndices
           Hvalid Hcap Hcells).
Defined.

(* ===================================================================== *)
(** ** Winding and orientation                                            *)
(* ===================================================================== *)

Lemma triangles_flatten (tris : list (Z * Z * Z)) : triangles (flatten tris) = tris.
Proof.
  induction tris as [|[[a b] c] tris IH]; [reflexivity|].
  cbn [flatten flat_map app triangles]. fold (flatten tris). now rewrite IH.
Qed.

Lemma In_flatten (tris : list (Z * Z * Z)) (i : Z) :
  In i (flatten tris)
  <-> exists tri, In tri tris /\ In i (let '(a, b, c) := tri in [a; b; c]).
Proof. unfold flatten. apply in_flat_map. Qed.

Lemma directedEdges_reversed (indices : list Z) :
  Permutation (directedEdges (reverseWinding indices))
              (map swapEnds (directedEdges indices)).
Proof.
  unfold directedEdges, reverseWinding. rewrite triangles_flatten.
  induction (triangles indices) as [|[[a b] c] tris IH]; [constructor|].
  cbn [map flat_map trianglePairs app swapEnds fst snd].
  apply Permutation_trans with ((b, a) :: (a, c) :: (c, b)
                                :: flat_map trianglePairs
                                     (map (fun tri : Z * Z * Z =>
                                             let '(i0, i1, i2) := tri in (i0, i2, i1)) tris)).
  - apply Permutation_trans with ((a, c) :: (b, a) :: (c, b) :: flat_map trianglePairs
                                     (map (fun tri : Z * Z * Z =>
                                             let '(i0, i1, i2) := tri in (i0, i2, i1)) tris)).
    + apply perm_skip, perm_swap.
    + apply perm_swap.
  - apply perm_skip. apply Permutation_trans with ((c, b) :: (a, c) :: map swapEnds
                                                     (flat_map trianglePairs tris)).
    + apply Permutation_trans with ((a, c) :: (c, b) :: map swapEnds
                                      (flat_map trianglePairs tris)).
      * do 2 apply perm_skip. exact IH.
      * apply perm_swap.
    + apply Permutation_refl.
Qed.

Lemma traversals_reversed (indices : list Z) (a b : Z) :
  traversals (reverseWinding indices) a b = traversals indices b a.
Proof.
  unfold traversals.
  rewrite (filter_length_Permutation _ _ _ (directedEdges_reversed indices)).
  induction (directedEdges indices) as [|[x y] l IH]; [reflexivity|].
  cbn [map filter].
  assert (pair_eqb (swapEnds (x, y)) (a, b) = pair_eqb (x, y) (b, a)) as ->
    by (unfold pair_eqb, swapEnds; cbn [fst snd]; apply andb_comm).
  destruct (pair_eqb (x, y) (b, a)); rewrite ?lengthZ_cons; lia.
Qed.

Lemma undirectedEdges_reversed (indices : list Z) :
  Permutation (undirectedEdges (reverseWinding indices)) (undirectedEdges indices).
Proof.
  unfold undirectedEdges. apply distinct_Permutation; [apply pair_eqb_eq|].
  apply Permutation_trans with (map canonical (map swapEnds (directedEdges indices))).
  - apply Permutation_map, directedEdges_reversed.
  - rewrite map_map. erewrite map_ext; [apply Permutation_refl|].
    intros [x y]. unfold canonical, swapEnds. cbn [fst snd]. f_equal; lia.
Qed.

Lemma length_reverseWinding (indices : list Z) :
  lengthZ (reverseWinding indices) / 3 = lengthZ indices / 3.
Proof.
  rewrite <- !length_triangles. unfold reverseWinding. rewrite triangles_flatten.
  unfold lengthZ. now rewrite length_map.
Qed.

Lemma keysFit_reverseWinding (indices : list Z) :
  keysFit indices -> keysFit (reverseWinding indices).
Proof.
  unfold keysFit, reverseWinding. rewrite !Forall_forall. intros H i Hi.
  apply In_flatten in Hi. destruct Hi as ([[a b] c] & Htri & Hi).
  apply in_map_iff in Htri. destruct Htri as ([[x y] z] & [= <- <- <-] & Hin).
  apply In_triangles in Hin. destruct Hin as (Hx & Hy & Hz).
  destruct Hi as [<-|[<-|[<-|[]]]]; auto.
Qed.

(** X17.  Turning every triangle over does not change the winding
    result: for an index array of whole triples with indices below 2^26
    and a triangle count under the cap, [detectWindingConsistency] returns
    the same inconsistent-edge count and the same percentage for the mesh
    and for the mesh with reversed orientation. *)
Theorem winding_result_ignores_global_orientation (indices : list Z) :
  lengthZ indices mod 3 = 0 -> keysFit indices -> underCap indices ->
  detectWindingConsistency (reverseWinding indices) = detectWindingConsistency indices.
Proof.
  intros _ Hfit Hcap.
  assert (underCap (reverseWinding indices)) as Hcap'
    by (unfold underCap in *; now rewrite length_reverseWinding).
  pose proof (keysFit_reverseWinding indices Hfit) as Hfit'.
  rewrite !detectWindingConsistency_underCap by assumption.
  destruct (windingScan_counts indices Hfit) as [-> ->].
  destruct (windingScan_counts (reverseWinding indices) Hfit') as [-> ->].
  assert (forall e, manifoldForWinding (reverseWinding indices) e
                    = manifoldForWinding indices e) as Hm.
  { intros e. unfold manifoldForWinding. rewrite !traversals_reversed. f_equal. lia. }
  assert (forall e, woundInconsistently (reverseWinding indices) e
                    = woundInconsistently indices e) as Hw.
  { intros e. unfold woundInconsistently. rewrite Hm, !traversals_reversed.
    f_equal. f_equal. apply andb_comm. }
  rewrite (filter_ext _ _ Hm), (filter_ext _ _ Hw).
  rewrite (filter_length_Permutation (manifoldForWinding indices) _ _
             (undirectedEdges_reversed indices)).
  rewrite (filter_length_Permutation (woundInconsistently indices) _ _
             (undirectedEdges_reversed indices)).
  reflexivity.
Qed.

Lemma winding_result_ignores_global_orientation_witness :
  lengthZ sameDirectionIndices mod 3 = 0
  /\ keysFit sameDirectionIndices /\ underCap sameDirectionIndices
  /\ detectWindingConsistency (reverseWinding sameDirectionIndices)
     = detectWindingConsistency sameDirectionIndices.
Proof.
  assert (keysFit sameDirectionIndices) as Hfit
    by (apply keysFit_small; vm_compute; reflexivity).
  assert (underCap sameDirectionIndices) as Hcap by (vm_compute; discriminate).
  split; [reflexivity|]. split; [exact Hfit|]. split; [exact Hcap|].
  exact (winding_result_ignores_global_orientation sameDirectionIndices eq_refl
           Hfit Hcap).
Defined.
